(** * syncstation: a shallow embedding of the sync core

    The development follows the Go packages of the repository:
    - [SHA256]      the digest behind [config.CalculateFileHash] (crypto/sha256);
    - [Strs], [Path] the functions of [strings] and [path/filepath] the code calls;
    - [FS]          the files the engine sees through [os];
    - [Validation]  internal/validation (name validator);
    - [Config]      internal/config/models.go (documents, slug, path lookup);
    - [Cache]       internal/cache (hash cache);
    - [Errors]      internal/errors (error types, checks, collector);
    - [Atomic]      internal/atomic (temp-then-rename writer, atomic copy);
    - [Transaction] internal/atomic (transactions of operations);
    - [Backup]      internal/backup/manager.go (manifest, dedup, eviction,
                    restore, list, delete);
    - [Sync]        internal/sync/sync.go (push, pull, smart sync).

    Times are integers (nanoseconds since the epoch), file contents and
    paths are byte strings, Go maps are finite maps, Go slices are lists. *)

From Stdlib Require Import ZArith String Ascii List Lia Bool.
From stdpp Require Import base option gmap strings list sorting.
Import ListNotations.

(* ===================================================================== *)
(** ** SHA-256 (FIPS 180-4), as used by [CalculateFileHash]              *)
(* ===================================================================== *)

Module SHA256.
Local Open Scope Z_scope.

Definition wrap32 (x : Z) : Z := x mod 4294967296.
Definition add32 (x y : Z) : Z := wrap32 (x + y).
Definition rotr (n x : Z) : Z :=
  Z.lor (Z.shiftr x n) (wrap32 (Z.shiftl x (32 - n))).
Definition not32 (x : Z) : Z := 4294967295 - x.

Definition Ch (x y z : Z) : Z := Z.lxor (Z.land x y) (Z.land (not32 x) z).
Definition Maj (x y z : Z) : Z :=
  Z.lxor (Z.lxor (Z.land x y) (Z.land x z)) (Z.land y z).
Definition bsig0 (x : Z) : Z := Z.lxor (Z.lxor (rotr 2 x) (rotr 13 x)) (rotr 22 x).
Definition bsig1 (x : Z) : Z := Z.lxor (Z.lxor (rotr 6 x) (rotr 11 x)) (rotr 25 x).
Definition ssig0 (x : Z) : Z := Z.lxor (Z.lxor (rotr 7 x) (rotr 18 x)) (Z.shiftr x 3).
Definition ssig1 (x : Z) : Z := Z.lxor (Z.lxor (rotr 17 x) (rotr 19 x)) (Z.shiftr x 10).

(** The constants are given by their definition in FIPS 180-4: the first 32
    bits of the fractional parts of the cube roots (for [K]) and of the square
    roots (for [H0]) of the first primes. *)
Definition is_prime (n : Z) : bool :=
  forallb (fun d => negb (n mod d =? 0)) (map Z.of_nat (seq 2 (Z.to_nat n - 2))).

Definition primes (count : nat) : list Z :=
  firstn count (filter is_prime (map Z.of_nat (seq 2 400))).

(** The largest [r] below [2 ^ bit] past [r] with [r ^ k <= n], bit by bit. *)
Fixpoint root (k n : Z) (bit : nat) (r : Z) : Z :=
  match bit with
  | O => r
  | S b =>
      let c := r + 2 ^ Z.of_nat b in
      root k n b (if c ^ k <=? n then c else r)
  end.

Definition frac32 (k p : Z) : Z := wrap32 (root k (p * 2 ^ (32 * k)) 40 0).

Definition K : list Z := Eval vm_compute in map (frac32 3) (primes 64).

Definition H0 : list Z := Eval vm_compute in map (frac32 2) (primes 8).

Definition be32 (b0 b1 b2 b3 : Z) : Z := ((b0 * 256 + b1) * 256 + b2) * 256 + b3.

Fixpoint words (bs : list Z) : list Z :=
  match bs with
  | b0 :: b1 :: b2 :: b3 :: r => be32 b0 b1 b2 b3 :: words r
  | _ => []
  end.

(** Padding: one 0x80 byte, zeros up to 56 mod 64, the bit length on 8 bytes. *)
Definition pad (msg : list Z) : list Z :=
  let len := Z.of_nat (length msg) in
  let bits := len * 8 in
  msg ++ 128 :: repeat 0 (Z.to_nat ((55 - len) mod 64))
      ++ map (fun i => Z.shiftr bits (8 * i) mod 256) [7; 6; 5; 4; 3; 2; 1; 0].

(** Message schedule: 48 more words; [w] is kept newest first. *)
Fixpoint schedule (n : nat) (w : list Z) : list Z :=
  match n with
  | O => w
  | S n' =>
      let g i := nth i w 0 in
      schedule n' (add32 (add32 (ssig1 (g 1%nat)) (g 6%nat))
                         (add32 (ssig0 (g 14%nat)) (g 15%nat)) :: w)
  end.

Definition round (st : list Z) (kw : Z * Z) : list Z :=
  match st with
  | [a; b; c; d; e; f; g; h] =>
      let t1 := add32 (add32 (add32 h (bsig1 e)) (add32 (Ch e f g) (fst kw))) (snd kw) in
      let t2 := add32 (bsig0 a) (Maj a b c) in
      [add32 t1 t2; a; b; c; add32 d t1; e; f; g]
  | _ => st
  end.

Definition compress (h block : list Z) : list Z :=
  let w := rev (schedule 48 (rev (words block))) in
  let st := fold_left round (combine K w) h in
  map (fun p => add32 (fst p) (snd p)) (combine h st).

Fixpoint blocks (n : nat) (bs h : list Z) : list Z :=
  match n with
  | O => h
  | S n' => blocks n' (skipn 64 bs) (compress h (firstn 64 bs))
  end.

Definition digest (msg : list Z) : list Z :=
  let p := pad msg in blocks (Nat.div (length p) 64) p H0.

Definition hexdigit (n : Z) : ascii :=
  ascii_of_nat (Z.to_nat (if n <? 10 then 48 + n else 87 + n)).

Fixpoint hex32 (k : nat) (x : Z) (acc : string) : string :=
  match k with
  | O => acc
  | S k' => hex32 k' (x / 16) (String (hexdigit (x mod 16)) acc)
  end.

Definition bytes_of_string (s : string) : list Z :=
  map (fun c => Z.of_nat (nat_of_ascii c)) (list_ascii_of_string s).

(** The [%x] rendering of the 32-byte sum. *)
Definition hex (s : string) : string :=
  fold_right (fun w acc => hex32 8 w acc) EmptyString (digest (bytes_of_string s)).

End SHA256.

(* ===================================================================== *)
(** ** The functions of [strings] and [fmt] the code calls               *)
(* ===================================================================== *)

Module Strs.

Definition byte (n : nat) : ascii := ascii_of_nat n.
Definition code (c : ascii) : nat := nat_of_ascii c.
Definition between (lo hi : nat) (c : ascii) : bool :=
  (lo <=? code c)%nat && (code c <=? hi)%nat.

Definition eqb (a b : string) : bool := bool_decide (a = b).

(** [strings.ReplaceAll(s, old, new)] for one-byte [old] and [new], the only
    way the repository calls it. *)
Fixpoint ReplaceAll (s : string) (old new : ascii) : string :=
  match s with
  | EmptyString => EmptyString
  | String c r => String (if Ascii.eqb c old then new else c) (ReplaceAll r old new)
  end.

(** [strings.HasPrefix(s, prefix)]. *)
Fixpoint HasPrefix (s pre : string) : bool :=
  match pre, s with
  | EmptyString, _ => true
  | String a p, String b r => Ascii.eqb a b && HasPrefix r p
  | String _ _, EmptyString => false
  end.

(** [strings.Contains(s, substr)]. *)
Fixpoint Contains (s sub : string) : bool :=
  HasPrefix s sub ||
  match s with
  | EmptyString => false
  | String _ r => Contains r sub
  end.

(** The ASCII part of [unicode.IsSpace]: tab, LF, VT, FF, CR and space.
    [strings.TrimSpace] also trims the non-ASCII spaces (U+0085, U+00A0, ...);
    the name validator calls it only after its character check, which no
    byte above 0x7F passes, so the ASCII part is all that is ever exercised. *)
Definition isSpace (c : ascii) : bool := between 9 13 c || (code c =? 32)%nat.

Fixpoint TrimLeftSpace (s : string) : string :=
  match s with
  | EmptyString => EmptyString
  | String c r => if isSpace c then TrimLeftSpace r else s
  end.

Fixpoint TrimRightSpace (s : string) : string :=
  match s with
  | EmptyString => EmptyString
  | String c r =>
      match TrimRightSpace r with
      | EmptyString => if isSpace c then EmptyString else String c EmptyString
      | r' => String c r'
      end
  end.

Definition TrimSpace (s : string) : string := TrimRightSpace (TrimLeftSpace s).

(** [strings.ToUpper] on ASCII. *)
Definition upper (c : ascii) : ascii :=
  if between 97 122 c then byte (code c - 32) else c.

Fixpoint ToUpper (s : string) : string :=
  match s with
  | EmptyString => EmptyString
  | String c r => String (upper c) (ToUpper r)
  end.

(** [strings.Join(elems, sep)]. *)
Fixpoint Join (elems : list string) (sep : string) : string :=
  match elems with
  | [] => EmptyString
  | [e] => e
  | e :: r => e +:+ sep +:+ Join r sep
  end.

(** [s[lo:hi]]. *)
Definition slice (s : string) (lo hi : nat) : string := String.substring lo (hi - lo) s.

(** [%d] of a non-negative integer. *)
Fixpoint itoa_go (fuel n : nat) (acc : string) : string :=
  match fuel with
  | O => acc
  | S f =>
      let acc' := String (byte (48 + n mod 10)) acc in
      if (n <? 10)%nat then acc' else itoa_go f (n / 10) acc'
  end.
Definition itoa (n : nat) : string := itoa_go (S n) n EmptyString.

(** [%d] of an integer. *)
Definition itoaZ (n : Z) : string :=
  if (n <? 0)%Z then "-" +:+ itoa (Z.to_nat (- n)) else itoa (Z.to_nat n).

(** [s[:n]] and [s[n:]], each clipped to the string. *)
Fixpoint take (n : nat) (s : string) : string :=
  match n, s with
  | S n', String c r => String c (take n' r)
  | _, _ => EmptyString
  end.

Fixpoint drop (n : nat) (s : string) : string :=
  match n, s with
  | S n', String _ r => drop n' r
  | _, _ => s
  end.

End Strs.

(* ===================================================================== *)
(** ** [path/filepath] on a Unix host                                    *)
(* ===================================================================== *)

Module Path.

Definition slash : ascii := "/"%char.

(** The elements between separators, in order (empty ones included). *)
Fixpoint split (s : string) : list string :=
  match s with
  | EmptyString => [EmptyString]
  | String c r =>
      if Ascii.eqb c slash then EmptyString :: split r
      else match split r with
           | e :: es => String c e :: es
           | [] => [String c EmptyString]
           end
  end.

Definition rooted (p : string) : bool :=
  match p with String c _ => Ascii.eqb c slash | EmptyString => false end.

(** One element of [Clean]'s loop; [out] is the output so far, last element
    first. *)
Definition clean_step (root : bool) (out : list string) (e : string) : list string :=
  if Strs.eqb e "" || Strs.eqb e "." then out
  else if Strs.eqb e ".." then
    match out with
    | top :: rest => if Strs.eqb top ".." then e :: out else rest
    | [] => if root then out else [e]
    end
  else e :: out.

Definition Clean (p : string) : string :=
  if Strs.eqb p "" then "."
  else
    let out := rev (fold_left (clean_step (rooted p)) (split p) []) in
    if rooted p then "/" +:+ Strs.Join out "/"
    else match out with [] => "." | _ => Strs.Join out "/" end.

(** [filepath.Join]: from the first non-empty element on, joined and cleaned. *)
Fixpoint Join (elems : list string) : string :=
  match elems with
  | [] => EmptyString
  | e :: r => if Strs.eqb e "" then Join r else Clean (Strs.Join elems "/")
  end.

(** The text up to and including the last separator, and the text after it. *)
Fixpoint cut_last (s : string) : string * string :=
  match s with
  | EmptyString => (EmptyString, EmptyString)
  | String c r =>
      let '(d, b) := cut_last r in
      if Strs.eqb d "" && negb (Ascii.eqb c slash)
      then (EmptyString, String c b)
      else (String c d, b)
  end.

Definition Dir (p : string) : string := Clean (fst (cut_last p)).

Fixpoint strip_slashes (s : string) : string :=
  match s with
  | EmptyString => EmptyString
  | String c r =>
      match strip_slashes r with
      | EmptyString => if Ascii.eqb c slash then EmptyString else String c EmptyString
      | r' => String c r'
      end
  end.

Definition Base (p : string) : string :=
  if Strs.eqb p "" then "."
  else
    let q := strip_slashes p in
    if Strs.eqb q "" then "/" else snd (cut_last q).

End Path.

(* ===================================================================== *)
(** ** internal/validation: the name validator                           *)
(* ===================================================================== *)

Module Validation.
Import Strs.

(** [errors.ValidationError]. *)
Record ValidationError := NewValidationError
  { Field : string; Value : string; Message : string }.

(** RE2's [\s] is [[\t\n\f\r ]]. *)
Definition re_space (c : ascii) : bool :=
  (code c =? 9)%nat || (code c =? 10)%nat || (code c =? 12)%nat
  || (code c =? 13)%nat || (code c =? 32)%nat.

(** The class [[a-zA-Z0-9\s\-_.]]. *)
Definition allowedClass (c : ascii) : bool :=
  between 97 122 c || between 65 90 c || between 48 57 c || re_space c
  || Ascii.eqb c "-" || Ascii.eqb c "_" || Ascii.eqb c ".".

Fixpoint all_bytes (cls : ascii -> bool) (s : string) : bool :=
  match s with
  | EmptyString => true
  | String c r => cls c && all_bytes cls r
  end.

(** [regexp.MustCompile(`^[a-zA-Z0-9\s\-_.]+$`).MatchString]: one byte or
    more, each in the class.  A byte above 0x7F belongs to a rune outside
    the class (or to no rune at all), so a match consists of ASCII bytes. *)
Definition allowedChars_MatchString (s : string) : bool :=
  match s with
  | EmptyString => false
  | _ => all_bytes allowedClass s
  end.

Record NameValidator := {
  maxLength : Z;
  allowedChars : string -> bool;
  reservedNames : list string;
  caseSensitive : bool
}.

Definition NewNameValidator : NameValidator := {|
  maxLength := 100;
  allowedChars := allowedChars_MatchString;
  reservedNames :=
    ["CON"; "PRN"; "AUX"; "NUL"; "COM1"; "COM2"; "COM3"; "COM4"; "COM5";
     "COM6"; "COM7"; "COM8"; "COM9"; "LPT1"; "LPT2"; "LPT3"; "LPT4"; "LPT5";
     "LPT6"; "LPT7"; "LPT8"; "LPT9"];
  caseSensitive := false
|}.

(** The loop over [reservedNames]. *)
Fixpoint is_reserved (checkName : string) (reserved : list string) : bool :=
  match reserved with
  | [] => false
  | r :: rest => if eqb checkName r then true else is_reserved checkName rest
  end.

(** [ValidateName]; [None] is the nil error. *)
Definition ValidateName (nv : NameValidator) (name : string) : option ValidationError :=
  if eqb name "" then
    Some (NewValidationError "name" name "name cannot be empty")
  else if (maxLength nv <? Z.of_nat (String.length name))%Z then
    Some (NewValidationError "name" name
            ("name length exceeds maximum of " +:+ itoa (Z.to_nat (maxLength nv))
             +:+ " characters"))
  else if negb (allowedChars nv name) then
    Some (NewValidationError "name" name
            "name contains invalid characters. Only letters, numbers, spaces, hyphens, underscores, and dots are allowed")
  else if negb (eqb (TrimSpace name) name) then
    Some (NewValidationError "name" name "name cannot have leading or trailing whitespace")
  else
    let checkName := if caseSensitive nv then name else ToUpper name in
    if is_reserved checkName (reservedNames nv) then
      Some (NewValidationError "name" name
              ("'" +:+ name +:+ "' is a reserved name and cannot be used"))
    else if Contains name "  " then
      Some (NewValidationError "name" name "name cannot contain consecutive spaces")
    else None.

(** *** The validator as section 4.10 words it *)

(** The class [[A-Z a-z 0-9 space . _ -]]. *)
Definition specClass (c : ascii) : bool :=
  between 65 90 c || between 97 122 c || between 48 57 c
  || Ascii.eqb c " " || Ascii.eqb c "." || Ascii.eqb c "_" || Ascii.eqb c "-".

Definition first_byte (s : string) : option ascii :=
  match s with String c _ => Some c | EmptyString => None end.

Fixpoint last_byte (s : string) : option ascii :=
  match s with
  | EmptyString => None
  | String c EmptyString => Some c
  | String _ r => last_byte r
  end.

Definition is_space_byte (o : option ascii) : bool :=
  match o with Some c => isSpace c | None => false end.

Definition spec_reserved : list string :=
  ["CON"; "PRN"; "AUX"; "NUL"]
  ++ map (fun d => "COM" +:+ String d "") ["1"; "2"; "3"; "4"; "5"; "6"; "7"; "8"; "9"]%char
  ++ map (fun d => "LPT" +:+ String d "") ["1"; "2"; "3"; "4"; "5"; "6"; "7"; "8"; "9"]%char.

(** A name is refused when it is empty, longer than 100, has a byte outside
    the class, has leading or trailing whitespace, has two consecutive
    spaces, or is reserved in upper case; every other name is accepted. *)
Definition spec_refuses (name : string) : bool :=
  eqb name ""
  || (100 <? String.length name)%nat
  || negb (all_bytes specClass name)
  || is_space_byte (first_byte name) || is_space_byte (last_byte name)
  || Contains name "  "
  || bool_decide (ToUpper name ∈ spec_reserved).

End Validation.

(* ===================================================================== *)
(** ** internal/config/models.go: the registry and the path resolver     *)
(* ===================================================================== *)

Module Config.
Import Strs.

Record LocalConfig := {
  CloudSyncDir : string;
  CurrentComputer : string;
  LastSyncTimes : gmap string string;
  GitMode : bool;
  GitRepoRoot : string
}.

Record SyncItem := {
  Name : string;
  Type_ : string;                       (* "file" or "folder" *)
  Paths : gmap string string;           (* computerID -> path *)
  ExcludePatterns : list string
}.

Record SyncItemsData := { SyncItems : list SyncItem }.

Definition NewSyncItemsData : SyncItemsData := {| SyncItems := [] |}.

Definition GetSyncItemsPath (c : LocalConfig) : string :=
  Path.Join [CloudSyncDir c; "sync-items.json"].
Definition GetFileMetadataPath (c : LocalConfig) : string :=
  Path.Join [CloudSyncDir c; "file-metadata.json"].
Definition GetCloudConfigsPath (c : LocalConfig) : string :=
  Path.Join [CloudSyncDir c; "configs"].

(** The duplicate-name loop of [AddSyncItem]. *)
Fixpoint has_name (name : string) (items : list SyncItem) : bool :=
  match items with
  | [] => false
  | item :: rest => if eqb (Name item) name then true else has_name name rest
  end.

(** [AddSyncItem]: an error, or the registry with the item appended. *)
Definition AddSyncItem (s : SyncItemsData) (name itemType : string)
    (paths : gmap string string) (excludePatterns : list string)
  : string + SyncItemsData :=
  if has_name name (SyncItems s) then
    inl ("sync item with name '" +:+ name +:+ "' already exists")
  else
    inr {| SyncItems := SyncItems s ++
             [{| Name := name; Type_ := itemType; Paths := paths;
                 ExcludePatterns := excludePatterns |}] |}.

Fixpoint FindSyncItem (items : list SyncItem) (name : string) : option SyncItem :=
  match items with
  | [] => None
  | item :: rest => if eqb (Name item) name then Some item else FindSyncItem rest name
  end.

(** The two [ReplaceAll] lines of [GetCloudPath]: the slug of a name. *)
Definition safeName (name : string) : string :=
  ReplaceAll (ReplaceAll name " " "-") "/" "-".

Definition GetCloudPath (item : SyncItem) (cloudConfigsPath : string) : string :=
  Path.Join [cloudConfigsPath; safeName (Name item)].

End Config.

(* ===================================================================== *)
(** ** Results and errors                                                *)
(* ===================================================================== *)

(** A Go call that returns [(T, error)]: the value, or the error's text. *)
Inductive res (A : Type) : Type :=
| Ok (a : A)
| Err (msg : string).
Arguments Ok {A} a.
Arguments Err {A} msg.

Definition bind {A B : Type} (r : res A) (k : A -> res B) : res B :=
  match r with
  | Ok a => k a
  | Err e => Err e
  end.

Notation "'do' x <- r ; k" := (bind r (fun x => k))
  (at level 10, x name, r at level 100, k at level 200).

Definition is_ok {A : Type} (r : res A) : bool :=
  match r with Ok _ => true | Err _ => false end.

(* ===================================================================== *)
(** ** The file system as [os] shows it                                  *)
(* ===================================================================== *)

(** A flat name space: a path names a regular file or a directory.  A call
    fails only for the reason the state gives (a missing path, a regular
    file or a directory in the way); the packages that handle transient
    faults model them on top, see [Atomic.Faults]. *)
Module FS.
Local Open Scope Z_scope.

Record File := {
  data : string;        (* the bytes; empty for a directory *)
  modTime : Z;
  perm : Z;
  isDir : bool
}.

(** [os.FileInfo]. *)
Record FileInfo := { Size : Z; ModTime : Z; Mode : Z; IsDir : bool }.

Definition info (f : File) : FileInfo :=
  {| Size := Z.of_nat (String.length (data f)); ModTime := modTime f;
     Mode := perm f; IsDir := isDir f |}.

Definition regular (bytes : string) (now mode : Z) : File :=
  {| data := bytes; modTime := now; perm := mode; isDir := false |}.

Definition directory (now mode : Z) : File :=
  {| data := EmptyString; modTime := now; perm := mode; isDir := true |}.

(** The walk from [name] towards the root meets a regular file before it
    meets a directory: [name] lies below a regular file.  [fuel] bounds the
    walk. *)
Fixpoint below_file_go (fuel : nat) (fs : gmap string File) (name : string) : bool :=
  match fuel with
  | O => false
  | S n =>
      let parent := Path.Dir name in
      if Strs.eqb parent name then false
      else
        match fs !! parent with
        | Some f => negb (isDir f)
        | None => below_file_go n fs parent
        end
  end.

Definition below_file (fs : gmap string File) (name : string) : bool :=
  below_file_go (String.length name) fs name.

(** The error of a lookup of a path that is not there: ENOTDIR below a
    regular file, ENOENT otherwise. *)
Definition errno (fs : gmap string File) (name : string) : string :=
  if below_file fs name then "not a directory" else "no such file or directory".

Definition missing (fs : gmap string File) (op name : string) : string :=
  op +:+ " " +:+ name +:+ ": " +:+ errno fs name.

(** [os.Stat]. *)
Definition Stat (fs : gmap string File) (name : string) : res FileInfo :=
  match fs !! name with
  | Some f => Ok (info f)
  | None => Err (missing fs "stat" name)
  end.

(** [config.PathExists]: [!os.IsNotExist(err)] of [os.Stat].  A path below
    a regular file exists for it: the error of [os.Stat] is ENOTDIR. *)
Definition PathExists (fs : gmap string File) (name : string) : bool :=
  match fs !! name with
  | Some _ => true
  | None => below_file fs name
  end.

(** [os.Open]: the file behind the handle. *)
Definition Open (fs : gmap string File) (name : string) : res File :=
  match fs !! name with
  | Some f => Ok f
  | None => Err (missing fs "open" name)
  end.

Definition is_dir (fs : gmap string File) (name : string) : bool :=
  match fs !! name with Some f => isDir f | None => false end.

(** [os.MkdirAll]: the directory and its missing parents; an error when a
    regular file is in the way.  [fuel] bounds the walk to the root. *)
Fixpoint MkdirAll_go (fuel : nat) (fs : gmap string File) (now : Z)
    (path : string) (mode : Z) : res (gmap string File) :=
  match fs !! path with
  | Some f => if isDir f then Ok fs else Err ("mkdir " +:+ path +:+ ": not a directory")
  | None =>
      match fuel with
      | O => Ok (<[path := directory now mode]> fs)
      | S n =>
          let parent := Path.Dir path in
          if Strs.eqb parent path then Ok (<[path := directory now mode]> fs)
          else
            do fs' <- MkdirAll_go n fs now parent mode;
            Ok (<[path := directory now mode]> fs')
      end
  end.

Definition MkdirAll (fs : gmap string File) (now : Z) (path : string) (mode : Z)
  : res (gmap string File) :=
  MkdirAll_go (String.length path) fs now path mode.

(** [os.Create]: [O_RDWR|O_CREATE|O_TRUNC], mode 0666. *)
Definition Create (fs : gmap string File) (now : Z) (name : string)
  : res (gmap string File) :=
  match fs !! name with
  | Some f =>
      if isDir f then Err ("open " +:+ name +:+ ": is a directory")
      else Ok (<[name := regular EmptyString now (perm f)]> fs)
  | None =>
      if is_dir fs (Path.Dir name) then Ok (<[name := regular EmptyString now 438]> fs)
      else Err (missing fs "open" name)
  end.

(** [os.OpenFile(name, O_WRONLY|O_CREATE|O_EXCL, mode)]. *)
Definition OpenExcl (fs : gmap string File) (now : Z) (name : string) (mode : Z)
  : res (gmap string File) :=
  match fs !! name with
  | Some _ => Err ("open " +:+ name +:+ ": file exists")
  | None =>
      if is_dir fs (Path.Dir name) then Ok (<[name := regular EmptyString now mode]> fs)
      else Err (missing fs "open" name)
  end.

(** [File.Write] at the end of the file opened at [name]. *)
Definition Append (fs : gmap string File) (now : Z) (name bytes : string)
  : res (gmap string File) :=
  match fs !! name with
  | Some f =>
      if isDir f then Err ("write " +:+ name +:+ ": is a directory")
      else Ok (<[name := regular (data f +:+ bytes) now (perm f)]> fs)
  | None => Err ("write " +:+ name +:+ ": file already closed")
  end.

(** [os.Open] and a read to the end of the file. *)
Definition ReadAll (fs : gmap string File) (name : string) : res string :=
  match fs !! name with
  | Some f =>
      if isDir f then Err ("read " +:+ name +:+ ": is a directory") else Ok (data f)
  | None => Err (missing fs "open" name)
  end.

(** What a reader of [name] gets: the bytes of a regular file, or nothing. *)
Definition contents (fs : gmap string File) (name : string) : option string :=
  match fs !! name with
  | Some f => if isDir f then None else Some (data f)
  | None => None
  end.

(** [os.Chmod]. *)
Definition Chmod (fs : gmap string File) (name : string) (mode : Z)
  : res (gmap string File) :=
  match fs !! name with
  | Some f =>
      Ok (<[name := {| data := data f; modTime := modTime f; perm := mode;
                       isDir := isDir f |}]> fs)
  | None => Err (missing fs "chmod" name)
  end.

(** [os.Remove] of a file. *)
Definition Remove (fs : gmap string File) (name : string) : res (gmap string File) :=
  match fs !! name with
  | Some _ => Ok (delete name fs)
  | None => Err (missing fs "remove" name)
  end.

(** [os.Rename] of a file: the new path gets the old file in one step. *)
Definition Rename (fs : gmap string File) (oldpath newpath : string)
  : res (gmap string File) :=
  match fs !! oldpath with
  | Some f =>
      if is_dir fs newpath && negb (isDir f)
      then Err ("rename " +:+ oldpath +:+ " " +:+ newpath +:+ ": file exists")
      else Ok (<[newpath := f]> (delete oldpath fs))
  | None => Err ("rename " +:+ oldpath +:+ " " +:+ newpath +:+ ": " +:+ errno fs oldpath)
  end.

(** [os.ReadDir]: the entries of a directory, sorted by name, each with its
    directory flag. *)
Definition ReadDir (fs : gmap string File) (name : string) : res (list (string * bool)) :=
  match fs !! name with
  | None => Err (missing fs "open" name)
  | Some f =>
      if isDir f then
        Ok (merge_sort (fun a b => String.le a.1 b.1)
              ((fun kv => (Path.Base kv.1, isDir kv.2)) <$>
               filter (fun kv => Path.Dir kv.1 = name /\ kv.1 <> name) (map_to_list fs)))
      else Err ("readdirent " +:+ name +:+ ": not a directory")
  end.

End FS.

(* ===================================================================== *)
(** ** [time]                                                            *)
(* ===================================================================== *)

Module Time.
Local Open Scope Z_scope.

Definition maxDuration : Z := 9223372036854775807.
Definition minDuration : Z := -9223372036854775808.

(** [t.Sub(u)]: the difference as a [Duration], an int64 of nanoseconds; out
    of range it is the largest (or smallest) duration. *)
Definition Sub (t u : Z) : Z :=
  let d := t - u in
  if maxDuration <? d then maxDuration
  else if d <? minDuration then minDuration
  else d.

(** [time.Since(t)] when the clock reads [now]. *)
Definition Since (now t : Z) : Z := Sub now t.

(** [t.Format(time.RFC3339)]: the instant to the second.  The documents keep
    the formatted text; the model keeps the second it denotes. *)
Definition RFC3339 (t : Z) : Z := t / 1000000000.

End Time.

(* ===================================================================== *)
(** ** config.CalculateFileHash                                          *)
(* ===================================================================== *)

Module Hash.

(** [fmt.Sprintf("sha256:%x", hash.Sum(nil))] over the bytes of the file. *)
Definition of_bytes (bytes : string) : string := "sha256:" +:+ SHA256.hex bytes.

Definition CalculateFileHash (fs : gmap string FS.File) (filePath : string) : res string :=
  do bytes <- FS.ReadAll fs filePath;
  Ok (of_bytes bytes).

End Hash.

(* ===================================================================== *)
(** ** internal/cache: the hash cache                                    *)
(* ===================================================================== *)

(** The mutex of [HashCache] serialises the calls; the model is one call at
    a time. *)
Module Cache.
Local Open Scope Z_scope.

Record HashCacheEntry := {
  Hash : string;
  Size : Z;
  ModTime : Z;
  CachedAt : Z
}.

Record HashCache := {
  entries : gmap string HashCacheEntry;
  maxAge : Z
}.

Definition NewHashCache (maxAge : Z) : HashCache :=
  {| entries := ∅; maxAge := maxAge |}.

(** [Get]; [now] is what [time.Since] reads off the clock. *)
Definition Get (hc : HashCache) (now : Z) (fs : gmap string FS.File)
    (filePath : string) : string * bool :=
  match entries hc !! filePath with
  | None => (EmptyString, false)
  | Some entry =>
      if maxAge hc <? Time.Since now (CachedAt entry) then (EmptyString, false)
      else
        match FS.Stat fs filePath with
        | Err _ => (EmptyString, false)
        | Ok fileInfo =>
            if negb (FS.Size fileInfo =? Size entry)
               || negb (FS.ModTime fileInfo =? ModTime entry)
            then (EmptyString, false)
            else (Hash entry, true)
        end
  end.

(** [Set]; [now] is the [time.Now()] it stamps the entry with. *)
Definition Set_ (hc : HashCache) (now : Z) (filePath hash : string)
    (size modTime : Z) : HashCache :=
  {| entries := <[filePath := {| Hash := hash; Size := size; ModTime := modTime;
                                 CachedAt := now |}]> (entries hc);
     maxAge := maxAge hc |}.

Definition calculateFileHash (fs : gmap string FS.File) (filePath : string) : res string :=
  do bytes <- FS.ReadAll fs filePath;
  Ok (Hash.of_bytes bytes).

(** [GetOrCalculate]: the result and the cache afterwards.  [now] is the
    clock at the validity check, [stamp] the clock when the entry is stored. *)
Definition GetOrCalculate (hc : HashCache) (now stamp : Z)
    (fs : gmap string FS.File) (filePath : string) : res string * HashCache :=
  match Get hc now fs filePath with
  | (cachedHash, true) => (Ok cachedHash, hc)
  | (_, false) =>
      match calculateFileHash fs filePath with
      | Err e => (Err e, hc)
      | Ok hash =>
          match FS.Stat fs filePath with
          | Err e => (Err e, hc)
          | Ok fileInfo =>
              (Ok hash,
               Set_ hc stamp filePath hash (FS.Size fileInfo) (FS.ModTime fileInfo))
          end
      end
  end.

Definition Remove (hc : HashCache) (filePath : string) : HashCache :=
  {| entries := delete filePath (entries hc); maxAge := maxAge hc |}.

Definition Clear (hc : HashCache) : HashCache :=
  {| entries := ∅; maxAge := maxAge hc |}.

(** [CleanExpired]: the cache without its expired entries. *)
Definition CleanExpired (hc : HashCache) (now : Z) : HashCache :=
  {| entries := filter (fun kv => negb (maxAge hc <? Time.Sub now (CachedAt kv.2)) = true)
                       (entries hc);
     maxAge := maxAge hc |}.

(** *** The validity predicate of the data model *)

(** The age is at most [max_age], and the file's stat gives the recorded
    size and the recorded mtime. *)
Definition entry_valid (hc : HashCache) (now : Z) (fs : gmap string FS.File)
    (filePath : string) (entry : HashCacheEntry) : Prop :=
  Time.Since now (CachedAt entry) <= maxAge hc
  /\ exists fileInfo, FS.Stat fs filePath = Ok fileInfo
       /\ FS.Size fileInfo = Size entry
       /\ FS.ModTime fileInfo = ModTime entry.

(** [Size]: the number of entries. *)
Definition HashCache_Size (hc : HashCache) : nat := size (entries hc).

(** The count [CleanExpired] returns: the entries it deletes. *)
Definition CleanExpired_removed (hc : HashCache) (now : Z) : nat :=
  size (filter (fun kv => (maxAge hc <? Time.Sub now (CachedAt kv.2)) = true)
               (entries hc)).

(** [Invalidate]: the count it returns and the cache it leaves. *)
Fixpoint Invalidate (hc : HashCache) (fs : gmap string FS.File) (filePaths : list string)
  : nat * HashCache :=
  match filePaths with
  | [] => (O, hc)
  | filePath :: rest =>
      match entries hc !! filePath with
      | Some entry =>
          let changed :=
            match FS.Stat fs filePath with
            | Err _ => true
            | Ok fileInfo =>
                negb (FS.Size fileInfo =? Size entry)
                || negb (FS.ModTime fileInfo =? ModTime entry)
            end in
          if changed then
            let '(invalidated, hc') := Invalidate (Remove hc filePath) fs rest in
            (S invalidated, hc')
          else Invalidate hc fs rest
      | None => Invalidate hc fs rest
      end
  end.

(** [GetKeys]: the cached paths, in no order the caller can rely on. *)
Definition GetKeys (hc : HashCache) : list string := (map_to_list (entries hc)).*1.

End Cache.

(* ===================================================================== *)
(** ** internal/errors                                                   *)
(* ===================================================================== *)

Module Errors.

Definition ErrCodeFileNotFound : string := "FILE_NOT_FOUND".
Definition ErrCodeHashMismatch : string := "HASH_MISMATCH".
Definition ErrCodeConfigLoad : string := "CONFIG_LOAD".
Definition ErrCodeConfigSave : string := "CONFIG_SAVE".
Definition ErrCodeIOError : string := "IO_ERROR".
Definition ErrCodeInternal : string := "INTERNAL".

Definition part (label value : string) : list string :=
  if Strs.eqb value "" then [] else [label +:+ value].

(** [NewSyncError(...).Error()]. *)
Definition NewSyncError (operation itemName filePath cause code : string) : string :=
  "sync error [" +:+ code +:+ "]: "
  +:+ Strs.Join (part "operation: " operation ++ part "item: " itemName
                 ++ part "path: " filePath ++ ["cause: " +:+ cause]) ", ".

Definition ErrCodePermissionDenied : string := "PERMISSION_DENIED".

(** The errors of the package as values: its four types, an error that
    wraps another ([fmt.Errorf] with [%w]), and any other error, known by
    its text. *)
#[warnings="-register-all"]
Inductive error : Type :=
| SyncError (Operation ItemName FilePath : string) (Cause : option error) (Code : string)
| ConfigError (ConfigType FilePath : string) (Cause : option error) (Code : string)
| ValidationError (Field Value Message : string)
| ConflictError (ItemName LocalPath CloudPath LocalHash CloudHash ConflictType : string)
| Wrapped (message : string) (err : error)
| Other (text : string).

(** The method [Error] of each. *)
Fixpoint Error (e : error) : string :=
  match e with
  | SyncError operation itemName filePath cause code =>
      "sync error [" +:+ code +:+ "]: "
      +:+ Strs.Join (part "operation: " operation ++ part "item: " itemName
                     ++ part "path: " filePath
                     ++ match cause with
                        | Some c => ["cause: " +:+ Error c]
                        | None => []
                        end) ", "
  | ConfigError configType filePath cause code =>
      "config error [" +:+ code +:+ "]: " +:+ configType +:+ " at " +:+ filePath +:+ ": "
      +:+ match cause with Some c => Error c | None => "<nil>" end
  | ValidationError field value message =>
      "validation error: " +:+ message +:+ " (field: " +:+ field +:+ ", value: "
      +:+ value +:+ ")"
  | ConflictError itemName localPath cloudPath _ _ conflictType =>
      "conflict error [" +:+ conflictType +:+ "]: item '" +:+ itemName
      +:+ "' has conflicts between local (" +:+ localPath +:+ ") and cloud ("
      +:+ cloudPath +:+ ")"
  | Wrapped message err => message +:+ ": " +:+ Error err
  | Other text => text
  end.

(** [Unwrap], where the type has one. *)
Definition Unwrap (e : error) : option error :=
  match e with
  | SyncError _ _ _ cause _ => cause
  | ConfigError _ _ cause _ => cause
  | Wrapped _ err => Some err
  | _ => None
  end.

(** [As] with a target of each of the four types: a type assertion on the
    error itself. *)
Definition As_SyncError (err : option error) : option error :=
  match err with Some (SyncError o i p c k) => Some (SyncError o i p c k) | _ => None end.
Definition As_ConfigError (err : option error) : option error :=
  match err with Some (ConfigError t p c k) => Some (ConfigError t p c k) | _ => None end.
Definition As_ValidationError (err : option error) : option error :=
  match err with Some (ValidationError f v m) => Some (ValidationError f v m) | _ => None end.
Definition As_ConflictError (err : option error) : option error :=
  match err with
  | Some (ConflictError i l c lh ch t) => Some (ConflictError i l c lh ch t)
  | _ => None
  end.

Definition IsFileNotFoundError (err : option error) : bool :=
  match As_SyncError err with
  | Some (SyncError _ _ _ _ code) => Strs.eqb code ErrCodeFileNotFound
  | _ => false
  end.

Definition IsPermissionError (err : option error) : bool :=
  match As_SyncError err with
  | Some (SyncError _ _ _ _ code) => Strs.eqb code ErrCodePermissionDenied
  | _ => false
  end.

Definition IsConflictError (err : option error) : bool :=
  match As_ConflictError err with Some _ => true | None => false end.
Definition IsConfigError (err : option error) : bool :=
  match As_ConfigError err with Some _ => true | None => false end.
Definition IsValidationError (err : option error) : bool :=
  match As_ValidationError err with Some _ => true | None => false end.

(** [Wrap]. *)
Definition Wrap (err : option error) (message : string) : option error :=
  match err with
  | None => None
  | Some e => Some (Wrapped message e)
  end.

(** [ErrorCollector]. *)
Record ErrorCollector := { errors : list error }.

Definition NewErrorCollector : ErrorCollector := {| errors := [] |}.

Definition Add (ec : ErrorCollector) (err : option error) : ErrorCollector :=
  match err with
  | Some e => {| errors := errors ec ++ [e] |}
  | None => ec
  end.

Definition HasErrors (ec : ErrorCollector) : bool := (0 <? length (errors ec))%nat.
Definition Count (ec : ErrorCollector) : nat := length (errors ec).

(** The numbered messages of [ErrorCollector.Error], from [i] on. *)
Fixpoint messages (i : nat) (errs : list error) : list string :=
  match errs with
  | [] => []
  | e :: rest => (Strs.itoa i +:+ ": " +:+ Error e) :: messages (S i) rest
  end.

Definition ErrorCollector_Error (ec : ErrorCollector) : string :=
  match errors ec with
  | [] => "no errors"
  | [e] => Error e
  | errs =>
      "multiple errors (" +:+ Strs.itoa (length errs) +:+ "): "
      +:+ Strs.Join (messages 1 errs) "; "
  end.

End Errors.

(* ===================================================================== *)
(** ** internal/atomic: the temp-then-rename writer                      *)
(* ===================================================================== *)

Module Atomic.
Local Open Scope Z_scope.

(** The calls of one write that the operating system may fail for reasons
    of its own (a full disk, an I/O error, a read-only mount). *)
Record Faults := {
  fail_mkdir : bool;
  fail_open : bool;
  fail_write : option nat;   (* the bytes that got through before the error *)
  fail_sync : bool;
  fail_close : bool;
  fail_rename : bool;
  fail_remove : bool
}.

Definition no_faults : Faults :=
  {| fail_mkdir := false; fail_open := false; fail_write := None;
     fail_sync := false; fail_close := false; fail_rename := false;
     fail_remove := false |}.

(** What [rand.Read] gave: eight bytes, or an error. *)
Inductive Entropy :=
| Random (suffix : list Z)
| NoRandom.

(** The files, the clock, and every state the files went through during the
    call, newest first: what another reader could have seen. *)
Record Sys := {
  files : gmap string FS.File;
  clock : Z;
  seen : list (gmap string FS.File)
}.

Definition start (fs : gmap string FS.File) (now : Z) : Sys :=
  {| files := fs; clock := now; seen := [] |}.

(** One system call on the files. *)
Definition sys (s : Sys) (r : res (gmap string FS.File)) : res unit * Sys :=
  match r with
  | Ok fs' => (Ok tt, {| files := fs'; clock := clock s; seen := fs' :: seen s |})
  | Err e => (Err e, s)
  end.

Record FileWriter := {
  targetPath : string;
  tempPath : string;
  tempFile : bool;          (* false is the nil handle *)
  committed : bool;
  permissions : Z
}.

(** [%x] of a byte slice. *)
Fixpoint hex_bytes (bs : list Z) : string :=
  match bs with
  | [] => EmptyString
  | b :: r =>
      String (SHA256.hexdigit ((b / 16) mod 16))
        (String (SHA256.hexdigit (b mod 16)) (hex_bytes r))
  end.

Definition suffix_of (e : Entropy) (now : Z) : string :=
  match e with
  | Random bs => hex_bytes bs
  | NoRandom => Strs.itoaZ now
  end.

(** [generateTempPath]: a dot file next to the target; it has no error case. *)
Definition generateTempPath (e : Entropy) (now : Z) (targetPath : string) : string :=
  let dir := Path.Dir targetPath in
  let name := Path.Base targetPath in
  Path.Join [dir; "." +:+ name +:+ ".tmp." +:+ suffix_of e now].

Definition atomic_write_error (fw_target cause code : string) : string :=
  Errors.NewSyncError "atomic_write" "" fw_target cause code.

Definition faulty (flag : bool) (what : string) (r : res (gmap string FS.File))
  : res (gmap string FS.File) :=
  if flag then Err (what +:+ ": input/output error") else r.

(** [NewFileWriter]. *)
Definition NewFileWriter (ft : Faults) (e : Entropy) (s : Sys)
    (target : string) (mode : Z) : res FileWriter * Sys :=
  let temp := generateTempPath e (clock s) target in
  let targetDir := Path.Dir target in
  match sys s (faulty (fail_mkdir ft) "mkdir" (FS.MkdirAll (files s) (clock s) targetDir 493)) with
  | (Err err, s1) =>
      (Err (atomic_write_error target ("failed to create target directory: " +:+ err)
              Errors.ErrCodeIOError), s1)
  | (Ok _, s1) =>
      match sys s1 (faulty (fail_open ft) "open" (FS.OpenExcl (files s1) (clock s1) temp mode)) with
      | (Err err, s2) =>
          (Err (atomic_write_error target ("failed to create temporary file: " +:+ err)
                  Errors.ErrCodeIOError), s2)
      | (Ok _, s2) =>
          (Ok {| targetPath := target; tempPath := temp; tempFile := true;
                 committed := false; permissions := mode |}, s2)
      end
  end.

Definition writer_closed (fw : FileWriter) : string :=
  atomic_write_error (targetPath fw) "file writer is closed" Errors.ErrCodeIOError.

(** [Write]: the bytes go to the temporary file; a failing write may leave a
    part of them there. *)
Definition Write (ft : Faults) (fw : FileWriter) (s : Sys) (bytes : string)
  : res nat * Sys :=
  if negb (tempFile fw) then (Err (writer_closed fw), s)
  else
    match fail_write ft with
    | Some n =>
        let part := Strs.slice bytes 0 n in
        let '(_, s1) := sys s (FS.Append (files s) (clock s) (tempPath fw) part) in
        (Err (atomic_write_error (targetPath fw)
                "failed to write to temporary file: input/output error"
                Errors.ErrCodeIOError), s1)
    | None =>
        match sys s (FS.Append (files s) (clock s) (tempPath fw) bytes) with
        | (Ok _, s1) => (Ok (String.length bytes), s1)
        | (Err err, s1) =>
            (Err (atomic_write_error (targetPath fw)
                    ("failed to write to temporary file: " +:+ err)
                    Errors.ErrCodeIOError), s1)
        end
    end.

(** [Rollback]: close the handle, remove the temporary file; a missing file
    is not an error. *)
Definition Rollback (ft : Faults) (fw : FileWriter) (s : Sys)
  : res unit * FileWriter * Sys :=
  let fw1 := {| targetPath := targetPath fw; tempPath := tempPath fw;
                tempFile := false; committed := committed fw;
                permissions := permissions fw |} in
  if Strs.eqb (tempPath fw) "" then (Ok tt, fw1, s)
  else if fail_remove ft then
    (Err (atomic_write_error (targetPath fw)
            "failed to remove temporary file: remove: input/output error"
            Errors.ErrCodeIOError), fw1, s)
  else
    match sys s (FS.Remove (files s) (tempPath fw)) with
    | (_, s1) => (Ok tt, fw1, s1)      (* os.IsNotExist(err) is let through *)
    end.

(** [Commit]. *)
Definition Commit (ft : Faults) (fw : FileWriter) (s : Sys)
  : res unit * FileWriter * Sys :=
  if committed fw then
    (Err (atomic_write_error (targetPath fw) "file already committed"
            Errors.ErrCodeInternal), fw, s)
  else if negb (tempFile fw) then (Err (writer_closed fw), fw, s)
  else if fail_sync ft then
    let '(_, fw1, s1) := Rollback ft fw s in
    (Err (atomic_write_error (targetPath fw)
            "failed to sync temporary file: sync: input/output error"
            Errors.ErrCodeIOError), fw1, s1)
  else if fail_close ft then
    let '(_, fw1, s1) := Rollback ft fw s in
    (Err (atomic_write_error (targetPath fw)
            "failed to close temporary file: close: input/output error"
            Errors.ErrCodeIOError), fw1, s1)
  else
    let fw1 := {| targetPath := targetPath fw; tempPath := tempPath fw;
                  tempFile := false; committed := false;
                  permissions := permissions fw |} in
    match sys s (faulty (fail_rename ft) "rename"
                   (FS.Rename (files s) (tempPath fw) (targetPath fw))) with
    | (Err err, s1) =>
        (* os.Remove(fw.tempPath), its error dropped *)
        let s2 := if fail_remove ft then s1
                  else snd (sys s1 (FS.Remove (files s1) (tempPath fw))) in
        (Err (atomic_write_error (targetPath fw)
                ("failed to move temporary file to target: " +:+ err)
                Errors.ErrCodeIOError), fw1, s2)
    | (Ok _, s1) =>
        (Ok tt,
         {| targetPath := targetPath fw; tempPath := tempPath fw;
            tempFile := false; committed := true;
            permissions := permissions fw |}, s1)
    end.

(** [Close]: a rollback unless committed. *)
Definition Close (ft : Faults) (fw : FileWriter) (s : Sys)
  : res unit * FileWriter * Sys :=
  if negb (committed fw) then Rollback ft fw s else (Ok tt, fw, s).

(** [WriteFileAtomic]; the deferred [writer.Close()] runs on every return
    after the writer exists. *)
Definition WriteFileAtomic (ft : Faults) (e : Entropy) (s : Sys)
    (target bytes : string) (mode : Z) : res unit * Sys :=
  match NewFileWriter ft e s target mode with
  | (Err err, s1) => (Err err, s1)
  | (Ok writer, s1) =>
      match Write ft writer s1 bytes with
      | (Err err, s2) =>
          let '(_, _, s3) := Close ft writer s2 in (Err err, s3)
      | (Ok _, s2) =>
          let '(r, writer', s3) := Commit ft writer s2 in
          let '(_, _, s4) := Close ft writer' s3 in (r, s4)
      end
  end.

(** The buffer of [io.Copy]. *)
Definition copy_buffer : nat := 32 * 1024.

(** The write loop of [io.Copy] into the open file [name]: one buffer after
    the other.  [fuel] is the number of bytes left, at least. *)
Fixpoint copy_chunks (fuel : nat) (s : Sys) (name bytes : string) : res unit * Sys :=
  match fuel with
  | O => (Ok tt, s)
  | S n =>
      if Strs.eqb bytes "" then (Ok tt, s)
      else
        match sys s (FS.Append (files s) (clock s) name (Strs.take copy_buffer bytes)) with
        | (Err e, s1) => (Err e, s1)
        | (Ok _, s1) => copy_chunks n s1 name (Strs.drop copy_buffer bytes)
        end
  end.

(** [CopyFrom]: the bytes of the file open at [src] go to the temporary
    file; a failing write may leave a part of them there. *)
Definition CopyFrom (ft : Faults) (fw : FileWriter) (s : Sys) (src : string)
  : res nat * Sys :=
  if negb (tempFile fw) then (Err (writer_closed fw), s)
  else
    match FS.ReadAll (files s) src with
    | Err err =>
        (Err (atomic_write_error (targetPath fw)
                ("failed to copy to temporary file: " +:+ err) Errors.ErrCodeIOError), s)
    | Ok bytes =>
        match fail_write ft with
        | Some n =>
            let part := Strs.slice bytes 0 n in
            let '(_, s1) := sys s (FS.Append (files s) (clock s) (tempPath fw) part) in
            (Err (atomic_write_error (targetPath fw)
                    "failed to copy to temporary file: input/output error"
                    Errors.ErrCodeIOError), s1)
        | None =>
            match copy_chunks (String.length bytes) s (tempPath fw) bytes with
            | (Ok _, s1) => (Ok (String.length bytes), s1)
            | (Err err, s1) =>
                (Err (atomic_write_error (targetPath fw)
                        ("failed to copy to temporary file: " +:+ err)
                        Errors.ErrCodeIOError), s1)
            end
        end
    end.

(** [CopyFileAtomic]; the deferred [writer.Close()] runs on every return
    after the writer exists. *)
Definition CopyFileAtomic (ft : Faults) (e : Entropy) (s : Sys) (srcPath dstPath : string)
  : res unit * Sys :=
  match FS.Open (files s) srcPath with
  | Err err =>
      (Err (Errors.NewSyncError "atomic_copy" "" srcPath
              ("failed to open source file: " +:+ err) Errors.ErrCodeFileNotFound), s)
  | Ok srcFile =>
      let srcInfo := FS.info srcFile in
      match NewFileWriter ft e s dstPath (FS.Mode srcInfo) with
      | (Err err, s1) => (Err err, s1)
      | (Ok writer, s1) =>
          match CopyFrom ft writer s1 srcPath with
          | (Err err, s2) =>
              let '(_, _, s3) := Close ft writer s2 in (Err err, s3)
          | (Ok _, s2) =>
              let '(r, writer', s3) := Commit ft writer s2 in
              let '(_, _, s4) := Close ft writer' s3 in (r, s4)
          end
      end
  end.

End Atomic.

(* ===================================================================== *)
(** ** internal/config/models.go: file states and file metadata          *)
(* ===================================================================== *)

(** The json documents are kept as the values they decode to.  A time field
    holds the RFC 3339 text of an instant; the model keeps the instant to
    the second, [None] for the empty text. *)
Module Docs.
Import Config.
Local Open Scope Z_scope.

Record FileState := {
  LocalHash : string;
  ModTime : option Z;
  Size : Z;
  LastChecked : option Z
}.

Record FileStatesData := {
  States : gmap string (gmap string FileState)   (* item name -> file path -> state *)
}.

Record ComputerFileInfo := {
  Hash : string;
  CModTime : option Z
}.

Record FileMetadata := {
  Computers : gmap string ComputerFileInfo;
  CloudHash : string;
  CloudModTime : option Z;
  LastUpdated : option Z;
  UpdatedBy : string
}.

Record FileMetadataData := {
  Metadata : gmap string (gmap string FileMetadata)   (* item name -> file path -> metadata *)
}.

Definition NewFileStatesData : FileStatesData := {| States := ∅ |}.
Definition NewFileMetadataData : FileMetadataData := {| Metadata := ∅ |}.

(** [f.States[itemName]], the empty map when there is none. *)
Definition item_states (f : FileStatesData) (itemName : string) : gmap string FileState :=
  default ∅ (States f !! itemName).

Definition item_metadata (f : FileMetadataData) (itemName : string)
  : gmap string FileMetadata :=
  default ∅ (Metadata f !! itemName).

(** [UpdateFileState]; [now] is its [time.Now()]. *)
Definition UpdateFileState (f : FileStatesData) (now : Z)
    (itemName filePath hash : string) (modTime size : Z) : FileStatesData :=
  {| States :=
       <[itemName :=
           <[filePath := {| LocalHash := hash; ModTime := Some (Time.RFC3339 modTime);
                            Size := size; LastChecked := Some (Time.RFC3339 now) |}]>
             (item_states f itemName)]> (States f) |}.

Definition GetFileState (f : FileStatesData) (itemName filePath : string)
  : option FileState :=
  match States f !! itemName with
  | Some itemStates => itemStates !! filePath
  | None => None
  end.

(** The entry [&FileMetadata{Computers: make(...)}] made on first use. *)
Definition blank_metadata : FileMetadata :=
  {| Computers := ∅; CloudHash := EmptyString; CloudModTime := None;
     LastUpdated := None; UpdatedBy := EmptyString |}.

Definition file_metadata (f : FileMetadataData) (itemName filePath : string)
  : FileMetadata :=
  default blank_metadata (item_metadata f itemName !! filePath).

Definition put_metadata (f : FileMetadataData) (itemName filePath : string)
    (m : FileMetadata) : FileMetadataData :=
  {| Metadata := <[itemName := <[filePath := m]> (item_metadata f itemName)]> (Metadata f) |}.

(** [UpdateFileMetadata]. *)
Definition UpdateFileMetadata (f : FileMetadataData) (now : Z)
    (itemName filePath computerID hash : string) (modTime : Z) : FileMetadataData :=
  let metadata := file_metadata f itemName filePath in
  put_metadata f itemName filePath
    {| Computers := <[computerID := {| Hash := hash;
                                       CModTime := Some (Time.RFC3339 modTime) |}]>
                      (Computers metadata);
       CloudHash := CloudHash metadata;
       CloudModTime := CloudModTime metadata;
       LastUpdated := Some (Time.RFC3339 now);
       UpdatedBy := computerID |}.

Definition GetFileMetadata (f : FileMetadataData) (itemName filePath : string)
  : option FileMetadata :=
  match Metadata f !! itemName with
  | Some itemMetadata => itemMetadata !! filePath
  | None => None
  end.

(** What [os.UserHomeDir], [os.ExpandEnv] and [os.Getenv] give on this
    host. *)
Record Host := {
  UserHomeDir : res string;
  ExpandEnv : string -> string;
  Getenv : string -> string
}.

(** [ExpandPath]. *)
Definition ExpandPath (h : Host) (path : string) : string :=
  if Strs.HasPrefix path "~/" then
    match UserHomeDir h with
    | Err _ => path
    | Ok homeDir => Path.Join [homeDir; Strs.slice path 2 (String.length path)]
    end
  else ExpandEnv h path.

(** [GetCurrentComputerPath]. *)
Definition GetCurrentComputerPath (h : Host) (item : SyncItem) (computerID : string)
  : string :=
  match Paths item !! computerID with
  | Some path => ExpandPath h path
  | None => EmptyString
  end.

End Docs.

(* ===================================================================== *)
(** ** internal/sync/sync.go: push, pull and smart sync                  *)
(* ===================================================================== *)

Module Sync.
Import Config Docs.
Local Open Scope Z_scope.

(** A Go [error]: [None] is nil. *)
Definition error := option string.

Definition SyncPush : Z := 0.
Definition SyncPull : Z := 1.
Definition SyncSmart : Z := 2.

Record SyncResult := {
  Operation : Z;
  Success : bool;
  FilesChanged : Z;
  FilesSkipped : Z;
  FilesErrored : Z;
  Errors : list string;
  Message : string
}.

Definition new_result (op : Z) : SyncResult :=
  {| Operation := op; Success := true; FilesChanged := 0; FilesSkipped := 0;
     FilesErrored := 0; Errors := []; Message := EmptyString |}.

Definition add_error (r : SyncResult) (e : string) : SyncResult :=
  {| Operation := Operation r; Success := Success r; FilesChanged := FilesChanged r;
     FilesSkipped := FilesSkipped r; FilesErrored := FilesErrored r;
     Errors := Errors r ++ [e]; Message := Message r |}.

Definition warn (r : SyncResult) (what : string) (e : error) : SyncResult :=
  match e with
  | Some err => add_error r (what +:+ err)
  | None => r
  end.

Definition with_message (r : SyncResult) (m : string) : SyncResult :=
  {| Operation := Operation r; Success := Success r; FilesChanged := FilesChanged r;
     FilesSkipped := FilesSkipped r; FilesErrored := FilesErrored r;
     Errors := Errors r; Message := m |}.

Definition changed_one (r : SyncResult) : SyncResult :=
  {| Operation := Operation r; Success := Success r; FilesChanged := 1;
     FilesSkipped := FilesSkipped r; FilesErrored := FilesErrored r;
     Errors := Errors r; Message := Message r |}.

Definition skipped_one (r : SyncResult) : SyncResult :=
  {| Operation := Operation r; Success := Success r; FilesChanged := FilesChanged r;
     FilesSkipped := 1; FilesErrored := FilesErrored r;
     Errors := Errors r; Message := Message r |}.

(** What the engine works on: the files, the clock, the two documents it
    loads and saves, and every state the files went through, newest first.

    The two documents are files of the host as well: file-states.json at
    [fileStatesPath], and file-metadata.json at [cloudMetadataPath] (or a
    git note of the repository, see [in_git_notes]).  The world keeps them
    apart from [files], as the values they decode to: [files] and [seen]
    are the files other than the documents.  The documents always load and
    save: a save here changes [fileStates] or [cloudMetadata] where the
    code rewrites the file, and the engine's warnings for a document that
    does not load or save are not modelled. *)
Record World := {
  files : gmap string FS.File;
  clock : Z;
  fileStates : FileStatesData;
  cloudMetadata : FileMetadataData;
  seen : list (gmap string FS.File)
}.

(** One system call on the files. *)
Definition sys (w : World) (r : res (gmap string FS.File)) : error * World :=
  match r with
  | Ok fs' =>
      (None, {| files := fs'; clock := clock w; fileStates := fileStates w;
                cloudMetadata := cloudMetadata w; seen := fs' :: seen w |})
  | Err e => (Some e, w)
  end.

Definition GitOperationCallback : Type :=
  LocalConfig -> string -> string -> World -> error * World.

Definition GitSafeOperationCallback : Type :=
  LocalConfig -> string -> (World -> error * World) -> World -> error * World.

Record SyncEngine := {
  localConfig : LocalConfig;
  host : Host;
  fileStatesPath : string;
  cloudMetadataPath : string;
  gitCallback : option GitOperationCallback;
  gitSafeCallback : option GitSafeOperationCallback
}.

(** [getConfigDir]. *)
Definition getConfigDir (h : Host) : string :=
  if negb (Strs.eqb (Getenv h "XDG_CONFIG_HOME") "") then
    Path.Join [Getenv h "XDG_CONFIG_HOME"; "syncstation"]
  else Path.Join [Getenv h "HOME"; ".config"; "syncstation"].

Definition NewSyncEngine (c : LocalConfig) (h : Host) : SyncEngine :=
  {| localConfig := c; host := h;
     fileStatesPath := Path.Join [getConfigDir h; "file-states.json"];
     cloudMetadataPath := GetFileMetadataPath c;
     gitCallback := None; gitSafeCallback := None |}.

(** The cloud metadata is kept in a git note, not in the file at
    [cloudMetadataPath]: the test of [SaveFileMetadataDataGitAware] and
    [LoadFileMetadataDataGitAware]. *)
Definition in_git_notes (c : LocalConfig) : bool :=
  GitMode c && negb (Strs.eqb (GitRepoRoot c) "").

(** The files the engine keeps its documents in. *)
Definition documents (s : SyncEngine) : list string :=
  [fileStatesPath s; cloudMetadataPath s].

(** The engine's documents are files of their own, apart from the two
    paths of the item, and the cloud metadata is kept in its file, not in a
    git note. *)
Definition documents_apart (s : SyncEngine) (localPath cloudPath : string) : Prop :=
  in_git_notes (localConfig s) = false
  /\ (localPath ∉ documents s) /\ (cloudPath ∉ documents s).

(** [updateFileMetadata]: both documents loaded, updated and saved.  The
    load and the save of a document are its field of the world read and
    written: no file of [files] changes, and the error, which the callers
    turn into a warning, is always nil (see [World]). *)
Definition updateFileMetadata (s : SyncEngine) (w : World)
    (itemName filePath : string) (fileInfo : FS.FileInfo) (fileHash : string)
  : error * World :=
  (None,
   {| files := files w; clock := clock w;
      fileStates := UpdateFileState (fileStates w) (clock w) itemName filePath fileHash
                      (FS.ModTime fileInfo) (FS.Size fileInfo);
      cloudMetadata := UpdateFileMetadata (cloudMetadata w) (clock w) itemName filePath
                         (CurrentComputer (localConfig s)) fileHash (FS.ModTime fileInfo);
      seen := seen w |}).

(** [updateCloudHash]: the cloud metadata loaded, updated and saved, as in
    [updateFileMetadata]. *)
Definition updateCloudHash (s : SyncEngine) (w : World)
    (itemName filePath cloudHash : string) (cloudModTime : Z) : error * World :=
  let m := file_metadata (cloudMetadata w) itemName filePath in
  (None,
   {| files := files w; clock := clock w; fileStates := fileStates w;
      cloudMetadata :=
        put_metadata (cloudMetadata w) itemName filePath
          {| Computers := Computers m; CloudHash := cloudHash;
             CloudModTime := Some (Time.RFC3339 cloudModTime);
             LastUpdated := Some (Time.RFC3339 (clock w));
             UpdatedBy := CurrentComputer (localConfig s) |};
      seen := seen w |}).

(** [isFileChanged]. *)
Definition isFileChanged (w : World) (itemName filePath : string) : bool * error :=
  match GetFileState (fileStates w) itemName filePath with
  | None => (true, None)
  | Some existingState =>
      match Hash.CalculateFileHash (files w) filePath with
      | Err e => (true, Some e)
      | Ok currentHash => (negb (Strs.eqb (LocalHash existingState) currentHash), None)
      end
  end.

(** The buffer of [io.Copy]. *)
Definition copy_buffer : nat := 32 * 1024.

(** The write loop of [io.Copy]: one buffer after the other to the end of
    the open destination.  [fuel] is the number of bytes left, at least. *)
Fixpoint write_chunks (fuel : nat) (w : World) (dst bytes : string) : error * World :=
  match fuel with
  | O => (None, w)
  | S n =>
      if Strs.eqb bytes "" then (None, w)
      else
        match sys w (FS.Append (files w) (clock w) dst (Strs.take copy_buffer bytes)) with
        | (Some e, w1) => (Some e, w1)
        | (None, w1) => write_chunks n w1 dst (Strs.drop copy_buffer bytes)
        end
  end.

(** [io.Copy(dstFile, srcFile)]. *)
Definition io_Copy (w : World) (dst src : string) : error * World :=
  match FS.ReadAll (files w) src with
  | Err e => (Some e, w)
  | Ok bytes => write_chunks (String.length bytes) w dst bytes
  end.

(** [copyFile]: the destination is created or truncated in place, then
    filled. *)
Definition copyFile (src dst : string) (w : World) : error * World :=
  match sys w (FS.MkdirAll (files w) (clock w) (Path.Dir dst) 493) with
  | (Some e, w1) => (Some e, w1)
  | (None, w1) =>
      match FS.Open (files w1) src with
      | Err e => (Some e, w1)
      | Ok _ =>
        match sys w1 (FS.Create (files w1) (clock w1) dst) with
        | (Some e, w2) => (Some e, w2)
        | (None, w2) =>
            match io_Copy w2 dst src with
            | (Some e, w3) => (Some e, w3)
            | (None, w3) =>
                match FS.Stat (files w3) src with
                | Err e => (Some e, w3)
                | Ok srcInfo => sys w3 (FS.Chmod (files w3) dst (FS.Mode srcInfo))
                end
            end
        end
      end
  end.

(** [copyDir]; [fuel] bounds the depth of the tree. *)
Fixpoint copyDir (fuel : nat) (src dst : string) (w : World) : error * World :=
  match fuel with
  | O => (Some ("copy " +:+ src +:+ ": file name too long"), w)
  | S n =>
      match FS.Stat (files w) src with
      | Err e => (Some e, w)
      | Ok srcInfo =>
          match sys w (FS.MkdirAll (files w) (clock w) dst (FS.Mode srcInfo)) with
          | (Some e, w1) => (Some e, w1)
          | (None, w1) =>
              match FS.ReadDir (files w1) src with
              | Err e => (Some e, w1)
              | Ok entries =>
                  (fix each (es : list (string * bool)) (w : World) : error * World :=
                     match es with
                     | [] => (None, w)
                     | (name, isdir) :: rest =>
                         let srcPath := Path.Join [src; name] in
                         let dstPath := Path.Join [dst; name] in
                         match (if isdir : bool then copyDir n srcPath dstPath w
                                else copyFile srcPath dstPath w) with
                         | (Some e, w') => (Some e, w')
                         | (None, w') => each rest w'
                         end
                     end) entries w1
              end
          end
      end
  end.

Definition copyDir_tree (src dst : string) (w : World) : error * World :=
  copyDir (S (size (files w))) src dst w.

(** The calls of [s.gitCallback], each a warning at most. *)
Definition git_call (s : SyncEngine) (filePath operation what : string)
    (result : SyncResult) (w : World) : SyncResult * World :=
  match gitCallback s with
  | None => (result, w)
  | Some cb =>
      let '(err, w') := cb (localConfig s) filePath operation w in
      (warn result what err, w')
  end.

(** The file copy, through [s.gitSafeCallback] when there is one. *)
Definition git_safe (s : SyncEngine) (filePath : string)
    (copyOperation : World -> error * World) (w : World) : error * World :=
  match gitSafeCallback s with
  | Some cb => cb (localConfig s) filePath copyOperation w
  | None => copyOperation w
  end.

(** [pushItem]. *)
Definition pushItem (s : SyncEngine) (item : SyncItem) (localPath cloudPath : string)
    (w : World) : res SyncResult * World :=
  let result := new_result SyncPush in
  if negb (FS.PathExists (files w) localPath) then
    (Err ("local path does not exist: " +:+ localPath), w)
  else
    let check :=
      if Strs.eqb (Type_ item) "file" then isFileChanged w (Name item) localPath
      else (true, None) in
    match check with
    | (false, None) =>
        (Ok (skipped_one (with_message result (Name item +:+ " unchanged - skipped"))), w)
    | (_, err) =>
        let result := warn result "warning: failed to check file changes: " err in
        let '(result, w) :=
          git_call s localPath "pre_sync_backup" "git warning: " result w in
        if Strs.eqb (Type_ item) "file" then
          match git_safe s localPath (copyFile localPath cloudPath) w with
          | (Some e, w) => (Err ("failed to copy file: " +:+ e), w)
          | (None, w) =>
              let '(result, w) :=
                git_call s cloudPath "sync_add" "git staging warning: " result w in
              let '(result, w) :=
                match FS.Stat (files w) localPath with
                | Err e => (add_error result ("warning: failed to get file info: " +:+ e), w)
                | Ok localInfo =>
                    match Hash.CalculateFileHash (files w) localPath with
                    | Err e =>
                        (add_error result ("warning: failed to calculate hash: " +:+ e), w)
                    | Ok localHash =>
                        let '(e1, w) :=
                          updateFileMetadata s w (Name item) localPath localInfo localHash in
                        let result := warn result "warning: failed to update metadata: " e1 in
                        match FS.Stat (files w) cloudPath with
                        | Ok cloudInfo =>
                            let '(e2, w) :=
                              updateCloudHash s w (Name item) localPath localHash
                                (FS.ModTime cloudInfo) in
                            (warn result "warning: failed to update cloud hash: " e2, w)
                        | Err _ => (result, w)
                        end
                    end
                end in
              (Ok (with_message (changed_one result)
                     ("Pushed " +:+ Name item +:+ " to cloud")), w)
          end
        else
          match copyDir_tree localPath cloudPath w with
          | (Some e, w) => (Err ("failed to copy directory: " +:+ e), w)
          | (None, w) =>
              (Ok (with_message (changed_one result)
                     ("Pushed " +:+ Name item +:+ " to cloud")), w)
          end
    end.

(** [pullItem]. *)
Definition pullItem (s : SyncEngine) (item : SyncItem) (localPath cloudPath : string)
    (w : World) : res SyncResult * World :=
  let result := new_result SyncPull in
  if negb (FS.PathExists (files w) cloudPath) then
    (Err ("cloud path does not exist: " +:+ cloudPath), w)
  else
    let '(result, w) :=
      git_call s localPath "pre_sync_backup" "git warning: " result w in
    if Strs.eqb (Type_ item) "file" then
      match git_safe s localPath (copyFile cloudPath localPath) w with
      | (Some e, w) => (Err ("failed to copy file: " +:+ e), w)
      | (None, w) =>
          let '(result, w) :=
            git_call s localPath "sync_add" "git staging warning: " result w in
          let '(result, w) :=
            match FS.Stat (files w) localPath with
            | Err e => (add_error result ("warning: failed to get file info: " +:+ e), w)
            | Ok localInfo =>
                match Hash.CalculateFileHash (files w) localPath with
                | Err e =>
                    (add_error result ("warning: failed to calculate hash: " +:+ e), w)
                | Ok localHash =>
                    let '(e1, w) :=
                      updateFileMetadata s w (Name item) localPath localInfo localHash in
                    (warn result "warning: failed to update metadata: " e1, w)
                end
            end in
          (Ok (with_message (changed_one result)
                 ("Pulled " +:+ Name item +:+ " from cloud")), w)
      end
    else
      match copyDir_tree cloudPath localPath w with
      | (Some e, w) => (Err ("failed to copy directory: " +:+ e), w)
      | (None, w) =>
          (Ok (with_message (changed_one result)
                 ("Pulled " +:+ Name item +:+ " from cloud")), w)
      end.

(** [t.After(u)]. *)
Definition After (t u : Z) : bool := u <? t.

(** The lookup of the recorded cloud hash in [smartSyncFile]; the empty
    string when there is no record. *)
Definition lastKnownCloudHash (w : World) (item : SyncItem) (localPath : string) : string :=
  match Metadata (cloudMetadata w) !! Name item with
  | Some itemMetadata =>
      match itemMetadata !! localPath with
      | Some fileMetadata => CloudHash fileMetadata
      | None => EmptyString
      end
  | None => EmptyString
  end.

(** [smartSyncFile]. *)
Definition smartSyncFile (s : SyncEngine) (item : SyncItem) (localPath cloudPath : string)
    (w : World) : res SyncResult * World :=
  let result := new_result SyncSmart in
  match Hash.CalculateFileHash (files w) localPath with
  | Err e => (Err ("failed to calculate local file hash: " +:+ e), w)
  | Ok localHash =>
  match Hash.CalculateFileHash (files w) cloudPath with
  | Err e => (Err ("failed to calculate cloud file hash: " +:+ e), w)
  | Ok cloudHash =>
      if Strs.eqb localHash cloudHash then
        let '(result, w) :=
          match FS.Stat (files w) localPath with
          | Ok localInfo =>
              let '(e, w) :=
                updateFileMetadata s w (Name item) localPath localInfo localHash in
              (warn result "warning: failed to update metadata: " e, w)
          | Err _ => (result, w)
          end in
        (Ok (skipped_one (with_message result
                            (Name item +:+ " is already in sync (hash match)"))), w)
      else
        match FS.Stat (files w) localPath with
        | Err e => (Err ("failed to stat local file: " +:+ e), w)
        | Ok localInfo =>
        match FS.Stat (files w) cloudPath with
        | Err e => (Err ("failed to stat cloud file: " +:+ e), w)
        | Ok cloudInfo =>
            let last := lastKnownCloudHash w item localPath in
            if negb (Strs.eqb last "") && Strs.eqb last cloudHash then
              pushItem s item localPath cloudPath w
            else if negb (Strs.eqb last "") && negb (Strs.eqb last cloudHash) then
              if After (FS.ModTime localInfo) (FS.ModTime cloudInfo) then
                (Ok (add_error
                       (with_message result
                          ("Conflict detected for " +:+ Name item +:+ " - both files modified"))
                       "Both local and cloud files have been modified since last sync"), w)
              else pullItem s item localPath cloudPath w
            else
              if After (FS.ModTime localInfo) (FS.ModTime cloudInfo) then
                pushItem s item localPath cloudPath w
              else if After (FS.ModTime cloudInfo) (FS.ModTime localInfo) then
                pullItem s item localPath cloudPath w
              else
                (Ok (add_error
                       (with_message result
                          ("Conflict detected for " +:+ Name item
                           +:+ " - same timestamp, different content"))
                       "Files have same timestamp but different content - manual resolution needed"),
                 w)
        end
        end
  end
  end.

(** [smartSyncDirectory]. *)
Definition smartSyncDirectory (s : SyncEngine) (item : SyncItem)
    (localPath cloudPath : string) (w : World) : res SyncResult * World :=
  let result := new_result SyncSmart in
  match FS.Stat (files w) localPath with
  | Err e => (Err ("failed to stat local directory: " +:+ e), w)
  | Ok localInfo =>
  match FS.Stat (files w) cloudPath with
  | Err e => (Err ("failed to stat cloud directory: " +:+ e), w)
  | Ok cloudInfo =>
      if After (FS.ModTime localInfo) (FS.ModTime cloudInfo) then
        pushItem s item localPath cloudPath w
      else if After (FS.ModTime cloudInfo) (FS.ModTime localInfo) then
        pullItem s item localPath cloudPath w
      else
        (Ok (skipped_one (with_message result
                            ("Directory " +:+ Name item +:+ " appears in sync"))), w)
  end
  end.

(** [smartSyncItem]. *)
Definition smartSyncItem (s : SyncEngine) (item : SyncItem) (localPath cloudPath : string)
    (w : World) : res SyncResult * World :=
  let result := new_result SyncSmart in
  let localExists := FS.PathExists (files w) localPath in
  let cloudExists := FS.PathExists (files w) cloudPath in
  if negb localExists && negb cloudExists then
    (Ok (with_message result
           ("Neither local nor cloud exists for " +:+ Name item)), w)
  else if localExists && negb cloudExists then
    pushItem s item localPath cloudPath w
  else if negb localExists && cloudExists then
    pullItem s item localPath cloudPath w
  else if Strs.eqb (Type_ item) "file" then
    smartSyncFile s item localPath cloudPath w
  else
    smartSyncDirectory s item localPath cloudPath w.

(** [SyncItem]. *)
Definition SyncItem (s : SyncEngine) (operation : Z) (item : Config.SyncItem) (w : World)
  : res SyncResult * World :=
  let localPath :=
    GetCurrentComputerPath (host s) item (CurrentComputer (localConfig s)) in
  if Strs.eqb localPath "" then
    (Err ("no path configured for computer '" +:+ CurrentComputer (localConfig s) +:+ "'"),
     w)
  else
    let cloudPath := GetCloudPath item (GetCloudConfigsPath (localConfig s)) in
    if operation =? SyncPush then pushItem s item localPath cloudPath w
    else if operation =? SyncPull then pullItem s item localPath cloudPath w
    else if operation =? SyncSmart then smartSyncItem s item localPath cloudPath w
    else (Err ("unknown sync operation: " +:+ Strs.itoaZ operation), w).

(** The loop of [SyncAll]. *)
Fixpoint SyncAll_loop (s : SyncEngine) (operation : Z) (syncItems : list Config.SyncItem)
    (result : SyncResult) (w : World) : SyncResult * World :=
  match syncItems with
  | [] => (result, w)
  | item :: rest =>
      match SyncItem s operation item w with
      | (Err err, w') =>
          SyncAll_loop s operation rest
            {| Operation := Operation result; Success := Success result;
               FilesChanged := FilesChanged result; FilesSkipped := FilesSkipped result;
               FilesErrored := FilesErrored result + 1;
               Errors := Errors result ++ [Name item +:+ ": " +:+ err];
               Message := Message result |} w'
      | (Ok itemResult, w') =>
          SyncAll_loop s operation rest
            {| Operation := Operation result; Success := Success result;
               FilesChanged := FilesChanged result + FilesChanged itemResult;
               FilesSkipped := FilesSkipped result + FilesSkipped itemResult;
               FilesErrored := FilesErrored result + FilesErrored itemResult;
               Errors := Errors result ++ Errors itemResult;
               Message := Message result |} w'
      end
  end.

(** [SyncAll]. *)
Definition SyncAll (s : SyncEngine) (operation : Z) (syncItems : list Config.SyncItem)
    (w : World) : SyncResult * World :=
  let '(result, w') := SyncAll_loop s operation syncItems (new_result operation) w in
  ({| Operation := Operation result;
      Success := if 0 <? FilesErrored result then false else Success result;
      FilesChanged := FilesChanged result; FilesSkipped := FilesSkipped result;
      FilesErrored := FilesErrored result; Errors := Errors result;
      Message := "Sync complete: " +:+ Strs.itoaZ (FilesChanged result) +:+ " changed, "
                 +:+ Strs.itoaZ (FilesSkipped result) +:+ " skipped, "
                 +:+ Strs.itoaZ (FilesErrored result) +:+ " errors" |}, w').

(** *** The decision rules as section 4.6 words them *)

Inductive Decision :=
| Skip
| PushLocalToCloud
| PullCloudToLocal
| Conflict (reason : string).

(** The inputs of the engine; [None] is the bottom of the spec. *)
Record Inputs := {
  lh : option string;
  ch : option string;
  lm : Z;
  cm : Z;
  last_cloud_hash : option string
}.

(** Rules 1 to 7, the first match wins. *)
Definition rules (i : Inputs) : Decision :=
  match lh i, ch i with
  | None, None => Skip                                            (* rule 1 *)
  | Some _, None => PushLocalToCloud                              (* rule 2 *)
  | None, Some _ => PullCloudToLocal                              (* rule 3 *)
  | Some l, Some c =>
      if Strs.eqb l c then Skip                                   (* rule 4 *)
      else
        match last_cloud_hash i with
        | Some h =>
            if Strs.eqb h c then PushLocalToCloud                 (* rule 5 *)
            else if cm i <? lm i then Conflict "both modified"    (* rule 6 *)
            else PullCloudToLocal
        | None =>                                                 (* rule 7 *)
            if cm i <? lm i then PushLocalToCloud
            else if lm i <? cm i then PullCloudToLocal
            else Conflict "same timestamp, different content"
        end
  end.

(** What the engine reads for one file of one item: the hashes of the two
    sides where they exist, their mtimes, and the cloud hash recorded for
    the file, if any. *)
Definition observe (w : World) (item : Config.SyncItem) (localPath cloudPath : string) : Inputs :=
  {| lh := (fun f => Hash.of_bytes (FS.data f)) <$> files w !! localPath;
     ch := (fun f => Hash.of_bytes (FS.data f)) <$> files w !! cloudPath;
     lm := from_option FS.modTime 0 (files w !! localPath);
     cm := from_option FS.modTime 0 (files w !! cloudPath);
     last_cloud_hash :=
       match GetFileMetadata (cloudMetadata w) (Name item) localPath with
       | Some m => if Strs.eqb (CloudHash m) "" then None else Some (CloudHash m)
       | None => None
       end |}.

(** What the engine does for each decision.  [Skip] on identical content
    refreshes the recorded state of the file; a conflict is reported in the
    result and nothing is touched. *)
Definition perform (s : SyncEngine) (item : Config.SyncItem) (localPath cloudPath : string)
    (w : World) (d : Decision) : res SyncResult * World :=
  match d with
  | Skip =>
      match FS.Stat (files w) localPath, Hash.CalculateFileHash (files w) localPath with
      | Ok localInfo, Ok localHash =>
          let '(e, w') :=
            updateFileMetadata s w (Name item) localPath localInfo localHash in
          (Ok (skipped_one
                 (with_message
                    (warn (new_result SyncSmart) "warning: failed to update metadata: " e)
                    (Name item +:+ " is already in sync (hash match)"))), w')
      | _, _ =>
          (Ok (with_message (new_result SyncSmart)
                 ("Neither local nor cloud exists for " +:+ Name item)), w)
      end
  | PushLocalToCloud => pushItem s item localPath cloudPath w
  | PullCloudToLocal => pullItem s item localPath cloudPath w
  | Conflict reason =>
      if Strs.eqb reason "both modified" then
        (Ok (add_error
               (with_message (new_result SyncSmart)
                  ("Conflict detected for " +:+ Name item +:+ " - both files modified"))
               "Both local and cloud files have been modified since last sync"), w)
      else
        (Ok (add_error
               (with_message (new_result SyncSmart)
                  ("Conflict detected for " +:+ Name item
                   +:+ " - same timestamp, different content"))
               "Files have same timestamp but different content - manual resolution needed"),
         w)
  end.

(** An engine as [NewSyncEngine] makes it: no git callback is set. *)
Definition plain (s : SyncEngine) : Prop :=
  gitCallback s = None /\ gitSafeCallback s = None.

(** The recorded local hash of the file is the hash of its bytes. *)
Definition unchanged (w : World) (itemName filePath : string) : Prop :=
  exists st bytes,
    GetFileState (fileStates w) itemName filePath = Some st
    /\ FS.contents (files w) filePath = Some bytes
    /\ LocalHash st = Hash.of_bytes bytes.

End Sync.

(* ===================================================================== *)
(** ** internal/backup/manager.go: the backup manifest                   *)
(* ===================================================================== *)

Module Backup.
Local Open Scope Z_scope.

Record BackupEntry := {
  ID : string;
  ItemName : string;
  OriginalPath : string;
  BackupPath : string;
  Hash : string;
  Size : Z;
  CreatedAt : Z;
  CreatedBy : string;
  Reason : string;
  Tags : list string
}.

Record BackupManifest := {
  Version : string;
  ManifestCreatedAt : Z;
  UpdatedAt : Z;
  Entries : list BackupEntry
}.

Record BackupManager := {
  backupDir : string;
  manifestPath : string;
  maxBackups : Z;
  maxAge : Z;
  localConfig : Config.LocalConfig
}.

(** [NewBackupManager] with its defaults: 50 backups an item, 30 days. *)
Definition NewBackupManager (dir : string) (c : Config.LocalConfig) : BackupManager :=
  {| backupDir := dir; manifestPath := Path.Join [dir; "manifest.json"];
     maxBackups := 50; maxAge := 30 * 24 * 3600000000000; localConfig := c |}.

Definition WithMaxBackups (max : Z) (bm : BackupManager) : BackupManager :=
  {| backupDir := backupDir bm; manifestPath := manifestPath bm; maxBackups := max;
     maxAge := maxAge bm; localConfig := localConfig bm |}.

Definition WithMaxAge (age : Z) (bm : BackupManager) : BackupManager :=
  {| backupDir := backupDir bm; manifestPath := manifestPath bm;
     maxBackups := maxBackups bm; maxAge := age; localConfig := localConfig bm |}.

(** The clock as one call reads it: the instant at which the call stamps
    what it makes, the text of that instant in the layout [20060102_150405]
    in the local zone, and the time that has passed when
    [cleanupOldBackups] reads the clock again in the same call. *)
Record Clock := { now : Z; stamp : string; elapsed : N }.

(** The clock at the reading of [cleanupOldBackups]. *)
Definition later (clk : Clock) : Clock :=
  {| now := now clk + Z.of_N (elapsed clk); stamp := stamp clk; elapsed := 0 |}.

(** The files, and manifest.json as the value it decodes to ([None]: there
    is no manifest yet).  The manifest always loads and saves. *)
Record Store := {
  files : gmap string FS.File;
  manifest : option BackupManifest
}.

(** [loadManifest]. *)
Definition loadManifest (st : Store) (clk : Clock) : BackupManifest :=
  match manifest st with
  | Some m => m
  | None => {| Version := "1.0"; ManifestCreatedAt := now clk; UpdatedAt := now clk;
               Entries := [] |}
  end.

Definition with_entries (m : BackupManifest) (es : list BackupEntry) : BackupManifest :=
  {| Version := Version m; ManifestCreatedAt := ManifestCreatedAt m;
     UpdatedAt := UpdatedAt m; Entries := es |}.

(** [generateBackupID]. *)
Definition generateBackupID (clk : Clock) (itemName hash : string) : string :=
  let safeName := Strs.ReplaceAll (Strs.ReplaceAll itemName " " "_") "/" "_" in
  safeName +:+ "_" +:+ stamp clk +:+ "_" +:+ Strs.slice hash 7 15.

(** [bm.copyFile]: create or truncate, copy, chmod. *)
Definition copyFile (fs : gmap string FS.File) (t : Z) (src dst : string)
  : res (gmap string FS.File) :=
  do srcFile <- FS.Open fs src;
  do fs1 <- FS.Create fs t dst;
  do bytes <- FS.ReadAll fs1 src;
  do fs2 <- FS.Append fs1 t dst bytes;
  do srcInfo <- FS.Stat fs2 src;
  FS.Chmod fs2 dst (FS.Mode srcInfo).

(** The entry of the dedup loop refreshed in place. *)
Definition refreshed (entry : BackupEntry) (clk : Clock) (reason : string)
    (tags : list string) : BackupEntry :=
  {| ID := ID entry; ItemName := ItemName entry; OriginalPath := OriginalPath entry;
     BackupPath := BackupPath entry; Hash := Hash entry; Size := Size entry;
     CreatedAt := now clk; CreatedBy := CreatedBy entry; Reason := reason;
     Tags := tags |}.

(** The dedup loop of [BackupFile]: the first entry of the item with the
    hash, refreshed, and the entries with it in its place. *)
Fixpoint dedup (entries : list BackupEntry) (itemName hash : string) (clk : Clock)
    (reason : string) (tags : list string) : option (BackupEntry * list BackupEntry) :=
  match entries with
  | [] => None
  | entry :: rest =>
      if Strs.eqb (ItemName entry) itemName && Strs.eqb (Hash entry) hash then
        Some (refreshed entry clk reason tags, refreshed entry clk reason tags :: rest)
      else
        match dedup rest itemName hash clk reason tags with
        | Some (found, rest') => Some (found, entry :: rest')
        | None => None
        end
  end.

(** The marking loop of [cleanupOldBackups] over the item's backups, newest
    first: too old, or beyond the count. *)
Fixpoint mark (bm : BackupManager) (clk : Clock) (i : Z) (itemBackups : list BackupEntry)
  : list string :=
  match itemBackups with
  | [] => []
  | backup :: rest =>
      if maxAge bm <? Time.Sub (now clk) (CreatedAt backup) then
        ID backup :: mark bm clk (i + 1) rest
      else if maxBackups bm <=? i then ID backup :: mark bm clk (i + 1) rest
      else mark bm clk (i + 1) rest
  end.

(** The first entry with the id leaves the manifest, and its payload the
    disk. *)
Fixpoint drop_id (backupID : string) (entries : list BackupEntry)
    (fs : gmap string FS.File) : list BackupEntry * gmap string FS.File :=
  match entries with
  | [] => ([], fs)
  | entry :: rest =>
      if Strs.eqb (ID entry) backupID then
        (rest, if FS.PathExists fs (BackupPath entry) then delete (BackupPath entry) fs
               else fs)
      else
        let '(rest', fs') := drop_id backupID rest fs in (entry :: rest', fs')
  end.

Fixpoint drop_ids (toDelete : list string) (entries : list BackupEntry)
    (fs : gmap string FS.File) : list BackupEntry * gmap string FS.File :=
  match toDelete with
  | [] => (entries, fs)
  | backupID :: more =>
      let '(entries', fs') := drop_id backupID entries fs in
      drop_ids more entries' fs'
  end.

(** The order of [sort.Slice] in [cleanupOldBackups]: newest first. *)
Definition newer_first (a b : BackupEntry) : Prop := CreatedAt b <= CreatedAt a.

#[global] Instance newer_first_dec : RelDecision newer_first.
Proof. intros a b. unfold newer_first. apply _. Defined.

(** [cleanupOldBackups].  [sort.Slice] is not stable; the model sorts with
    a merge sort. *)
Definition cleanupOldBackups (bm : BackupManager) (clk : Clock)
    (entries : list BackupEntry) (itemName : string) (fs : gmap string FS.File)
  : list BackupEntry * gmap string FS.File :=
  let itemBackups := filter (fun e => ItemName e = itemName) entries in
  let sorted := merge_sort newer_first itemBackups in
  drop_ids (mark bm clk 0 sorted) entries fs.

Definition backup_error (itemName filePath cause code : string) : string :=
  Errors.NewSyncError "backup" itemName filePath cause code.

(** [BackupFile]. *)
Definition BackupFile (bm : BackupManager) (clk : Clock) (st : Store)
    (itemName filePath reason : string) (tags : list string)
  : res BackupEntry * Store :=
  if negb (FS.PathExists (files st) filePath) then
    (Err (backup_error itemName filePath "file does not exist" Errors.ErrCodeFileNotFound),
     st)
  else
    match FS.Stat (files st) filePath with
    | Err e => (Err (backup_error itemName filePath e Errors.ErrCodeIOError), st)
    | Ok fileInfo =>
    match Hash.CalculateFileHash (files st) filePath with
    | Err e =>
        (Err (backup_error itemName filePath ("failed to calculate hash: " +:+ e)
                Errors.ErrCodeHashMismatch), st)
    | Ok hash =>
        let backupID := generateBackupID clk itemName hash in
        let backupPath := Path.Join [backupDir bm; "files"; backupID] in
        let m := loadManifest st clk in
        match dedup (Entries m) itemName hash clk reason tags with
        | Some (entry, entries') =>
            (Ok entry, {| files := files st; manifest := Some (with_entries m entries') |})
        | None =>
            match FS.MkdirAll (files st) (now clk) (Path.Dir backupPath) 493 with
            | Err e =>
                (Err (backup_error itemName filePath
                        ("failed to create backup directory: " +:+ e)
                        Errors.ErrCodeIOError), st)
            | Ok fs1 =>
            match copyFile fs1 (now clk) filePath backupPath with
            | Err e =>
                (Err (backup_error itemName filePath
                        ("failed to copy file to backup: " +:+ e)
                        Errors.ErrCodeIOError),
                 {| files := fs1; manifest := manifest st |})
            | Ok fs2 =>
                let entry :=
                  {| ID := backupID; ItemName := itemName; OriginalPath := filePath;
                     BackupPath := backupPath; Hash := hash; Size := FS.Size fileInfo;
                     CreatedAt := now clk;
                     CreatedBy := Config.CurrentComputer (localConfig bm);
                     Reason := reason; Tags := tags |} in
                let '(entries', fs3) :=
                  cleanupOldBackups bm (later clk) (Entries m ++ [entry]) itemName fs2 in
                (Ok entry,
                 {| files := fs3;
                    manifest := Some {| Version := Version m;
                                        ManifestCreatedAt := ManifestCreatedAt m;
                                        UpdatedAt := now clk; Entries := entries' |} |})
            end
            end
        end
    end
    end.

(** A history of the backup directory: calls of [BackupFile], and between
    them whatever else happens to the files. *)
Record Call := {
  edit : gmap string FS.File -> gmap string FS.File;
  at_ : Clock;
  itemName : string;
  filePath : string;
  reason : string;
  tags : list string
}.

Fixpoint run (bm : BackupManager) (calls : list Call) (st : Store) : Store :=
  match calls with
  | [] => st
  | c :: rest =>
      run bm rest
        (BackupFile bm (at_ c) {| files := edit c (files st); manifest := manifest st |}
           (itemName c) (filePath c) (reason c) (tags c)).2
  end.

(** The manifest invariant: one entry per (item, hash). *)
Definition key (e : BackupEntry) : string * string := (ItemName e, Hash e).

Definition one_entry_per_content (entries : list BackupEntry) : Prop :=
  NoDup (key <$> entries).

Definition entries_of (st : Store) : list BackupEntry :=
  match manifest st with Some m => Entries m | None => [] end.

(** The loop that looks an id up: the first entry with it. *)
Fixpoint find_id (entries : list BackupEntry) (backupID : string) : option BackupEntry :=
  match entries with
  | [] => None
  | e :: rest => if Strs.eqb (ID e) backupID then Some e else find_id rest backupID
  end.

(** [RestoreFile]: the error, if any, and the store afterwards. *)
Definition RestoreFile (bm : BackupManager) (clk : Clock) (st : Store)
    (backupID targetPath : string) : option string * Store :=
  let m := loadManifest st clk in
  match find_id (Entries m) backupID with
  | None =>
      (Some (Errors.NewSyncError "restore" "" targetPath
               ("backup with ID " +:+ backupID +:+ " not found")
               Errors.ErrCodeFileNotFound), st)
  | Some entry =>
      if negb (FS.PathExists (files st) (BackupPath entry)) then
        (Some (Errors.NewSyncError "restore" (ItemName entry) targetPath
                 ("backup file does not exist: " +:+ BackupPath entry)
                 Errors.ErrCodeFileNotFound), st)
      else
        match FS.MkdirAll (files st) (now clk) (Path.Dir targetPath) 493 with
        | Err e =>
            (Some (Errors.NewSyncError "restore" (ItemName entry) targetPath
                     ("failed to create target directory: " +:+ e)
                     Errors.ErrCodeIOError), st)
        | Ok fs1 =>
            match copyFile fs1 (now clk) (BackupPath entry) targetPath with
            | Err e =>
                (Some (Errors.NewSyncError "restore" (ItemName entry) targetPath
                         ("failed to restore file: " +:+ e) Errors.ErrCodeIOError),
                 {| files := fs1; manifest := manifest st |})
            | Ok fs2 => (None, {| files := fs2; manifest := manifest st |})
            end
        end
  end.

(** [ListBackups]: the backups of the item (of every item for the empty
    name), newest first.  [sort.Slice] is not stable; the model sorts with
    a merge sort. *)
Definition ListBackups (st : Store) (clk : Clock) (itemName : string)
  : list BackupEntry :=
  let m := loadManifest st clk in
  merge_sort newer_first
    (filter (fun e => itemName = EmptyString \/ ItemName e = itemName) (Entries m)).

(** The manifest without the first entry with the id. *)
Fixpoint remove_id (entries : list BackupEntry) (backupID : string) : list BackupEntry :=
  match entries with
  | [] => []
  | e :: rest => if Strs.eqb (ID e) backupID then rest else e :: remove_id rest backupID
  end.

(** [DeleteBackup]. *)
Definition DeleteBackup (bm : BackupManager) (clk : Clock) (st : Store)
    (backupID : string) : option string * Store :=
  let m := loadManifest st clk in
  match find_id (Entries m) backupID with
  | None =>
      (Some (Errors.NewSyncError "delete_backup" "" ""
               ("backup with ID " +:+ backupID +:+ " not found")
               Errors.ErrCodeFileNotFound), st)
  | Some entry =>
      let saved fs :=
        {| files := fs;
           manifest := Some {| Version := Version m;
                               ManifestCreatedAt := ManifestCreatedAt m;
                               UpdatedAt := now clk;
                               Entries := remove_id (Entries m) backupID |} |} in
      if FS.PathExists (files st) (BackupPath entry) then
        match FS.Remove (files st) (BackupPath entry) with
        | Err e =>
            (Some (Errors.NewSyncError "delete_backup" (ItemName entry) (BackupPath entry)
                     ("failed to delete backup file: " +:+ e) Errors.ErrCodeIOError), st)
        | Ok fs' => (None, saved fs')
        end
      else (None, saved (files st))
  end.

End Backup.

(* ===================================================================== *)
(** ** internal/atomic: transactions                                     *)
(* ===================================================================== *)

(** The operations of a transaction act on a state of their own (the
    files, and what their closures remember); [St] is that state. *)
Module Transaction.
Section Operations.
Variable St : Type.

(** A Go [error]: [None] is nil. *)
Definition error := option string.

(** The interface [AtomicOperation]. *)
Record AtomicOperation := {
  op_Execute : St -> error * St;
  op_Rollback : St -> error * St
}.

Record Transaction := {
  operations : list AtomicOperation;
  executed : list AtomicOperation;
  committed : bool
}.

Definition NewTransaction : Transaction :=
  {| operations := []; executed := []; committed := false |}.

Definition Add (tx : Transaction) (op : AtomicOperation) : Transaction :=
  {| operations := operations tx ++ [op]; executed := executed tx;
     committed := committed tx |}.

(** The loop of [rollbackExecuted] over the executed operations, last one
    first; the error kept is the last one met. *)
Fixpoint rollback_loop (ops : list AtomicOperation) (lastError : error) (s : St)
  : error * St :=
  match ops with
  | [] => (lastError, s)
  | op :: rest =>
      let '(err, s') := op_Rollback op s in
      rollback_loop rest (match err with Some e => Some e | None => lastError end) s'
  end.

(** [rollbackExecuted]. *)
Definition rollbackExecuted (tx : Transaction) (s : St) : error * Transaction * St :=
  let '(lastError, s') := rollback_loop (rev (executed tx)) None s in
  (lastError,
   {| operations := operations tx; executed := []; committed := committed tx |}, s').

(** The loop of [Execute]. *)
Fixpoint execute_loop (ops : list AtomicOperation) (tx : Transaction) (s : St)
  : error * Transaction * St :=
  match ops with
  | [] => (None, tx, s)
  | op :: rest =>
      match op_Execute op s with
      | (Some err, s') =>
          let '(_, tx', s'') := rollbackExecuted tx s' in
          (Some ("operation failed: " +:+ err), tx', s'')
      | (None, s') =>
          execute_loop rest
            {| operations := operations tx; executed := executed tx ++ [op];
               committed := committed tx |} s'
      end
  end.

(** [Execute]. *)
Definition Execute (tx : Transaction) (s : St) : error * Transaction * St :=
  if committed tx then (Some "transaction already committed", tx, s)
  else execute_loop (operations tx) tx s.

(** [Commit]. *)
Definition Commit (tx : Transaction) (s : St) : error * Transaction * St :=
  if committed tx then (Some "transaction already committed", tx, s)
  else
    let mark tx' :=
      {| operations := operations tx'; executed := executed tx'; committed := true |} in
    if (length (executed tx) =? 0)%nat then
      match Execute tx s with
      | (Some err, tx', s') => (Some err, tx', s')
      | (None, tx', s') => (None, mark tx', s')
      end
    else (None, mark tx, s).

(** [Rollback]. *)
Definition Rollback (tx : Transaction) (s : St) : error * Transaction * St :=
  rollbackExecuted tx s.

End Operations.

Arguments op_Execute {St} _ _.
Arguments op_Rollback {St} _ _.
Arguments operations {St} _.
Arguments executed {St} _.
Arguments committed {St} _.
Arguments NewTransaction {St}.
Arguments Add {St} _ _.
Arguments rollback_loop {St} _ _ _.
Arguments rollbackExecuted {St} _ _.
Arguments execute_loop {St} _ _ _.
Arguments Execute {St} _ _.
Arguments Commit {St} _ _.
Arguments Rollback {St} _ _.

End Transaction.

(* ===================================================================== *)
(** ** The scenarios of section 8, as data                               *)
(* ===================================================================== *)

Module Scenario.
Import Config Docs Sync.
Local Open Scope Z_scope.

Definition H1 : LocalConfig :=
  {| CloudSyncDir := "/t/cloud"; CurrentComputer := "H1"; LastSyncTimes := ∅;
     GitMode := false; GitRepoRoot := EmptyString |}.

(** A host whose paths hold no variable to expand. *)
Definition host1 : Host :=
  {| UserHomeDir := Ok "/home/h1"; ExpandEnv := fun path => path;
     Getenv := fun key => if Strs.eqb key "HOME" then "/home/h1" else EmptyString |}.

Definition engine : SyncEngine := NewSyncEngine H1 host1.

Definition Vim : Config.SyncItem :=
  {| Name := "Vim"; Type_ := "file"; Paths := {[ "H1" := "/t/local/vimrc" ]};
     ExcludePatterns := [] |}.

Definition local : string := "/t/local/vimrc".
Definition cloud : string := "/t/cloud/configs/Vim".

(** The directories of the host. *)
Definition dirs : gmap string FS.File :=
  list_to_map
    ((fun d => (d, FS.directory 1 493)) <$>
     ["/"; "/t"; "/t/local"; "/t/cloud"; "/t/cloud/configs"]).

Definition world (fs : gmap string FS.File) (now : Z)
    (states : FileStatesData) (metadata : FileMetadataData) : World :=
  {| files := fs; clock := now; fileStates := states; cloudMetadata := metadata;
     seen := [] |}.

(** Scenario A: a local file, nothing in the cloud, nothing recorded. *)
Definition first_push : World :=
  world (<[local := FS.regular "set ts=4" 10 420]> dirs) 20
        NewFileStatesData NewFileMetadataData.

(** The documents after scenario A. *)
Definition states_after_A : FileStatesData :=
  UpdateFileState NewFileStatesData 20 "Vim" local (Hash.of_bytes "set ts=4") 10 8.

Definition metadata_after_A : FileMetadataData :=
  put_metadata NewFileMetadataData "Vim" local
    {| Computers := {[ "H1" := {| Hash := Hash.of_bytes "set ts=4"; CModTime := Some 0 |} ]};
       CloudHash := Hash.of_bytes "set ts=4"; CloudModTime := Some 0;
       LastUpdated := Some 0; UpdatedBy := "H1" |}.

(** Scenario D: after A both sides were edited, at the same instant; the
    recorded cloud hash is the one from before the edits. *)
Definition both_edited : World :=
  world (<[local := FS.regular "set ts=8" 30 420]>
           (<[cloud := FS.regular "set ts=2" 30 420]> dirs)) 40
        states_after_A metadata_after_A.

(** Scenario E: a push over an older cloud copy. *)
Definition push_over_old : World :=
  world (<[local := FS.regular "new" 30 420]>
           (<[cloud := FS.regular "old" 10 420]> dirs)) 40
        NewFileStatesData NewFileMetadataData.

(** The local file is gone, the cloud copy is still there. *)
Definition local_deleted : World :=
  world (<[cloud := FS.regular "set ts=4" 20 420]> dirs) 40
        states_after_A metadata_after_A.

(** The cloud copy is gone, the local file is as recorded. *)
Definition cloud_deleted : World :=
  world (<[local := FS.regular "set ts=4" 10 420]> dirs) 40
        states_after_A metadata_after_A.

(** The cloud copy was replaced by another computer; the local file is as
    recorded. *)
Definition cloud_replaced : World :=
  world (<[local := FS.regular "set ts=4" 10 420]>
           (<[cloud := FS.regular "set ts=2" 30 420]> dirs)) 40
        states_after_A metadata_after_A.

(** An item registered on another computer only. *)
Definition elsewhere : Config.SyncItem :=
  {| Name := "test-config"; Type_ := "file";
     Paths := {[ "different-computer" := "/some/path" ]}; ExcludePatterns := [] |}.

End Scenario.

(* ===================================================================== *)
(** * Properties                                                          *)
(* ===================================================================== *)

(** ** Known answers for the library functions *)

Example sha256_empty :
  SHA256.hex "" = "e3b0c44298fc1c149afbf4c8996fb92427ae41e4649b934ca495991b7852b855".
Proof. vm_compute. reflexivity. Qed.

Example sha256_abc :
  SHA256.hex "abc" = "ba7816bf8f01cfea414140de5dae2223b00361a396177a9cb410ff61f20015ad".
Proof. vm_compute. reflexivity. Qed.

Example sha256_two_blocks :
  SHA256.hex "abcdbcdecdefdefgefghfghighijhijkijkljklmklmnlmnomnopnopq"
  = "248d6a61d20638b8e5c026930c3e6039a33ce45964ff2167f6ecedd419db06c1".
Proof. vm_compute. reflexivity. Qed.

Example itoa_100 : Strs.itoa 100 = "100". Proof. reflexivity. Qed.

Example TrimSpace_both : Strs.TrimSpace "  a b  " = "a b". Proof. reflexivity. Qed.

Example Contains_mid : Strs.Contains "a  b" "  " = true. Proof. reflexivity. Qed.

Example Clean_dots : Path.Clean "/a/./b/../c//d/" = "/a/c/d". Proof. vm_compute. reflexivity. Qed.

Example Clean_up : Path.Clean "a/../../b" = "../b". Proof. vm_compute. reflexivity. Qed.

Example Clean_root : Path.Clean "/.." = "/". Proof. vm_compute. reflexivity. Qed.

Example Join_two : Path.Join ["/cloud/configs"; "Test-Item"] = "/cloud/configs/Test-Item".
Proof. vm_compute. reflexivity. Qed.

Example Dir_file : Path.Dir "/t/cloud/configs/Vim" = "/t/cloud/configs". Proof. vm_compute. reflexivity. Qed.

Example Dir_bare : Path.Dir "Vim" = ".". Proof. vm_compute. reflexivity. Qed.

Example Base_file : Path.Base "/t/cloud/configs/Vim" = "Vim". Proof. vm_compute. reflexivity. Qed.

Example Base_slashes : Path.Base "/a/b//" = "b". Proof. vm_compute. reflexivity. Qed.

Example GetCloudPath_spaces :
  Config.GetCloudPath
    {| Config.Name := "Test Item With Spaces"; Config.Type_ := "file";
       Config.Paths := ∅; Config.ExcludePatterns := [] |} "/cloud/configs"
  = "/cloud/configs/Test-Item-With-Spaces".
Proof. vm_compute. reflexivity. Qed.

Example GetCloudPath_slashes :
  Config.GetCloudPath
    {| Config.Name := "item/with/slashes"; Config.Type_ := "file";
       Config.Paths := ∅; Config.ExcludePatterns := [] |} "/cloud/configs"
  = "/cloud/configs/item-with-slashes".
Proof. vm_compute. reflexivity. Qed.

Example ValidateName_ok : Validation.ValidateName Validation.NewNameValidator "My Vim-config_1.0" = None.
Proof. vm_compute. reflexivity. Qed.

Example ValidateName_com1 : Validation.ValidateName Validation.NewNameValidator "com1" <> None.
Proof. vm_compute. discriminate. Qed.

Example spec_reserved_same :
  Validation.spec_reserved = Validation.reservedNames Validation.NewNameValidator.
Proof. reflexivity. Qed.

(* ===================================================================== *)
(** ** The name validator and the slug                                   *)
(* ===================================================================== *)

Module ValidationFacts.
Import Strs Validation.

Lemma eqb_true (a b : string) : eqb a b = true <-> a = b.
Proof. unfold eqb. apply bool_decide_eq_true. Qed.

Lemma eqb_false (a b : string) : eqb a b = false <-> a <> b.
Proof. unfold eqb. apply bool_decide_eq_false. Qed.

Lemma is_reserved_elem (x : string) (l : list string) :
  is_reserved x l = bool_decide (x ∈ l).
Proof.
  induction l as [|r l IH]; cbn [is_reserved].
  - symmetry. apply bool_decide_eq_false_2, not_elem_of_nil.
  - destruct (eqb x r) eqn:E.
    + apply eqb_true in E. subst. symmetry. apply bool_decide_eq_true_2. left.
    + apply eqb_false in E. rewrite IH. apply bool_decide_ext.
      rewrite elem_of_cons. tauto.
Qed.

(** Outside tab, LF, FF and CR the regexp's class is the class of the spec. *)
Definition control_space (c : ascii) : bool :=
  (code c =? 9)%nat || (code c =? 10)%nat || (code c =? 12)%nat || (code c =? 13)%nat.

Lemma allowedClass_specClass (c : ascii) :
  control_space c = false -> allowedClass c = specClass c.
Proof. destruct c as [[] [] [] [] [] [] [] []]; vm_compute; congruence. Qed.

Lemma specClass_allowedClass (c : ascii) : specClass c = true -> allowedClass c = true.
Proof. destruct c as [[] [] [] [] [] [] [] []]; vm_compute; congruence. Qed.

Lemma all_bytes_ext (P Q : ascii -> bool) (s : string) :
  all_bytes (fun c => negb (control_space c)) s = true ->
  (forall c, control_space c = false -> P c = Q c) ->
  all_bytes P s = all_bytes Q s.
Proof.
  intros Hs HPQ. induction s as [|c r IH]; simpl in *; [reflexivity|].
  apply andb_true_iff in Hs as [Hc Hr]. apply negb_true_iff in Hc.
  rewrite (HPQ c Hc), (IH Hr). reflexivity.
Qed.

(** [TrimSpace] never lengthens, and shortens when the first byte is a space. *)
Lemma TrimLeftSpace_length (s : string) :
  (String.length (TrimLeftSpace s) <= String.length s)%nat.
Proof.
  induction s as [|c r IH]; simpl; [lia|]. destruct (isSpace c); simpl; lia.
Qed.

Lemma TrimRightSpace_length (s : string) :
  (String.length (TrimRightSpace s) <= String.length s)%nat.
Proof.
  induction s as [|c r IH]; simpl; [lia|].
  destruct (TrimRightSpace r); [destruct (isSpace c)|]; simpl in *; lia.
Qed.

Lemma TrimRightSpace_id (s : string) :
  TrimRightSpace s = s <-> is_space_byte (last_byte s) = false.
Proof.
  induction s as [|c r IH]; simpl; [tauto|].
  destruct r as [|d r'].
  - simpl. destruct (isSpace c); split; congruence.
  - change (last_byte (String c (String d r'))) with (last_byte (String d r')).
    destruct (TrimRightSpace (String d r')) as [|e t] eqn:E.
    + split.
      * destruct (isSpace c); discriminate.
      * intros H. apply IH in H. discriminate.
    + rewrite <- IH. split; congruence.
Qed.

Lemma TrimSpace_id (s : string) :
  TrimSpace s = s <->
  is_space_byte (first_byte s) = false /\ is_space_byte (last_byte s) = false.
Proof.
  unfold TrimSpace. destruct s as [|c r]; [simpl; tauto|].
  cbn [TrimLeftSpace first_byte is_space_byte].
  destruct (isSpace c) eqn:Hc.
  - split; [|intros [? _]; discriminate].
    intros H. exfalso.
    pose proof (TrimRightSpace_length (TrimLeftSpace r)) as H1.
    pose proof (TrimLeftSpace_length r) as H2.
    rewrite H in H1. simpl in H1. lia.
  - rewrite TrimRightSpace_id. tauto.
Qed.

Lemma negb_eqb_TrimSpace (s : string) :
  negb (eqb (TrimSpace s) s)
  = is_space_byte (first_byte s) || is_space_byte (last_byte s).
Proof.
  destruct (eqb (TrimSpace s) s) eqn:E; simpl.
  - apply eqb_true, TrimSpace_id in E as [-> ->]. reflexivity.
  - apply eqb_false in E. rewrite TrimSpace_id in E.
    destruct (is_space_byte (first_byte s)), (is_space_byte (last_byte s));
      try reflexivity. exfalso. apply E. split; reflexivity.
Qed.

(** On names without tab, LF, FF or CR the validator refuses exactly what
    section 4.10 tells it to refuse. *)
Lemma ValidateName_spec_without_control_space (name : string) :
  all_bytes (fun c => negb (control_space c)) name = true ->
  (ValidateName NewNameValidator name = None <-> spec_refuses name = false).
Proof.
  intros Hctl. unfold ValidateName, spec_refuses.
  change (reservedNames NewNameValidator) with spec_reserved.
  cbn [maxLength allowedChars caseSensitive NewNameValidator].
  rewrite negb_eqb_TrimSpace, is_reserved_elem.
  assert (Hlen : (100 <? Z.of_nat (String.length name))%Z
                 = (100 <? String.length name)%nat).
  { destruct (Z.ltb_spec 100 (Z.of_nat (String.length name)));
      destruct (Nat.ltb_spec 100 (String.length name)); try reflexivity; lia. }
  rewrite Hlen.
  assert (Hcls : eqb name "" = false ->
                 allowedChars_MatchString name = all_bytes specClass name).
  { intros Hne. destruct name; [discriminate|].
    unfold allowedChars_MatchString.
    apply all_bytes_ext; [exact Hctl | exact allowedClass_specClass]. }
  destruct (eqb name "") eqn:E0; [simpl; split; discriminate|].
  rewrite (Hcls eq_refl).
  generalize (bool_decide (ToUpper name ∈ spec_reserved)) as reserved.
  generalize (Contains name "  ") as doubled.
  generalize (is_space_byte (first_byte name)) as leading.
  generalize (is_space_byte (last_byte name)) as trailing.
  generalize (all_bytes specClass name) as inclass.
  generalize (100 <? String.length name)%nat as toolong.
  intros [] [] [] [] [] []; simpl; split; congruence.
Qed.

(** *** The slug *)

Import Config.

Definition valid (name : string) : Prop :=
  ValidateName NewNameValidator name = None.

Lemma valid_allowed (name : string) : valid name -> all_bytes allowedClass name = true.
Proof.
  unfold valid, ValidateName.
  cbn [maxLength allowedChars reservedNames caseSensitive NewNameValidator].
  destruct (eqb name ""); [discriminate|].
  destruct (100 <? Z.of_nat (String.length name))%Z; [discriminate|].
  destruct (allowedChars_MatchString name) eqn:E; [|discriminate].
  intros _. destruct name; [discriminate|exact E].
Qed.

Lemma allowedClass_not_slash (c : ascii) : allowedClass c = true -> Ascii.eqb c "/" = false.
Proof. destruct c as [[] [] [] [] [] [] [] []]; vm_compute; congruence. Qed.

Lemma ReplaceAll_absent (s : string) (old new : ascii) :
  all_bytes (fun c => negb (Ascii.eqb c old)) s = true -> ReplaceAll s old new = s.
Proof.
  induction s as [|c r IH]; simpl; [reflexivity|].
  intros H. apply andb_true_iff in H as [Hc Hr]. apply negb_true_iff in Hc.
  rewrite Hc, (IH Hr). reflexivity.
Qed.

Lemma all_bytes_impl (P Q : ascii -> bool) (s : string) :
  (forall c, P c = true -> Q c = true) -> all_bytes P s = true -> all_bytes Q s = true.
Proof.
  intros HPQ. induction s as [|c r IH]; simpl; [reflexivity|].
  intros H. apply andb_true_iff in H as [Hc Hr].
  rewrite (HPQ c Hc), (IH Hr). reflexivity.
Qed.

Lemma all_bytes_ReplaceAll (P : ascii -> bool) (s : string) (old new : ascii) :
  P new = true -> all_bytes P s = true -> all_bytes P (ReplaceAll s old new) = true.
Proof.
  intros Hnew. induction s as [|c r IH]; simpl; [reflexivity|].
  intros H. apply andb_true_iff in H as [Hc Hr].
  rewrite (IH Hr). destruct (Ascii.eqb c old); rewrite ?Hnew, ?Hc; reflexivity.
Qed.

(** A valid name has no separator, so its slug only turns spaces into hyphens. *)
Lemma safeName_valid (name : string) : valid name -> safeName name = ReplaceAll name " " "-".
Proof.
  intros Hv. unfold safeName. apply ReplaceAll_absent.
  apply all_bytes_ReplaceAll; [reflexivity|].
  apply (all_bytes_impl allowedClass); [|apply valid_allowed, Hv].
  intros c Hc. rewrite (allowedClass_not_slash c Hc). reflexivity.
Qed.

(** Two names that differ, position by position, at most by a space against
    a hyphen. *)
Definition space_or_hyphen (c : ascii) : bool := Ascii.eqb c " " || Ascii.eqb c "-".

Fixpoint same_up_to_space_hyphen (a b : string) : bool :=
  match a, b with
  | EmptyString, EmptyString => true
  | String x a', String y b' =>
      (Ascii.eqb x y || (space_or_hyphen x && space_or_hyphen y))
      && same_up_to_space_hyphen a' b'
  | _, _ => false
  end.

Lemma replace_space_byte (x y : ascii) :
  (if Ascii.eqb x " " then "-"%char else x) = (if Ascii.eqb y " " then "-"%char else y)
  <-> Ascii.eqb x y || (space_or_hyphen x && space_or_hyphen y) = true.
Proof.
  unfold space_or_hyphen.
  destruct (Ascii.eqb_spec x " "), (Ascii.eqb_spec y " "),
           (Ascii.eqb_spec x "-"), (Ascii.eqb_spec y "-"),
           (Ascii.eqb_spec x y); subst; simpl; split; congruence.
Qed.

Lemma ReplaceAll_space_eq (a b : string) :
  ReplaceAll a " " "-" = ReplaceAll b " " "-" <-> same_up_to_space_hyphen a b = true.
Proof.
  revert b. induction a as [|x a IH]; intros [|y b]; simpl; try (split; congruence).
  rewrite andb_true_iff, <- IH, <- replace_space_byte. split.
  - intros H. injection H as H1 H2. split; assumption.
  - intros [H1 H2]. rewrite H1, H2. reflexivity.
Qed.

Lemma Contains_byte_absent (s : string) (c : ascii) :
  Contains s (String c "") = false ->
  all_bytes (fun d => negb (Ascii.eqb d c)) s = true.
Proof.
  induction s as [|d r IH]; simpl; [reflexivity|].
  intros H. apply orb_false_iff in H as [H1 H2].
  assert (Hp : HasPrefix r "" = true) by (destruct r; reflexivity).
  rewrite Hp, andb_true_r in H1. rewrite Ascii.eqb_sym, H1. simpl. apply IH, H2.
Qed.

(** C8, as amended: on valid names the slug identifies exactly the names that
    differ by spaces against hyphens at the same positions; in particular it
    is injective on the valid names that contain no space. *)
Theorem safeName_injective_up_to_space_hyphen (n1 n2 : string) :
  valid n1 -> valid n2 ->
  (safeName n1 = safeName n2 <-> same_up_to_space_hyphen n1 n2 = true)
  /\ (Contains n1 " " = false -> Contains n2 " " = false ->
      safeName n1 = safeName n2 -> n1 = n2).
Proof.
  intros V1 V2. rewrite (safeName_valid n1 V1), (safeName_valid n2 V2). split.
  - apply ReplaceAll_space_eq.
  - intros S1 S2.
    rewrite (ReplaceAll_absent n1), (ReplaceAll_absent n2);
      auto using Contains_byte_absent.
Qed.

Lemma safeName_injective_up_to_space_hyphen_witness :
  valid "my vim" /\ valid "my-vim"
  /\ (safeName "my vim" = safeName "my-vim"
      <-> same_up_to_space_hyphen "my vim" "my-vim" = true)
  /\ (Contains "my vim" " " = false -> Contains "my-vim" " " = false ->
      safeName "my vim" = safeName "my-vim" -> "my vim" = "my-vim").
Proof.
  assert (V1 : valid "my vim") by (vm_compute; reflexivity).
  assert (V2 : valid "my-vim") by (vm_compute; reflexivity).
  split; [exact V1|]. split; [exact V2|].
  apply (safeName_injective_up_to_space_hyphen "my vim" "my-vim" V1 V2).
Defined.

(** C8, as stated, fails: ["a b"] and ["a-b"] are two distinct names, the
    validator accepts both, [AddSyncItem] registers both, and they share one
    slug and one cloud path. *)
Lemma safeName_collision :
  valid "a b" /\ valid "a-b" /\ "a b" <> "a-b"
  /\ (exists s1 s2,
        AddSyncItem NewSyncItemsData "a b" "file" ∅ [] = inr s1
        /\ AddSyncItem s1 "a-b" "file" ∅ [] = inr s2
        /\ map Name (SyncItems s2) = ["a b"; "a-b"])
  /\ safeName "a b" = safeName "a-b"
  /\ GetCloudPath {| Name := "a b"; Type_ := "file"; Paths := ∅; ExcludePatterns := [] |}
       "/cloud/configs"
     = GetCloudPath {| Name := "a-b"; Type_ := "file"; Paths := ∅; ExcludePatterns := [] |}
         "/cloud/configs".
Proof.
  split; [vm_compute; reflexivity|].
  split; [vm_compute; reflexivity|].
  split; [discriminate|].
  split; [|split; vm_compute; reflexivity].
  eexists _, _. split; [vm_compute; reflexivity|].
  split; vm_compute; reflexivity.
Qed.

(** C9: the validator accepts a name with a tab inside, a byte outside the
    set of letters, digits, space, dot, underscore and hyphen that the
    validator's own comment and message give. *)
Theorem ValidateName_accepts_tab :
  let name := String "a" (String (byte 9) (String "b" EmptyString)) in
  ValidateName NewNameValidator name = None
  /\ all_bytes specClass name = false
  /\ spec_refuses name = true.
Proof. vm_compute. repeat split; reflexivity. Qed.

End ValidationFacts.
(* ===================================================================== *)
(** ** The hash cache                                                    *)
(* ===================================================================== *)

Module CacheFacts.
Import Cache.
Local Open Scope Z_scope.

(** Within the range of a [Duration] the age is the plain difference. *)
Lemma Since_exact (now t : Z) :
  Time.minDuration <= now - t <= Time.maxDuration -> Time.Since now t = now - t.
Proof.
  intros [Hlo Hhi]. unfold Time.Since, Time.Sub.
  destruct (Z.ltb_spec Time.maxDuration (now - t)); [lia|].
  destruct (Z.ltb_spec (now - t) Time.minDuration); [lia|reflexivity].
Qed.

Lemma Get_hit (hc : HashCache) (now : Z) (fs : gmap string FS.File)
    (filePath h : string) :
  Get hc now fs filePath = (h, true) <->
  exists entry, entries hc !! filePath = Some entry
    /\ entry_valid hc now fs filePath entry /\ h = Hash entry.
Proof.
  unfold Get, entry_valid. destruct (entries hc !! filePath) as [entry|].
  - destruct (Z.ltb_spec (maxAge hc) (Time.Since now (CachedAt entry))) as [Hold|Hage].
    { split; [discriminate|]. intros (e & [= <-] & [Hle _] & _). lia. }
    destruct (FS.Stat fs filePath) as [fileInfo|msg].
    + destruct (Z.eqb_spec (FS.Size fileInfo) (Size entry)) as [Hs|Hs]; simpl.
      * destruct (Z.eqb_spec (FS.ModTime fileInfo) (ModTime entry)) as [Hm|Hm]; simpl.
        -- split.
           ++ intros [= <-]. exists entry. repeat split; eauto.
           ++ intros (e & [= <-] & _ & ->). reflexivity.
        -- split; [discriminate|].
           intros (e & [= <-] & [_ (fi & [= <-] & _ & Hm')] & _). contradiction.
      * split; [discriminate|].
        intros (e & [= <-] & [_ (fi & [= <-] & Hs' & _)] & _). contradiction.
    + split; [discriminate|].
      intros (e & _ & [_ (fi & Hfi & _)] & _). discriminate.
  - split; [discriminate|]. intros (e & He & _). discriminate.
Qed.

Lemma Get_miss_empty (hc : HashCache) (now : Z) (fs : gmap string FS.File)
    (filePath h : string) :
  Get hc now fs filePath = (h, false) -> h = EmptyString.
Proof.
  unfold Get. repeat case_match; intros [= <-]; reflexivity.
Qed.

Lemma Get_miss (hc : HashCache) (now : Z) (fs : gmap string FS.File)
    (filePath : string) :
  (forall entry, entries hc !! filePath = Some entry ->
                 ~ entry_valid hc now fs filePath entry) ->
  Get hc now fs filePath = (EmptyString, false).
Proof.
  intros Hinv. destruct (Get hc now fs filePath) as [h [|]] eqn:E.
  - apply Get_hit in E as (entry & He & Hv & _). destruct (Hinv entry He Hv).
  - apply Get_miss_empty in E as ->. reflexivity.
Qed.

Lemma Stat_of_ReadAll (fs : gmap string FS.File) (name bytes : string) :
  FS.ReadAll fs name = Ok bytes ->
  exists f, fs !! name = Some f /\ FS.data f = bytes /\ FS.Stat fs name = Ok (FS.info f).
Proof.
  unfold FS.ReadAll, FS.Stat. destruct (fs !! name) as [f|]; [|discriminate].
  destruct (FS.isDir f); [discriminate|]. intros [= <-]. eauto.
Qed.

(** C5: [Get] returns a hash exactly when the entry exists and its validity
    predicate holds (age at most [maxAge], same size and same mtime in the
    current stat), and then it is the cached hash; in every other case [Get]
    returns nothing and [GetOrCalculate] hashes the bytes of the file again
    and stores the result with the file's size and mtime.  The age is the
    [Duration] of [time.Since]: the difference of the two instants wherever
    an int64 of nanoseconds holds it. *)
Theorem Get_iff_entry_valid (hc : HashCache) (now stamp : Z)
    (fs : gmap string FS.File) (filePath : string) :
  (forall h, Get hc now fs filePath = (h, true) <->
     exists entry, entries hc !! filePath = Some entry
       /\ entry_valid hc now fs filePath entry /\ h = Hash entry)
  /\ (forall entry, Time.minDuration <= now - CachedAt entry <= Time.maxDuration ->
        (entry_valid hc now fs filePath entry <->
         now - CachedAt entry <= maxAge hc
         /\ exists fileInfo, FS.Stat fs filePath = Ok fileInfo
              /\ FS.Size fileInfo = Size entry /\ FS.ModTime fileInfo = ModTime entry))
  /\ (forall entry, entries hc !! filePath = Some entry ->
        entry_valid hc now fs filePath entry ->
        GetOrCalculate hc now stamp fs filePath = (Ok (Hash entry), hc))
  /\ ((forall entry, entries hc !! filePath = Some entry ->
         ~ entry_valid hc now fs filePath entry) ->
      Get hc now fs filePath = (EmptyString, false)
      /\ match FS.ReadAll fs filePath with
         | Ok bytes =>
             exists f, fs !! filePath = Some f /\
               GetOrCalculate hc now stamp fs filePath
               = (Ok ("sha256:" +:+ SHA256.hex bytes),
                  Set_ hc stamp filePath ("sha256:" +:+ SHA256.hex bytes)
                    (Z.of_nat (String.length bytes)) (FS.modTime f))
         | Err e => GetOrCalculate hc now stamp fs filePath = (Err e, hc)
         end).
Proof.
  split; [intros h; apply Get_hit|]. split.
  { intros entry Hr. unfold entry_valid. rewrite (Since_exact _ _ Hr). reflexivity. }
  split.
  - intros entry He Hv. unfold GetOrCalculate.
    assert (Hg : Get hc now fs filePath = (Hash entry, true)).
    { apply Get_hit. eauto. }
    rewrite Hg. reflexivity.
  - intros Hinv. pose proof (Get_miss hc now fs filePath Hinv) as Hg.
    split; [exact Hg|]. unfold GetOrCalculate, calculateFileHash. rewrite Hg.
    destruct (FS.ReadAll fs filePath) as [bytes|e] eqn:Hr; simpl; [|reflexivity].
    apply Stat_of_ReadAll in Hr as (f & Hf & <- & ->). exists f. split; [exact Hf|].
    reflexivity.
Qed.

(** A fresh entry is served; a change of size or of mtime hides it. *)
Example Get_after_Set :
  let fs : gmap string FS.File := {[ "/t/local/vimrc" := FS.regular "set ts=4" 1000 420 ]} in
  let hc := Set_ (NewHashCache 3600000000000) 2000 "/t/local/vimrc" "sha256:H1" 8 1000 in
  Get hc 2500 fs "/t/local/vimrc" = ("sha256:H1", true)
  /\ Get hc (2000 + 3600000000001) fs "/t/local/vimrc" = (EmptyString, false)
  /\ Get hc 2500 (<["/t/local/vimrc" := FS.regular "set ts=4" 1001 420]> fs) "/t/local/vimrc"
     = (EmptyString, false)
  /\ Get hc 2500 (<["/t/local/vimrc" := FS.regular "set ts=44" 1000 420]> fs) "/t/local/vimrc"
     = (EmptyString, false)
  /\ Get hc 2500 ∅ "/t/local/vimrc" = (EmptyString, false).
Proof. vm_compute. repeat split; reflexivity. Qed.

End CacheFacts.
(* ===================================================================== *)
(** ** Paths: the last element of a cleaned path                         *)
(* ===================================================================== *)

Module PathFacts.
Import Path.
#[local] Arguments String.append : simpl nomatch.

Definition noslash (s : string) : Prop :=
  Validation.all_bytes (fun c => negb (Ascii.eqb c slash)) s = true.

Lemma noslash_cons (c : ascii) (s : string) :
  noslash (String c s) <-> Ascii.eqb c slash = false /\ noslash s.
Proof.
  unfold noslash. simpl. rewrite andb_true_iff, negb_true_iff. tauto.
Qed.

Lemma noslash_app (a b : string) : noslash a -> noslash b -> noslash (a +:+ b).
Proof.
  induction a as [|c a IH]; [simpl; tauto|].
  change (String c a +:+ b) with (String c (a +:+ b)).
  rewrite !noslash_cons. intros [Hc Ha] Hb. split; auto.
Qed.

Lemma append_length (a b : string) :
  String.length (a +:+ b) = (String.length a + String.length b)%nat.
Proof. induction a as [|c a IH]; simpl; [reflexivity|]. rewrite IH. reflexivity. Qed.

Lemma append_assoc (a b c : string) : (a +:+ b) +:+ c = a +:+ (b +:+ c).
Proof. induction a as [|x a IH]; simpl; congruence. Qed.

Lemma append_empty_r (a : string) : a +:+ "" = a.
Proof. induction a as [|x a IH]; simpl; congruence. Qed.

(** *** [split] *)

Lemma split_nonempty (s : string) : split s <> [].
Proof.
  induction s as [|c r IH]; simpl; [discriminate|].
  destruct (Ascii.eqb c slash); [discriminate|].
  destruct (split r); [contradiction|discriminate].
Qed.

Lemma split_noslash (s : string) : noslash s -> split s = [s].
Proof.
  induction s as [|c r IH]; simpl; [reflexivity|].
  rewrite noslash_cons. intros [-> Hr]. rewrite (IH Hr). reflexivity.
Qed.

Lemma split_elements (s : string) : Forall noslash (split s).
Proof.
  induction s as [|c r IH]; simpl.
  - constructor; [reflexivity|constructor].
  - destruct (Ascii.eqb c slash) eqn:Hc.
    + constructor; [reflexivity|exact IH].
    + destruct (split r) as [|e es]; [constructor; [|constructor]|].
      * apply noslash_cons. split; [exact Hc|reflexivity].
      * inversion IH; subst. constructor; [|assumption].
        apply noslash_cons. split; assumption.
Qed.

(** The elements of [a/b] are those of [a], then those of [b]. *)
Lemma split_slash (a b : string) :
  split (a +:+ String slash b) = split a ++ split b.
Proof.
  induction a as [|c a IH]; simpl.
  - reflexivity.
  - rewrite IH. destruct (Ascii.eqb c slash); [reflexivity|].
    destruct (split a) as [|e es] eqn:E; [destruct (split_nonempty a E)|].
    reflexivity.
Qed.

(** Text without a separator extends the last element. *)
Lemma split_append_noslash (u v : string) :
  noslash v ->
  exists init e, split u = init ++ [e] /\ split (u +:+ v) = init ++ [e +:+ v].
Proof.
  intros Hv. induction u as [|c u IH]; simpl.
  - exists [], EmptyString. rewrite (split_noslash v Hv). split; reflexivity.
  - destruct IH as (init & e & Hu & Huv). rewrite Hu, Huv.
    destruct (Ascii.eqb c slash).
    + exists (EmptyString :: init), e. split; reflexivity.
    + destruct init as [|i init]; simpl.
      * exists [], (String c e). split; reflexivity.
      * exists (String c i :: init), e. split; reflexivity.
Qed.

(** *** [Clean] keeps a last element that is a name *)

Definition is_name (z : string) : Prop :=
  noslash z /\ z <> "" /\ z <> "." /\ z <> "..".

Lemma clean_step_name (root : bool) (out : list string) (z : string) :
  is_name z -> clean_step root out z = z :: out.
Proof.
  intros (_ & H0 & H1 & H2). unfold clean_step.
  apply ValidationFacts.eqb_false in H0, H1, H2. rewrite H0, H1, H2. reflexivity.
Qed.

Lemma Join_snoc (l : list string) (z : string) :
  Strs.Join (l ++ [z]) "/"
  = match l with [] => z | _ => Strs.Join l "/" +:+ String slash z end.
Proof.
  induction l as [|a l IH]; [reflexivity|].
  destruct l as [|b l].
  - simpl. reflexivity.
  - change (Strs.Join ((a :: b :: l) ++ [z]) "/")
      with (a +:+ "/" +:+ Strs.Join ((b :: l) ++ [z]) "/").
    rewrite IH.
    change (Strs.Join (a :: b :: l) "/") with (a +:+ "/" +:+ Strs.Join (b :: l) "/").
    rewrite !append_assoc. reflexivity.
Qed.

(** A cleaned path whose last element is a name is that name, or ends with
    a separator and that name. *)
Lemma Clean_ends_with_name (p : string) (init : list string) (z : string) :
  split p = init ++ [z] -> is_name z ->
  Clean p = z \/ exists a, Clean p = a +:+ String slash z.
Proof.
  intros Hp Hz. unfold Clean.
  destruct (Strs.eqb p "") eqn:E.
  { apply ValidationFacts.eqb_true in E. subst p. simpl in Hp.
    destruct init as [|i [|j init]]; simpl in Hp; try discriminate.
    injection Hp as <-. destruct Hz as (_ & H & _). contradiction. }
  rewrite Hp, fold_left_app. simpl.
  rewrite (clean_step_name _ _ _ Hz). simpl rev.
  set (out := rev (fold_left (clean_step (rooted p)) init [])).
  rewrite Join_snoc.
  destruct (rooted p).
  - destruct out as [|o out']; [right; exists EmptyString; reflexivity|].
    right. exists (String slash (Strs.Join (o :: out') "/")). reflexivity.
  - destruct out as [|o out'] eqn:Eo; simpl app.
    + left. reflexivity.
    + right. eexists. reflexivity.
Qed.

(** *** [Base] of a path that ends with a name *)

Lemma cut_last_noslash (z : string) : noslash z -> cut_last z = (EmptyString, z).
Proof.
  induction z as [|c z IH]; simpl; [reflexivity|].
  rewrite noslash_cons. intros [Hc Hz]. rewrite (IH Hz), Hc. reflexivity.
Qed.

Lemma cut_last_slash (a z : string) :
  noslash z -> cut_last (a +:+ String slash z) = (a +:+ String slash "", z).
Proof.
  intros Hz. induction a as [|c a IH]; simpl.
  - rewrite (cut_last_noslash z Hz). reflexivity.
  - rewrite IH. destruct a; reflexivity.
Qed.

Lemma strip_slashes_noslash (z : string) : noslash z -> strip_slashes z = z.
Proof.
  induction z as [|c z IH]; simpl; [reflexivity|].
  rewrite noslash_cons. intros [Hc Hz]. rewrite (IH Hz), Hc. destruct z; reflexivity.
Qed.

Lemma strip_slashes_name (a z : string) :
  noslash z -> z <> "" -> strip_slashes (a +:+ z) = a +:+ z.
Proof.
  intros Hz Hne. induction a as [|c a IH]; simpl.
  - apply strip_slashes_noslash, Hz.
  - rewrite IH. destruct (a +:+ z) eqn:E; [|reflexivity].
    destruct a; simpl in E; [contradiction|discriminate].
Qed.

Lemma Base_name (z : string) : is_name z -> Base z = z.
Proof.
  intros (Hz & Hne & _). unfold Base.
  apply ValidationFacts.eqb_false in Hne as E. rewrite E.
  rewrite (strip_slashes_noslash z Hz), E, (cut_last_noslash z Hz). reflexivity.
Qed.

Lemma Base_slash_name (a z : string) : is_name z -> Base (a +:+ String slash z) = z.
Proof.
  intros (Hz & Hne & _). unfold Base.
  assert (E : Strs.eqb (a +:+ String slash z) "" = false).
  { apply ValidationFacts.eqb_false. destruct a; discriminate. }
  rewrite E.
  change (a +:+ String slash z) with (a +:+ ("/" +:+ z)).
  rewrite <- append_assoc, (strip_slashes_name _ z Hz Hne), append_assoc.
  change (a +:+ "/" +:+ z) with (a +:+ String slash z).
  rewrite E, (cut_last_slash a z Hz). reflexivity.
Qed.

Lemma Base_Clean_name (p : string) (init : list string) (z : string) :
  split p = init ++ [z] -> is_name z -> Base (Clean p) = z.
Proof.
  intros Hp Hz. destruct (Clean_ends_with_name p init z Hp Hz) as [->|[a ->]].
  - apply Base_name, Hz.
  - apply Base_slash_name, Hz.
Qed.

(** *** The temporary path differs from its target *)

(** [Join [dir; x]] cleans a text whose elements end with those of [x]. *)
Lemma Join_dir_split (dir x : string) :
  x <> "" ->
  exists p init, Join [dir; x] = Clean p /\ split p = init ++ split x.
Proof.
  intros Hx. unfold Join.
  apply ValidationFacts.eqb_false in Hx as Ex. rewrite Ex.
  destruct (Strs.eqb dir "") eqn:Ed.
  - exists (Strs.Join [x] "/"), []. split; reflexivity.
  - exists (dir +:+ String slash x), (split dir). split; [reflexivity|].
    apply split_slash.
Qed.

Lemma name_of_long (z : string) :
  noslash z -> (3 <= String.length z)%nat -> is_name z.
Proof.
  intros Hz Hl. repeat split; [exact Hz| | |]; intros ->; simpl in Hl; lia.
Qed.

(** The path of a dot file [.name.tmp.suffix] in some directory ends with a
    name that ends with [.tmp.suffix]. *)
Lemma Join_dotfile_shape (dir b suffix : string) :
  noslash suffix ->
  exists e, noslash e /\
    (exists init, split ("." +:+ b) = init ++ [e]) /\
    is_name (e +:+ ".tmp." +:+ suffix) /\
    Base (Join [dir; "." +:+ b +:+ ".tmp." +:+ suffix]) = e +:+ ".tmp." +:+ suffix /\
    Join [dir; "." +:+ b +:+ ".tmp." +:+ suffix] <> "".
Proof.
  intros Hs.
  set (y := "." +:+ b +:+ ".tmp." +:+ suffix).
  assert (Hy : y <> "") by discriminate.
  destruct (Join_dir_split dir y Hy) as (p & init & Hj & Hp).
  assert (Hv : noslash (".tmp." +:+ suffix)).
  { apply (noslash_app ".tmp." suffix); [reflexivity|exact Hs]. }
  destruct (split_append_noslash ("." +:+ b) (".tmp." +:+ suffix) Hv)
    as (i2 & e & He & Hy2).
  change (("." +:+ b) +:+ ".tmp." +:+ suffix) with y in Hy2.
  rewrite Hy2, app_assoc in Hp.
  assert (Hen : noslash e).
  { pose proof (split_elements ("." +:+ b)) as F. rewrite He in F.
    apply Forall_app in F as [_ F]. inversion F; assumption. }
  assert (Hz : is_name (e +:+ ".tmp." +:+ suffix)).
  { apply name_of_long; [apply noslash_app; assumption|].
    rewrite append_length. simpl. lia. }
  exists e. split; [exact Hen|]. split; [eauto|]. split; [exact Hz|].
  rewrite Hj. split; [apply (Base_Clean_name p _ _ Hp Hz)|].
  destruct (Clean_ends_with_name p _ _ Hp Hz) as [->|[a ->]].
  - apply Hz.
  - destruct a; discriminate.
Qed.

(** A dot file [.name.tmp.suffix] in some directory is never the path
    [name] was taken from. *)
Lemma Join_dotfile_differs (dir target suffix : string) :
  noslash suffix ->
  Join [dir; "." +:+ Base target +:+ ".tmp." +:+ suffix] <> target.
Proof.
  intros Hs Heq.
  destruct (Join_dotfile_shape dir (Base target) suffix Hs)
    as (e & Hen & (i2 & He) & Hz & HB & _).
  rewrite Heq in HB.
  (* the base has no separator, so the dot file is one element *)
  assert (Hb : noslash (Base target)).
  { rewrite HB. apply Hz. }
  assert (Hdb : noslash ("." +:+ Base target)).
  { apply (noslash_app "." (Base target)); [reflexivity|exact Hb]. }
  rewrite (split_noslash _ Hdb) in He.
  destruct i2 as [|? [|? ?]]; simpl in He; try discriminate.
  injection He as <-.
  apply (f_equal String.length) in HB. simpl in HB.
  rewrite append_length in HB. simpl in HB. lia.
Qed.

End PathFacts.
(* ===================================================================== *)
(** ** The file system: what each call changes for a reader              *)
(* ===================================================================== *)

Module FSFacts.
Import FS.
Local Open Scope Z_scope.

(** *** What exists *)

Lemma PathExists_Some (fs : gmap string File) (name : string) (f : File) :
  fs !! name = Some f -> PathExists fs name = true.
Proof. unfold PathExists. intros ->. reflexivity. Qed.

(** A path is absent for [PathExists] when it is not there and no regular
    file is in its way. *)
Lemma PathExists_false (fs : gmap string File) (name : string) :
  PathExists fs name = false <-> fs !! name = None /\ below_file fs name = false.
Proof.
  unfold PathExists. destruct (fs !! name); split; try discriminate; auto.
  - intros [[=] _].
  - intros [_ H]. exact H.
Qed.

Lemma PathExists_true (fs : gmap string File) (name : string) :
  PathExists fs name = true
  <-> (exists f, fs !! name = Some f) \/ (fs !! name = None /\ below_file fs name = true).
Proof.
  unfold PathExists. destruct (fs !! name) as [f|]; split; eauto.
  - intros [[f' [=]]|[_ H]]; exact H.
Qed.

Lemma Open_Ok (fs : gmap string File) (name : string) (f : File) :
  Open fs name = Ok f <-> fs !! name = Some f.
Proof.
  unfold Open. destruct (fs !! name); split; intros [=]; subst; reflexivity.
Qed.

Lemma Open_Err (fs : gmap string File) (name e : string) :
  Open fs name = Err e <-> fs !! name = None /\ e = missing fs "open" name.
Proof.
  unfold Open. destruct (fs !! name); split; try discriminate.
  - intros [[=] _].
  - intros [= <-]. auto.
  - intros [_ ->]. reflexivity.
Qed.

(** Where no regular file is in the way the error is ENOENT. *)
Lemma missing_ENOENT (fs : gmap string File) (op name : string) :
  below_file fs name = false ->
  missing fs op name = op +:+ " " +:+ name +:+ ": no such file or directory".
Proof. unfold missing, errno. intros ->. reflexivity. Qed.

Lemma missing_ENOTDIR (fs : gmap string File) (op name : string) :
  below_file fs name = true ->
  missing fs op name = op +:+ " " +:+ name +:+ ": not a directory".
Proof. unfold missing, errno. intros ->. reflexivity. Qed.

(** *** What each call changes *)

Lemma contents_insert_eq (fs : gmap string File) (name : string) (f : File) :
  contents (<[name := f]> fs) name = if isDir f then None else Some (data f).
Proof. unfold contents. rewrite lookup_insert_eq. reflexivity. Qed.

Lemma contents_insert_ne (fs : gmap string File) (name p : string) (f : File) :
  p <> name -> contents (<[name := f]> fs) p = contents fs p.
Proof. intros H. unfold contents. rewrite lookup_insert_ne by congruence. reflexivity. Qed.

Lemma contents_delete_eq (fs : gmap string File) (name : string) :
  contents (delete name fs) name = None.
Proof. unfold contents. rewrite lookup_delete_eq. reflexivity. Qed.

Lemma contents_delete_ne (fs : gmap string File) (name p : string) :
  p <> name -> contents (delete name fs) p = contents fs p.
Proof. intros H. unfold contents. rewrite lookup_delete_ne by congruence. reflexivity. Qed.

(** A new directory where nothing was shows no file to any reader. *)
Lemma contents_insert_directory (fs : gmap string File) (name p : string) (now mode : Z) :
  contents fs name = None ->
  contents (<[name := directory now mode]> fs) p = contents fs p.
Proof.
  intros H. destruct (decide (p = name)) as [->|Hne].
  - rewrite contents_insert_eq, H. reflexivity.
  - apply contents_insert_ne, Hne.
Qed.

Lemma contents_absent (fs : gmap string File) (name : string) :
  fs !! name = None -> contents fs name = None.
Proof. unfold contents. intros ->. reflexivity. Qed.

Lemma contents_MkdirAll_go (fuel : nat) (fs fs' : gmap string File)
    (now : Z) (path : string) (mode : Z) :
  MkdirAll_go fuel fs now path mode = Ok fs' ->
  forall p, contents fs' p = contents fs p.
Proof.
  revert fs' path. induction fuel as [|n IH]; intros fs' path; simpl.
  - destruct (fs !! path) as [f|] eqn:E.
    + destruct (isDir f); [|discriminate]. intros [= <-] p. reflexivity.
    + intros [= <-] p. apply contents_insert_directory, contents_absent, E.
  - destruct (fs !! path) as [f|] eqn:E.
    + destruct (isDir f); [|discriminate]. intros [= <-] p. reflexivity.
    + destruct (Strs.eqb (Path.Dir path) path).
      * intros [= <-] p. apply contents_insert_directory, contents_absent, E.
      * destruct (MkdirAll_go n fs now (Path.Dir path) mode) as [fs1|] eqn:E1;
          simpl; [|discriminate].
        intros [= <-] p. specialize (IH _ _ E1).
        rewrite contents_insert_directory; [apply IH|].
        rewrite IH. apply contents_absent, E.
Qed.

(** [MkdirAll] changes no file. *)
Lemma contents_MkdirAll (fs fs' : gmap string File) (now : Z) (path : string) (mode : Z) :
  MkdirAll fs now path mode = Ok fs' -> forall p, contents fs' p = contents fs p.
Proof. apply contents_MkdirAll_go. Qed.

Lemma OpenExcl_Ok (fs fs' : gmap string File) (now : Z) (name : string) (mode : Z) :
  OpenExcl fs now name mode = Ok fs' ->
  fs !! name = None /\ fs' = <[name := regular EmptyString now mode]> fs.
Proof.
  unfold OpenExcl. destruct (fs !! name); [discriminate|].
  destruct (is_dir fs (Path.Dir name)); [|discriminate]. intros [= <-]. auto.
Qed.

Lemma Append_Ok (fs fs' : gmap string File) (now : Z) (name bytes : string) :
  Append fs now name bytes = Ok fs' ->
  exists f, fs !! name = Some f /\ isDir f = false
    /\ fs' = <[name := regular (data f +:+ bytes) now (perm f)]> fs.
Proof.
  unfold Append. destruct (fs !! name) as [f|]; [|discriminate].
  destruct (isDir f) eqn:E; [discriminate|]. intros [= <-]. eauto.
Qed.

Lemma Create_Ok (fs fs' : gmap string File) (now : Z) (name : string) :
  Create fs now name = Ok fs' ->
  exists mode, fs' = <[name := regular EmptyString now mode]> fs
    /\ contents fs' name = Some EmptyString.
Proof.
  unfold Create. destruct (fs !! name) as [f|].
  - destruct (isDir f); [discriminate|]. intros [= <-]. eexists. split; [reflexivity|].
    apply contents_insert_eq.
  - destruct (is_dir fs (Path.Dir name)); [|discriminate]. intros [= <-].
    eexists. split; [reflexivity|]. apply contents_insert_eq.
Qed.

Lemma Remove_Ok (fs fs' : gmap string File) (name : string) :
  Remove fs name = Ok fs' -> fs' = delete name fs.
Proof. unfold Remove. destruct (fs !! name); [|discriminate]. intros [= <-]. reflexivity. Qed.

Lemma Rename_Ok (fs fs' : gmap string File) (oldpath newpath : string) :
  Rename fs oldpath newpath = Ok fs' ->
  exists f, fs !! oldpath = Some f /\ fs' = <[newpath := f]> (delete oldpath fs).
Proof.
  unfold Rename. destruct (fs !! oldpath) as [f|]; [|discriminate].
  destruct (is_dir fs newpath && negb (isDir f)); [discriminate|].
  intros [= <-]. eauto.
Qed.

Lemma Chmod_contents (fs fs' : gmap string File) (name : string) (mode : Z) :
  Chmod fs name mode = Ok fs' -> forall p, contents fs' p = contents fs p.
Proof.
  unfold Chmod. destruct (fs !! name) as [f|] eqn:E; [|discriminate].
  intros [= <-] p. destruct (decide (p = name)) as [->|Hne].
  - rewrite contents_insert_eq. unfold contents. rewrite E. reflexivity.
  - apply contents_insert_ne, Hne.
Qed.

End FSFacts.
(* ===================================================================== *)
(** ** The atomic writer                                                 *)
(* ===================================================================== *)

Module AtomicFacts.
Import Atomic FS FSFacts PathFacts.
Local Open Scope Z_scope.

(** *** The temporary path *)

Lemma hexdigit_noslash (n : Z) :
  0 <= n < 16 -> Ascii.eqb (SHA256.hexdigit n) Path.slash = false.
Proof.
  intros H. rewrite <- (Z2Nat.id n) by lia.
  assert (Hk : (Z.to_nat n < 16)%nat) by lia.
  revert Hk. generalize (Z.to_nat n). clear. intros k Hk.
  do 16 (destruct k as [|k]; [reflexivity|]). lia.
Qed.

Lemma hex_bytes_noslash (bs : list Z) : noslash (hex_bytes bs).
Proof.
  induction bs as [|b r IH]; [reflexivity|]. cbn [hex_bytes].
  apply noslash_cons. split; [apply hexdigit_noslash, Z.mod_pos_bound; lia|].
  apply noslash_cons. split; [apply hexdigit_noslash, Z.mod_pos_bound; lia|exact IH].
Qed.

Lemma digit_noslash (n : nat) : Ascii.eqb (Strs.byte (48 + n mod 10)) Path.slash = false.
Proof.
  pose proof (Nat.mod_upper_bound n 10 ltac:(lia)) as H.
  remember (n mod 10)%nat as k eqn:Ek. clear Ek.
  do 10 (destruct k as [|k]; [reflexivity|]). lia.
Qed.

Lemma itoa_go_noslash (fuel n : nat) (acc : string) :
  noslash acc -> noslash (Strs.itoa_go fuel n acc).
Proof.
  revert n acc. induction fuel as [|f IH]; intros n acc Ha; simpl; [exact Ha|].
  assert (Hc : noslash (String (Strs.byte (48 + n mod 10)) acc)).
  { apply noslash_cons. split; [apply digit_noslash|exact Ha]. }
  destruct (n <? 10)%nat; [exact Hc|]. apply IH, Hc.
Qed.

Lemma suffix_noslash (e : Entropy) (now : Z) : noslash (suffix_of e now).
Proof.
  destruct e as [bs|]; simpl; [apply hex_bytes_noslash|].
  unfold Strs.itoaZ, Strs.itoa. destruct (now <? 0).
  - apply (noslash_app "-"); [reflexivity|]. apply itoa_go_noslash. reflexivity.
  - apply itoa_go_noslash. reflexivity.
Qed.

(** The temporary file is never the target itself, and it has a name. *)
Lemma generateTempPath_differs (e : Entropy) (now : Z) (target : string) :
  generateTempPath e now target <> target.
Proof. apply Join_dotfile_differs, suffix_noslash. Qed.

Lemma generateTempPath_nonempty (e : Entropy) (now : Z) (target : string) :
  generateTempPath e now target <> "".
Proof.
  destruct (Join_dotfile_shape (Path.Dir target) (Path.Base target)
              (suffix_of e now) (suffix_noslash e now)) as (z & _ & _ & _ & _ & H).
  exact H.
Qed.

(** *** What a reader sees while a write goes on *)

Section Writer.
Variables (fs0 : gmap string File) (target temp bytes : string).
Hypothesis temp_differs : temp <> target.
Hypothesis temp_named : temp <> "".

(** Every file reads as before the call. *)
Definition untouched (st : gmap string File) : Prop :=
  forall p, contents st p = contents fs0 p.

(** Every file but the temporary one reads as before the call. *)
Definition staged (st : gmap string File) : Prop :=
  forall p, p <> temp -> contents st p = contents fs0 p.

(** The target reads as the new bytes; every other file as before. *)
Definition replaced (st : gmap string File) : Prop :=
  contents st target = Some bytes
  /\ forall p, p <> target -> contents st p = contents fs0 p.

Definition atomic_view (st : gmap string File) : Prop := staged st \/ replaced st.

Definition Good (s : Sys) : Prop :=
  atomic_view (files s) /\ Forall atomic_view (seen s).

Lemma untouched_staged (st : gmap string File) : untouched st -> staged st.
Proof. intros H p _. apply H. Qed.

Lemma atomic_view_target (st : gmap string File) :
  atomic_view st ->
  contents st target = contents fs0 target \/ contents st target = Some bytes.
Proof.
  intros [H|[H _]]; [left|right; exact H]. apply H. congruence.
Qed.

Lemma Good_sys (s s' : Sys) (r : res (gmap string File)) (out : res unit) :
  Good s -> sys s r = (out, s') ->
  (forall st, r = Ok st -> atomic_view st) ->
  Good s' /\ clock s' = clock s
  /\ match r with
     | Ok st => files s' = st /\ out = Ok tt
     | Err e => s' = s /\ out = Err e
     end.
Proof.
  intros [Hf Hs] Hsys Hr. unfold sys in Hsys. destruct r as [st|e].
  - injection Hsys as <- <-. simpl. repeat split; auto.
    constructor; auto.
  - injection Hsys as <- <-. repeat split; auto.
Qed.

Lemma faulty_Ok (flag : bool) (what : string) (r : res (gmap string File))
    (st : gmap string File) :
  faulty flag what r = Ok st -> flag = false /\ r = Ok st.
Proof. unfold faulty. destruct flag; [discriminate|auto]. Qed.

(** The temporary file holds [d] and nothing else changed. *)
Definition holding (d : string) (st : gmap string File) : Prop :=
  staged st /\ contents fs0 temp = None
  /\ exists f, st !! temp = Some f /\ isDir f = false /\ data f = d.

Lemma staged_insert_temp (st : gmap string File) (f : File) :
  staged st -> staged (<[temp := f]> st).
Proof. intros H p Hp. rewrite contents_insert_ne by exact Hp. apply H, Hp. Qed.

Lemma staged_delete_temp (st : gmap string File) :
  staged st -> contents fs0 temp = None -> untouched (delete temp st).
Proof.
  intros H H0 p. destruct (decide (p = temp)) as [->|Hp].
  - rewrite contents_delete_eq, H0. reflexivity.
  - rewrite contents_delete_ne by exact Hp. apply H, Hp.
Qed.

(** The rename is the one step that changes the target, and it changes it
    to the whole of the new bytes. *)
Lemma holding_Rename (st st' : gmap string File) :
  holding bytes st -> Rename st temp target = Ok st' -> replaced st'.
Proof.
  intros (Hst & H0 & f & Hf & Hd & Hb) Hr.
  apply Rename_Ok in Hr as (f' & Hf' & ->). rewrite Hf in Hf'. injection Hf' as <-.
  split.
  - rewrite contents_insert_eq, Hd, Hb. reflexivity.
  - intros p Hp. rewrite contents_insert_ne by exact Hp.
    destruct (decide (p = temp)) as [->|Hpt].
    + rewrite contents_delete_eq, H0. reflexivity.
    + rewrite contents_delete_ne by exact Hpt. apply Hst, Hpt.
Qed.

Lemma NewFileWriter_post (ft : Faults) (e : Entropy) (s s1 : Sys) (mode : Z)
    (r : res FileWriter) :
  generateTempPath e (clock s) target = temp ->
  Good s -> untouched (files s) ->
  NewFileWriter ft e s target mode = (r, s1) ->
  Good s1
  /\ match r with
     | Err _ => untouched (files s1)
     | Ok w =>
         w = {| targetPath := target; tempPath := temp; tempFile := true;
                committed := false; permissions := mode |}
         /\ holding EmptyString (files s1)
     end.
Proof.
  intros Ht HG Hu. unfold NewFileWriter. rewrite Ht.
  destruct (sys s _) as [o1 sa] eqn:E1.
  assert (Hmk : forall st,
            faulty (fail_mkdir ft) "mkdir"
              (MkdirAll (files s) (clock s) (Path.Dir target) 493) = Ok st ->
            untouched st).
  { intros st Hst. apply faulty_Ok in Hst as [_ Hst].
    intros p. rewrite (contents_MkdirAll _ _ _ _ _ Hst). apply Hu. }
  destruct (Good_sys _ _ _ _ HG E1) as (HG1 & Hc1 & H1).
  { intros st Hst. left. apply untouched_staged, Hmk, Hst. }
  destruct (faulty (fail_mkdir ft) "mkdir" _) as [st1|err1] eqn:F1.
  2:{ destruct H1 as [-> ->]. intros [= <- <-]. split; assumption. }
  destruct H1 as [Hf1 ->]. specialize (Hmk st1 eq_refl). rewrite <- Hf1 in Hmk.
  destruct (sys sa _) as [o2 sb] eqn:E2.
  assert (Hop : forall st,
            faulty (fail_open ft) "open" (OpenExcl (files sa) (clock sa) temp mode) = Ok st ->
            holding EmptyString st).
  { intros st Hst. apply faulty_Ok in Hst as [_ Hst].
    apply OpenExcl_Ok in Hst as [Hnone ->]. split; [|split].
    - apply staged_insert_temp, untouched_staged, Hmk.
    - rewrite <- Hmk. apply contents_absent, Hnone.
    - eexists. rewrite lookup_insert_eq. split; [reflexivity|]. split; reflexivity. }
  destruct (Good_sys _ _ _ _ HG1 E2) as (HG2 & Hc2 & H2).
  { intros st Hst. left. apply (Hop st Hst). }
  destruct (faulty (fail_open ft) "open" _) as [st2|err2] eqn:F2.
  2:{ destruct H2 as [-> ->]. intros [= <- <-]. split; assumption. }
  destruct H2 as [Hf2 ->]. intros [= <- <-]. split; [exact HG2|].
  split; [reflexivity|]. rewrite Hf2. apply Hop. reflexivity.
Qed.

Lemma Write_post (ft : Faults) (fw : FileWriter) (s s1 : Sys) (r : res nat) :
  tempPath fw = temp -> tempFile fw = true ->
  Good s -> holding EmptyString (files s) ->
  Write ft fw s bytes = (r, s1) ->
  Good s1 /\ staged (files s1) /\ contents fs0 temp = None
  /\ (is_ok r = true -> holding bytes (files s1)).
Proof.
  intros Ht Ho HG (Hst & H0 & f & Hf & Hd & Hb). unfold Write. rewrite Ht, Ho. simpl.
  assert (Hap : forall d st, Append (files s) (clock s) temp d = Ok st -> holding d st).
  { intros d st Ha. apply Append_Ok in Ha as (f' & Hf' & Hd' & ->).
    rewrite Hf in Hf'. injection Hf' as <-. split; [|split].
    - apply staged_insert_temp, Hst.
    - exact H0.
    - eexists. rewrite lookup_insert_eq. split; [reflexivity|]. split; [reflexivity|].
      simpl. rewrite Hb. reflexivity. }
  destruct (fail_write ft) as [n|].
  - destruct (sys s _) as [o sa] eqn:E. intros [= <- <-].
    destruct (Good_sys _ _ _ _ HG E) as (HG1 & _ & H1).
    { intros st Hs. left. apply (Hap _ _ Hs). }
    split; [exact HG1|]. split; [|split; [exact H0|discriminate]].
    destruct (Append (files s) (clock s) temp _) as [st|err] eqn:Ea.
    + destruct H1 as [-> _]. apply (Hap _ _ Ea).
    + destruct H1 as [-> _]. exact Hst.
  - destruct (sys s _) as [o sa] eqn:E.
    destruct (Good_sys _ _ _ _ HG E) as (HG1 & _ & H1).
    { intros st Hs. left. apply (Hap _ _ Hs). }
    destruct (Append (files s) (clock s) temp bytes) as [st|err] eqn:Ea.
    + destruct H1 as [Hfs ->]. intros [= <- <-]. split; [exact HG1|].
      rewrite Hfs. pose proof (Hap _ _ Ea) as Hh. split; [apply Hh|].
      split; [exact H0|]. intros _. exact Hh.
    + destruct H1 as [-> ->]. intros [= <- <-]. split; [exact HG1|].
      split; [exact Hst|]. split; [exact H0|discriminate].
Qed.

(** A rollback leaves every other file alone and, when the system lets it
    remove the temporary file, leaves no trace at all. *)
Lemma Rollback_post (ft : Faults) (fw fw' : FileWriter) (s s1 : Sys) (r : res unit) :
  tempPath fw = temp ->
  Good s -> staged (files s) -> contents fs0 temp = None ->
  Rollback ft fw s = (r, fw', s1) ->
  Good s1 /\ staged (files s1)
  /\ (fail_remove ft = false -> untouched (files s1)).
Proof.
  intros Ht HG Hst H0. unfold Rollback. rewrite Ht.
  apply ValidationFacts.eqb_false in temp_named as ->.
  destruct (fail_remove ft).
  - intros [= <- <- <-]. split; [exact HG|]. split; [exact Hst|discriminate].
  - destruct (sys s _) as [o sa] eqn:E. intros [= <- <- <-].
    destruct (Good_sys _ _ _ _ HG E) as (HG1 & _ & H1).
    { intros st Hs. apply Remove_Ok in Hs as ->. left.
      apply untouched_staged, staged_delete_temp; assumption. }
    split; [exact HG1|].
    destruct (Remove (files s) temp) as [st|err] eqn:Er.
    + destruct H1 as [-> _]. apply Remove_Ok in Er as ->.
      pose proof (staged_delete_temp _ Hst H0) as Hu.
      split; [apply untouched_staged, Hu|]. intros _. exact Hu.
    + destruct H1 as [-> _]. split; [exact Hst|]. intros _ p.
      destruct (decide (p = temp)) as [->|Hp]; [|apply Hst, Hp].
      unfold Remove in Er. destruct (files s !! temp) eqn:El; [discriminate|].
      rewrite H0. apply contents_absent, El.
Qed.

Lemma Rollback_writer (ft : Faults) (fw fw' : FileWriter) (s s1 : Sys) (r : res unit) :
  Rollback ft fw s = (r, fw', s1) ->
  tempPath fw' = tempPath fw /\ committed fw' = committed fw /\ tempFile fw' = false.
Proof.
  unfold Rollback. repeat case_match; intros [= <- <- <-]; auto.
Qed.

Lemma Commit_post (ft : Faults) (fw fw' : FileWriter) (s s1 : Sys) (r : res unit) :
  fw = {| targetPath := target; tempPath := temp; tempFile := true;
          committed := false; permissions := permissions fw |} ->
  Good s -> holding bytes (files s) ->
  Commit ft fw s = (r, fw', s1) ->
  Good s1 /\ tempPath fw' = temp
  /\ match r with
     | Ok _ => committed fw' = true /\ replaced (files s1)
     | Err _ => committed fw' = false /\ tempFile fw' = false
                /\ staged (files s1) /\ contents fs0 temp = None
                /\ (fail_remove ft = false -> untouched (files s1))
     end.
Proof.
  intros Hfw HG Hh. pose proof Hh as (Hst & H0 & _).
  unfold Commit. rewrite Hfw. cbn [committed tempFile negb targetPath tempPath].
  destruct (fail_sync ft).
  { destruct (Rollback ft _ s) as [[o fwa] sa] eqn:E. intros [= <- <- <-].
    pose proof (Rollback_writer _ _ _ _ _ _ E) as (Hw1 & Hw2 & Hw3).
    eapply Rollback_post in E as (HG1 & Hs1 & Hu1);
      [|reflexivity|assumption|assumption|assumption].
    simpl in Hw1, Hw2. split; [exact HG1|]. repeat split; auto. }
  destruct (fail_close ft).
  { destruct (Rollback ft _ s) as [[o fwa] sa] eqn:E. intros [= <- <- <-].
    pose proof (Rollback_writer _ _ _ _ _ _ E) as (Hw1 & Hw2 & Hw3).
    eapply Rollback_post in E as (HG1 & Hs1 & Hu1);
      [|reflexivity|assumption|assumption|assumption].
    simpl in Hw1, Hw2. split; [exact HG1|]. repeat split; auto. }
  destruct (sys s _) as [o sa] eqn:E.
  destruct (Good_sys _ _ _ _ HG E) as (HG1 & _ & H1).
  { intros st Hs. apply faulty_Ok in Hs as [_ Hs]. right.
    apply (holding_Rename _ _ Hh Hs). }
  destruct (faulty (fail_rename ft) "rename" _) as [st|err] eqn:F.
  - destruct H1 as [Hf ->]. intros [= <- <- <-]. split; [exact HG1|].
    split; [reflexivity|]. split; [reflexivity|]. rewrite Hf.
    apply faulty_Ok in F as [_ F]. apply (holding_Rename _ _ Hh F).
  - destruct H1 as [-> ->].
    destruct (fail_remove ft) eqn:Frm.
    + intros [= <- <- <-]. split; [exact HG|]. repeat split; auto. discriminate.
    + destruct (sys s (Remove (files s) temp)) as [o2 sb] eqn:E2.
      intros [= <- <- <-]. simpl.
      destruct (Good_sys _ _ _ _ HG E2) as (HG2 & _ & H2).
      { intros st Hs. apply Remove_Ok in Hs as ->. left.
        apply untouched_staged, staged_delete_temp; assumption. }
      destruct (Remove (files s) temp) as [st|err2] eqn:Er.
      * destruct H2 as [Hf _]. apply Remove_Ok in Er as ->.
        pose proof (staged_delete_temp _ Hst H0) as Hu. rewrite <- Hf in Hu.
        split; [exact HG2|]. repeat split; auto using untouched_staged.
      * destruct H2 as [-> _]. destruct Hh as (_ & _ & f & Hf & _).
        unfold Remove in Er. rewrite Hf in Er. discriminate.
Qed.

End Writer.

Lemma Commit_twice (ft ft' : Faults) (fw fw' : FileWriter) (s s' : Sys) :
  Commit ft fw s = (Ok tt, fw', s') ->
  Commit ft' fw' s'
  = (Err (atomic_write_error (targetPath fw') "file already committed"
            Errors.ErrCodeInternal), fw', s').
Proof.
  unfold Commit at 1. repeat case_match; intros [= <- <-]. reflexivity.
Qed.

Lemma Commit_after_failure (ft ft' : Faults) (fw fw' : FileWriter) (s s' : Sys) (err : string) :
  Commit ft fw s = (Err err, fw', s') -> committed fw = false ->
  Commit ft' fw' s' = (Err (writer_closed fw'), fw', s').
Proof.
  intros H Hc. unfold Commit in H. rewrite Hc in H.
  assert (Hw : committed fw' = false /\ tempFile fw' = false).
  { destruct (negb (tempFile fw)) eqn:Hn.
    { injection H as _ <- _. apply negb_true_iff in Hn. auto. }
    destruct (fail_sync ft).
    { destruct (Rollback ft fw s) as [[o fwa] sa] eqn:E. injection H as _ <- _.
      apply Rollback_writer in E as (_ & Hx & Hy). rewrite Hx, Hy. auto. }
    destruct (fail_close ft).
    { destruct (Rollback ft fw s) as [[o fwa] sa] eqn:E. injection H as _ <- _.
      apply Rollback_writer in E as (_ & Hx & Hy). rewrite Hx, Hy. auto. }
    destruct (sys s _) as [[|] ?]; [discriminate|].
    injection H as _ <- _. auto. }
  destruct Hw as [Hw1 Hw2]. unfold Commit. rewrite Hw1, Hw2. reflexivity.
Qed.

(** C6, as amended: whatever fails, a reader of the target sees at every
    instant of [WriteFileAtomic] either what the target held before or the
    whole of the new bytes.  When the call succeeds the target holds the new
    bytes and every other file is as before, so no temporary file is left.
    When it fails every file but the temporary one is as before, and the
    temporary one is gone too unless its removal itself fails.  A [Commit]
    after a successful [Commit] fails with the already-committed error. *)
Theorem WriteFileAtomic_all_or_nothing (ft : Faults) (e : Entropy)
    (fs : gmap string File) (now : Z) (target bytes : string) (mode : Z) :
  let temp := generateTempPath e now target in
  let out := WriteFileAtomic ft e (start fs now) target bytes mode in
  Forall (fun st => contents st target = contents fs target
                    \/ contents st target = Some bytes)
         (files out.2 :: seen out.2)
  /\ match out.1 with
     | Ok _ =>
         contents (files out.2) target = Some bytes
         /\ forall p, p <> target -> contents (files out.2) p = contents fs p
     | Err _ =>
         (forall p, p <> temp -> contents (files out.2) p = contents fs p)
         /\ (fail_remove ft = false ->
             forall p, contents (files out.2) p = contents fs p)
     end
  /\ (forall ft' fw s fw' s',
        Commit ft fw s = (Ok tt, fw', s') ->
        Commit ft' fw' s'
        = (Err (Errors.NewSyncError "atomic_write" "" (targetPath fw')
                  "file already committed" Errors.ErrCodeInternal), fw', s')).
Proof.
  intros temp out.
  pose proof (generateTempPath_differs e now target) as Hd.
  pose proof (generateTempPath_nonempty e now target) as Hn.
  fold temp in Hd, Hn.
  assert (HG0 : Good fs target temp bytes (start fs now)).
  { split; [left; intros p _; reflexivity|constructor]. }
  assert (Hu0 : untouched fs (files (start fs now))) by (intros p; reflexivity).
  assert (Hmain : Good fs target temp bytes out.2
            /\ match out.1 with
               | Ok _ => replaced fs target bytes (files out.2)
               | Err _ => staged fs temp (files out.2)
                          /\ (fail_remove ft = false -> untouched fs (files out.2))
               end).
  { subst out. unfold WriteFileAtomic.
    destruct (NewFileWriter ft e (start fs now) target mode) as [r1 s1] eqn:E1.
    eapply (NewFileWriter_post fs target temp bytes) in E1 as (HG1 & H1);
      [|reflexivity|exact HG0|exact Hu0].
    destruct r1 as [w|err1]; simpl.
    2:{ split; [exact HG1|]. split; [apply untouched_staged, H1|intros _; exact H1]. }
    destruct H1 as (Hw & Hh1).
    destruct (Write ft w s1 bytes) as [r2 s2] eqn:E2.
    assert (Ht : tempPath w = temp) by (rewrite Hw; reflexivity).
    assert (Ho : tempFile w = true) by (rewrite Hw; reflexivity).
    eapply (Write_post fs target temp bytes) in E2 as (HG2 & Hs2 & H0 & Hh2);
      [|exact Ht|exact Ho|exact HG1|exact Hh1].
    destruct r2 as [n|err2].
    - specialize (Hh2 eq_refl).
      destruct (Commit ft w s2) as [[r3 w3] s3] eqn:E3.
      assert (Hw' : w = {| targetPath := target; tempPath := temp; tempFile := true;
                           committed := false; permissions := permissions w |}).
      { rewrite Hw. reflexivity. }
      eapply (Commit_post fs target temp bytes Hn) in E3 as (HG3 & Ht3 & H3);
        [|exact Hw'|exact HG2|exact Hh2].
      destruct (Close ft w3 s3) as [[r4 w4] s4] eqn:E4. simpl.
      unfold Close in E4. destruct r3 as [[]|err3].
      + destruct H3 as [Hc3 Hr3]. rewrite Hc3 in E4. simpl in E4.
        injection E4 as <- <- <-. split; assumption.
      + destruct H3 as (Hc3 & _ & Hs3 & _ & Hu3). rewrite Hc3 in E4. simpl in E4.
        eapply (Rollback_post fs target temp bytes Hn) in E4 as (HG4 & Hs4 & Hu4);
          [|exact Ht3|exact HG3|exact Hs3|exact H0].
        split; [exact HG4|]. split; assumption.
    - destruct (Close ft w s2) as [[r4 w4] s4] eqn:E4. simpl.
      unfold Close in E4. rewrite Hw in E4. simpl in E4. rewrite <- Hw in E4.
      eapply (Rollback_post fs target temp bytes Hn) in E4 as (HG4 & Hs4 & Hu4);
        [|exact Ht|exact HG2|exact Hs2|exact H0].
      split; [exact HG4|]. split; assumption. }
  destruct Hmain as ([Hf Hs] & Hres). split; [|split].
  - apply Forall_cons. split; [apply (atomic_view_target fs target temp bytes Hd), Hf|].
    eapply Forall_impl; [exact Hs|].
    intros st Hst. apply (atomic_view_target fs target temp bytes Hd), Hst.
  - destruct out.1; exact Hres.
  - intros ft' fw s fw' s' Hc. apply (Commit_twice ft ft' fw fw' s s' Hc).
Qed.

(** Without faults the write goes through: the target passes from the old
    bytes to the new ones in one step, and the temporary file is gone. *)
Example WriteFileAtomic_succeeds :
  let fs : gmap string File := {[ "/t/cloud/configs/Vim" := regular "old" 100 420 ]} in
  let temp := "/t/cloud/configs/.Vim.tmp.0102030405060708" in
  let out := WriteFileAtomic no_faults (Random [1; 2; 3; 4; 5; 6; 7; 8])
               (start fs 200) "/t/cloud/configs/Vim" "new" 420 in
  out.1 = Ok tt
  /\ map (fun st => contents st "/t/cloud/configs/Vim") (seen out.2)
     = [Some "new"; Some "old"; Some "old"; Some "old"]
  /\ map (fun st => contents st temp) (seen out.2)
     = [None; Some "new"; Some ""; None].
Proof. vm_compute. repeat split; reflexivity. Qed.

(** C6, as stated, fails on two points.  When the sync of the temporary file
    fails and the removal of the temporary file fails as well, the write
    returns its error with the target untouched, and the temporary file
    stays behind with the new bytes.  And a [Commit] that failed (here the
    target is a directory, so the rename is refused) leaves a closed writer:
    a second [Commit] reports the closed writer, not an earlier commit. *)
Lemma WriteFileAtomic_leaves_temp_behind :
  (let fs : gmap string File := {[ "/t/cloud/configs/Vim" := regular "old" 100 420 ]} in
   let temp := "/t/cloud/configs/.Vim.tmp.0102030405060708" in
   let ft := {| fail_mkdir := false; fail_open := false; fail_write := None;
                fail_sync := true; fail_close := false; fail_rename := false;
                fail_remove := true |} in
   let out := WriteFileAtomic ft (Random [1; 2; 3; 4; 5; 6; 7; 8])
                (start fs 200) "/t/cloud/configs/Vim" "new" 420 in
   is_ok out.1 = false
   /\ contents (files out.2) "/t/cloud/configs/Vim" = Some "old"
   /\ fs !! temp = None
   /\ contents (files out.2) temp = Some "new")
  /\ (let fs : gmap string File := {[ "/t/dir" := directory 100 493 ]} in
      exists w s1 s2 err w3 s3,
        NewFileWriter no_faults (Random [1; 2; 3; 4; 5; 6; 7; 8]) (start fs 200) "/t/dir" 420
        = (Ok w, s1)
        /\ Write no_faults w s1 "new" = (Ok 3%nat, s2)
        /\ Commit no_faults w s2 = (Err err, w3, s3)
        /\ Commit no_faults w3 s3
           = (Err (Errors.NewSyncError "atomic_write" "" "/t/dir" "file writer is closed"
                     Errors.ErrCodeIOError), w3, s3)
        /\ Errors.NewSyncError "atomic_write" "" "/t/dir" "file writer is closed"
             Errors.ErrCodeIOError
           <> Errors.NewSyncError "atomic_write" "" "/t/dir" "file already committed"
                Errors.ErrCodeInternal).
Proof.
  split.
  - vm_compute. repeat split; reflexivity.
  - cbv zeta.
    destruct (NewFileWriter no_faults (Random [1; 2; 3; 4; 5; 6; 7; 8])
                (start {[ "/t/dir" := directory 100 493 ]} 200) "/t/dir" 420)
      as [[w|] s1] eqn:E1; [|vm_compute in E1; discriminate].
    destruct (Write no_faults w s1 "new") as [r2 s2] eqn:E2.
    destruct (Commit no_faults w s2) as [[r3 w3] s3] eqn:E3.
    vm_compute in E1. injection E1 as <- <-.
    vm_compute in E2. injection E2 as <- <-.
    vm_compute in E3. injection E3 as <- <- <-.
    eexists _, _, _, _, _, _. split; [reflexivity|]. split; [reflexivity|].
    split; [reflexivity|]. split; [vm_compute; reflexivity|].
    vm_compute. discriminate.
Qed.

End AtomicFacts.
(* ===================================================================== *)
(** ** The sync engine                                                   *)
(* ===================================================================== *)

Module SyncFacts.
Import Config Docs Sync FS FSFacts.
Local Open Scope Z_scope.
#[local] Arguments String.append : simpl nomatch.

(** *** Strings in buffers *)

Lemma take_drop (n : nat) (s : string) : Strs.take n s +:+ Strs.drop n s = s.
Proof.
  revert s. induction n as [|n IH]; intros [|c r]; simpl; try reflexivity.
  rewrite IH. reflexivity.
Qed.

Lemma drop_length (n : nat) (s : string) :
  String.length (Strs.drop n s) = (String.length s - n)%nat.
Proof.
  revert s. induction n as [|n IH]; intros [|c r]; simpl; try reflexivity; try lia.
  apply IH.
Qed.

Lemma take_take_drop (n k : nat) (s : string) :
  exists j, Strs.take n s +:+ Strs.take k (Strs.drop n s) = Strs.take j s.
Proof.
  revert s. induction n as [|n IH]; intros s.
  - exists k. destruct s; reflexivity.
  - destruct s as [|c r]; simpl.
    + exists O. destruct k; reflexivity.
    + destruct (IH r) as [j Hj]. exists (S j). simpl. rewrite Hj. reflexivity.
Qed.

Lemma take_all (s : string) : Strs.take (String.length s) s = s.
Proof. induction s as [|c r IH]; simpl; [reflexivity|]. rewrite IH. reflexivity. Qed.

Lemma take_zero (s : string) : Strs.take 0 s = EmptyString.
Proof. destruct s; reflexivity. Qed.

Lemma copy_buffer_pos : (0 < copy_buffer)%nat.
Proof. unfold copy_buffer. lia. Qed.

#[local] Opaque copy_buffer.

(** *** One system call *)

Lemma sys_None (w w' : World) (r : res (gmap string File)) :
  Sync.sys w r = (None, w') ->
  exists fs', r = Ok fs'
    /\ w' = {| files := fs'; clock := clock w; fileStates := fileStates w;
               cloudMetadata := cloudMetadata w; seen := fs' :: seen w |}.
Proof. unfold Sync.sys. destruct r; intros [= <-]. eauto. Qed.

Lemma sys_Some (w w' : World) (r : res (gmap string File)) (e : string) :
  Sync.sys w r = (Some e, w') -> w' = w.
Proof. unfold Sync.sys. destruct r; intros [= ]; congruence. Qed.

(** Two worlds that differ by the files and their history only. *)
Definition same_documents (w w' : World) : Prop :=
  clock w' = clock w /\ fileStates w' = fileStates w
  /\ cloudMetadata w' = cloudMetadata w.

(** *** [copyFile] *)

(** The destination shows the first bytes of the source. *)
Definition partial (bytes dst : string) (st : gmap string File) : Prop :=
  exists k, contents st dst = Some (Strs.take k bytes).

(** The write loop appends the bytes, buffer by buffer, and touches nothing
    else. *)
Lemma write_chunks_spec (fuel : nat) (w w' : World) (dst bytes : string)
    (e : error) (f : File) :
  (String.length bytes <= fuel)%nat ->
  files w !! dst = Some f -> isDir f = false ->
  write_chunks fuel w dst bytes = (e, w') ->
  e = None /\ same_documents w w'
  /\ (exists f', files w' !! dst = Some f' /\ isDir f' = false
        /\ data f' = data f +:+ bytes /\ perm f' = perm f)
  /\ (forall p, p <> dst -> files w' !! p = files w !! p)
  /\ exists new, seen w' = new ++ seen w
       /\ Forall (fun st => (forall p, p <> dst -> st !! p = files w !! p)
                    /\ exists k, contents st dst = Some (data f +:+ Strs.take k bytes)) new.
Proof.
  revert w f bytes. induction fuel as [|n IH]; intros w f bytes Hlen Hf Hd; simpl.
  - destruct bytes; [|simpl in Hlen; lia]. intros [= <- <-].
    split; [reflexivity|]. split; [repeat split|].
    split; [exists f; rewrite PathFacts.append_empty_r; auto|].
    split; [auto|]. exists []. split; [reflexivity|constructor].
  - destruct (Strs.eqb bytes "") eqn:E.
    { apply ValidationFacts.eqb_true in E as ->. intros [= <- <-].
      split; [reflexivity|]. split; [repeat split|].
      split; [exists f; rewrite PathFacts.append_empty_r; auto|].
      split; [auto|]. exists []. split; [reflexivity|constructor]. }
    apply ValidationFacts.eqb_false in E.
    destruct (Sync.sys w _) as [[err|] w1] eqn:Es.
    { unfold Sync.sys, Append in Es. rewrite Hf, Hd in Es. discriminate. }
    apply sys_None in Es as (fs1 & Ha & ->).
    apply Append_Ok in Ha as (f0 & Hf0 & _ & ->). rewrite Hf in Hf0. injection Hf0 as <-.
    set (f1 := regular (data f +:+ Strs.take copy_buffer bytes) (clock w) (perm f)).
    set (w1 := {| files := <[dst := f1]> (files w); clock := clock w;
                  fileStates := fileStates w; cloudMetadata := cloudMetadata w;
                  seen := <[dst := f1]> (files w) :: seen w |}).
    intros Hw.
    assert (Hlen1 : (String.length (Strs.drop copy_buffer bytes) <= n)%nat).
    { rewrite drop_length. pose proof copy_buffer_pos.
      destruct bytes; [contradiction|]. cbn [String.length] in *. lia. }
    destruct (IH w1 f1 _ Hlen1 (lookup_insert_eq _ _ _) eq_refl Hw)
      as (-> & Hdoc & (f' & Hf' & Hd' & Hdata & Hperm) & Hother & new & Hseen & Hnew).
    split; [reflexivity|]. split; [exact Hdoc|].
    split.
    { exists f'. repeat split; auto. rewrite Hdata. simpl.
      rewrite PathFacts.append_assoc, take_drop. reflexivity. }
    split.
    { intros p Hp. rewrite (Hother p Hp). simpl. apply lookup_insert_ne. congruence. }
    exists (new ++ [<[dst := f1]> (files w)]). split.
    { rewrite Hseen. simpl. rewrite <- app_assoc. reflexivity. }
    apply Forall_app. split.
    + eapply Forall_impl; [exact Hnew|]. intros st [Hst1 (k & Hst2)]. split.
      * intros p Hp. rewrite (Hst1 p Hp). simpl. apply lookup_insert_ne. congruence.
      * destruct (take_take_drop copy_buffer k bytes) as [j Hj].
        exists j. rewrite Hst2. simpl. rewrite PathFacts.append_assoc, Hj. reflexivity.
    + constructor; [|constructor]. split.
      * intros p Hp. apply lookup_insert_ne. congruence.
      * exists copy_buffer. rewrite contents_insert_eq. reflexivity.
Qed.

Lemma contents_Some (fs : gmap string File) (p bytes : string) :
  contents fs p = Some bytes <->
  exists f, fs !! p = Some f /\ isDir f = false /\ data f = bytes.
Proof.
  unfold contents. destruct (fs !! p) as [f|]; [|split; [discriminate|intros (? & ? & _); discriminate]].
  destruct (isDir f) eqn:E; split.
  - discriminate.
  - intros (f' & [= <-] & Hd & _). congruence.
  - intros [= <-]. eauto.
  - intros (f' & [= <-] & _ & ->). reflexivity.
Qed.

Lemma ReadAll_contents (fs : gmap string File) (p bytes : string) :
  ReadAll fs p = Ok bytes <-> contents fs p = Some bytes.
Proof.
  unfold ReadAll, contents. destruct (fs !! p) as [f|]; [|split; discriminate].
  destruct (isDir f); split; try discriminate; intros [= <-]; reflexivity.
Qed.

Lemma CalculateFileHash_contents (fs : gmap string File) (p h : string) :
  Hash.CalculateFileHash fs p = Ok h <->
  exists bytes, contents fs p = Some bytes /\ h = Hash.of_bytes bytes.
Proof.
  unfold Hash.CalculateFileHash. destruct (ReadAll fs p) as [bytes|e] eqn:E; simpl.
  - apply ReadAll_contents in E. rewrite E. split.
    + intros [= <-]. eauto.
    + intros (b & [= <-] & ->). reflexivity.
  - split; [discriminate|]. intros (b & Hb & _).
    apply ReadAll_contents in Hb. congruence.
Qed.

Lemma contents_ext (fs fs' : gmap string File) (p : string) :
  fs' !! p = fs !! p -> contents fs' p = contents fs p.
Proof. unfold contents. intros ->. reflexivity. Qed.

(** [copyFile] writes in place: the destination is truncated first, grows
    through the first bytes of the source, and ends as the source; no other
    file changes. *)
Lemma copyFile_spec (src dst : string) (w w' : World) :
  src <> dst -> copyFile src dst w = (None, w') ->
  same_documents w w'
  /\ exists bytes,
       contents (files w) src = Some bytes
       /\ contents (files w') dst = Some bytes
       /\ (forall p, p <> dst -> contents (files w') p = contents (files w) p)
       /\ exists new, seen w' = new ++ seen w
            /\ Forall (fun st => contents st dst = contents (files w) dst
                                 \/ partial bytes dst st) new
            /\ Exists (fun st => contents st dst = Some EmptyString) new.
Proof.
  intros Hne. unfold copyFile.
  destruct (Sync.sys w _) as [[e1|] w1] eqn:E1; [discriminate|].
  apply sys_None in E1 as (fs1 & Hmk & ->). cbn [files clock].
  pose proof (contents_MkdirAll _ _ _ _ _ Hmk) as Hc1.
  destruct (Open fs1 src) as [srcFile|e0] eqn:Hex; [|discriminate].
  destruct (Sync.sys _ (Create fs1 (clock w) dst)) as [[e2|] w2] eqn:E2; [discriminate|].
  apply sys_None in E2 as (fs2 & Hcr & ->). cbn [files clock fileStates cloudMetadata seen].
  apply Create_Ok in Hcr as (mode & -> & _).
  set (f2 := regular EmptyString (clock w) mode).
  unfold io_Copy. cbn [files].
  destruct (ReadAll (<[dst := f2]> fs1) src) as [bytes|e3] eqn:Hrd; [|discriminate].
  apply ReadAll_contents in Hrd. rewrite contents_insert_ne in Hrd by exact Hne.
  destruct (write_chunks _ _ dst bytes) as [e4 w3] eqn:E4.
  eapply (write_chunks_spec _ _ _ _ _ _ f2) in E4
    as (-> & (Hk & Hs & Hm) & (f3 & Hf3 & Hd3 & Hdata3 & _) & Hother & new & Hseen & Hnew);
    [|lia|apply lookup_insert_eq|reflexivity].
  cbn [files clock fileStates cloudMetadata seen] in *.
  destruct (Stat (files w3) src) as [srcInfo|e5]; [|discriminate].
  intros E6. apply sys_None in E6 as (fs4 & Hch & ->).
  cbn [files clock fileStates cloudMetadata seen].
  pose proof (Chmod_contents _ _ _ _ Hch) as Hc4.
  assert (Hdst3 : contents (files w3) dst = Some bytes).
  { apply contents_Some. exists f3. rewrite Hdata3. auto. }
  assert (Hoth3 : forall p, p <> dst -> contents (files w3) p = contents (files w) p).
  { intros p Hp. rewrite <- Hc1. rewrite <- (contents_insert_ne fs1 dst p f2 Hp).
    apply contents_ext, Hother, Hp. }
  split; [repeat split; simpl; assumption|].
  exists bytes. split; [rewrite <- Hc1; exact Hrd|].
  split; [rewrite Hc4; exact Hdst3|].
  split; [intros p Hp; rewrite Hc4; apply Hoth3, Hp|].
  exists (fs4 :: new ++ [<[dst := f2]> fs1; fs1]). split.
  { rewrite Hseen. simpl. rewrite <- app_assoc. reflexivity. }
  split.
  - constructor.
    { right. exists (String.length bytes). rewrite Hc4, take_all. exact Hdst3. }
    apply Forall_app. split.
    + eapply Forall_impl; [exact Hnew|]. intros st [_ (k & Hst)].
      right. exists k. exact Hst.
    + constructor; [right; exists O; rewrite contents_insert_eq, take_zero; reflexivity|].
      constructor; [left; apply Hc1|constructor].
  - apply Exists_cons_tl, Exists_app. right. apply Exists_cons_hd.
    apply contents_insert_eq.
Qed.

(** With its directory in place, a regular file copies onto a path that
    holds no directory. *)
Lemma copyFile_succeeds (src dst : string) (w : World) (f : File) :
  src <> dst ->
  is_dir (files w) (Path.Dir dst) = true ->
  files w !! src = Some f -> isDir f = false ->
  is_dir (files w) dst = false ->
  exists w', copyFile src dst w = (None, w').
Proof.
  intros Hne Hdir Hsrc Hreg Hdst. unfold copyFile.
  assert (Hmk : MkdirAll (files w) (clock w) (Path.Dir dst) 493 = Ok (files w)).
  { unfold MkdirAll, is_dir in *. destruct (Path.Dir dst) as [|c r] eqn:Ed.
    - simpl. destruct (files w !! "") as [d|]; [|discriminate]. rewrite Hdir. reflexivity.
    - cbn [String.length MkdirAll_go].
      destruct (files w !! String c r) as [d|]; [|discriminate]. rewrite Hdir. reflexivity. }
  rewrite Hmk. cbn [Sync.sys files clock].
  unfold Open. rewrite Hsrc.
  assert (Hcr : exists mode, Create (files w) (clock w) dst
                = Ok (<[dst := regular EmptyString (clock w) mode]> (files w))).
  { unfold Create, is_dir in *. destruct (files w !! dst) as [d|].
    - rewrite Hdst. eauto.
    - rewrite Hdir. eauto. }
  destruct Hcr as [mode ->]. cbn [Sync.sys files clock fileStates cloudMetadata seen].
  unfold io_Copy. cbn [files].
  assert (Hrd : ReadAll (<[dst := regular EmptyString (clock w) mode]> (files w)) src
                = Ok (data f)).
  { apply ReadAll_contents. rewrite contents_insert_ne by exact Hne.
    apply contents_Some. eauto. }
  rewrite Hrd.
  destruct (write_chunks _ _ dst (data f)) as [e4 w3] eqn:E4.
  eapply (write_chunks_spec _ _ _ _ _ _ (regular EmptyString (clock w) mode)) in E4
    as (-> & _ & (f3 & Hf3 & _) & Hother & _);
    [|lia|apply lookup_insert_eq|reflexivity].
  cbn [files] in Hother.
  unfold Stat. rewrite (Hother src Hne), lookup_insert_ne, Hsrc by congruence.
  unfold Chmod. rewrite Hf3. cbn [Sync.sys]. eauto.
Qed.

(** *** Push and pull of a file *)

Lemma isFileChanged_unchanged (w : World) (itemName filePath : string) :
  isFileChanged w itemName filePath = (false, None) <-> unchanged w itemName filePath.
Proof.
  unfold isFileChanged, unchanged.
  destruct (GetFileState (fileStates w) itemName filePath) as [st|].
  2:{ split; [discriminate|]. intros (? & ? & ? & _). discriminate. }
  destruct (Hash.CalculateFileHash (files w) filePath) as [h|e] eqn:Eh.
  - apply CalculateFileHash_contents in Eh as (bytes & Hb & ->).
    destruct (Strs.eqb (LocalHash st) (Hash.of_bytes bytes)) eqn:E; simpl; split.
    + intros _. apply ValidationFacts.eqb_true in E. eauto.
    + reflexivity.
    + discriminate.
    + intros (st' & b' & [= <-] & Hb' & Hl). rewrite Hb in Hb'. injection Hb' as <-.
      apply ValidationFacts.eqb_false in E. contradiction.
  - split; [discriminate|]. intros (st' & b' & _ & Hb' & _).
    assert (H : exists b, contents (files w) filePath = Some b /\ Hash.of_bytes b' = Hash.of_bytes b)
      by eauto.
    apply CalculateFileHash_contents in H. congruence.
Qed.

Lemma GetFileState_Update (f : FileStatesData) (now : Z)
    (itemName filePath hash : string) (modTime size : Z) :
  LocalHash <$> GetFileState (UpdateFileState f now itemName filePath hash modTime size)
                  itemName filePath
  = Some hash.
Proof.
  unfold GetFileState, UpdateFileState. cbn [States].
  rewrite lookup_insert_eq, lookup_insert_eq. reflexivity.
Qed.

Lemma GetFileMetadata_put (f : FileMetadataData) (itemName filePath : string)
    (m : FileMetadata) :
  GetFileMetadata (put_metadata f itemName filePath m) itemName filePath = Some m.
Proof.
  unfold GetFileMetadata, put_metadata. cbn [Metadata].
  rewrite lookup_insert_eq, lookup_insert_eq. reflexivity.
Qed.

(** What a push that copies leaves behind. *)
Definition pushed (s : SyncEngine) (item : Config.SyncItem) (localPath cloudPath : string)
    (w w' : World) (r : SyncResult) (bytes : string) : Prop :=
  contents (files w) localPath = Some bytes
  /\ contents (files w') localPath = Some bytes
  /\ contents (files w') cloudPath = Some bytes
  /\ (forall p, p <> cloudPath -> contents (files w') p = contents (files w) p)
  /\ FilesChanged r = 1 /\ FilesSkipped r = 0 /\ FilesErrored r = 0
  /\ LocalHash <$> GetFileState (fileStates w') (Name item) localPath
     = Some (Hash.of_bytes bytes)
  /\ CloudHash <$> GetFileMetadata (cloudMetadata w') (Name item) localPath
     = Some (Hash.of_bytes bytes)
  /\ exists new, seen w' = new ++ seen w
       /\ Forall (fun st => contents st cloudPath = contents (files w) cloudPath
                            \/ partial bytes cloudPath st) new
       /\ Exists (fun st => contents st cloudPath = Some EmptyString) new.

Lemma pushItem_absent (s : SyncEngine) (item : Config.SyncItem) (localPath cloudPath : string)
    (w : World) :
  PathExists (files w) localPath = false ->
  pushItem s item localPath cloudPath w
  = (Err ("local path does not exist: " +:+ localPath), w).
Proof. intros H. unfold pushItem. rewrite H. reflexivity. Qed.

Lemma pushItem_unchanged (s : SyncEngine) (item : Config.SyncItem) (localPath cloudPath : string)
    (w : World) :
  Type_ item = "file" -> unchanged w (Name item) localPath ->
  pushItem s item localPath cloudPath w
  = (Ok (skipped_one (with_message (new_result SyncPush)
                        (Name item +:+ " unchanged - skipped"))), w).
Proof.
  intros Ht Hu. pose proof Hu as (st & bytes & _ & Hb & _).
  apply contents_Some in Hb as (f & Hf & _).
  apply isFileChanged_unchanged in Hu.
  unfold pushItem. rewrite (PathExists_Some _ _ _ Hf), Ht, Hu. reflexivity.
Qed.

Lemma pushItem_copies (s : SyncEngine) (item : Config.SyncItem) (localPath cloudPath : string)
    (w w' : World) (r : SyncResult) :
  plain s -> Type_ item = "file" -> localPath <> cloudPath ->
  ~ unchanged w (Name item) localPath ->
  pushItem s item localPath cloudPath w = (Ok r, w') ->
  exists bytes, pushed s item localPath cloudPath w w' r bytes.
Proof.
  intros [Hg Hgs] Ht Hne Hch. rewrite <- isFileChanged_unchanged in Hch.
  unfold pushItem, git_call, git_safe. rewrite Hg, Hgs, Ht.
  destruct (PathExists (files w) localPath); [|discriminate]. cbn [negb Strs.eqb].
  change (Strs.eqb "file" "file") with true. cbv iota.
  destruct (isFileChanged w (Name item) localPath) as [c e] eqn:Ec.
  assert (Hcopy : forall res0,
    match copyFile localPath cloudPath w with
    | (Some e0, w0) => (Err ("failed to copy file: " +:+ e0), w0)
    | (None, w0) =>
        let '(result, w1) :=
          match Stat (files w0) localPath with
          | Ok localInfo =>
              match Hash.CalculateFileHash (files w0) localPath with
              | Ok localHash =>
                  let '(e1, w1) :=
                    updateFileMetadata s w0 (Name item) localPath localInfo localHash in
                  let result := warn res0 "warning: failed to update metadata: " e1 in
                  match Stat (files w1) cloudPath with
                  | Ok cloudInfo =>
                      let '(e2, w2) :=
                        updateCloudHash s w1 (Name item) localPath localHash
                          (ModTime cloudInfo) in
                      (warn result "warning: failed to update cloud hash: " e2, w2)
                  | Err _ => (result, w1)
                  end
              | Err e0 =>
                  (add_error res0 ("warning: failed to calculate hash: " +:+ e0), w0)
              end
          | Err e0 => (add_error res0 ("warning: failed to get file info: " +:+ e0), w0)
          end in
        (Ok (with_message (changed_one result)
               ("Pushed " +:+ Name item +:+ " to cloud")), w1)
    end = (Ok r, w') ->
    FilesSkipped res0 = 0 -> FilesErrored res0 = 0 ->
    exists bytes, pushed s item localPath cloudPath w w' r bytes).
  { intros res0. destruct (copyFile localPath cloudPath w) as [[e0|] w0] eqn:Ecp;
      [discriminate|].
    apply (copyFile_spec _ _ _ _ Hne) in Ecp
      as ((Hk & Hs & Hm) & bytes & Hb & Hc & Hother & Htrace).
    assert (Hl0 : contents (files w0) localPath = Some bytes).
    { rewrite Hother by exact Hne. exact Hb. }
    pose proof Hl0 as Hl0'. apply contents_Some in Hl0' as (fl & Hfl & _).
    pose proof Hc as Hc'. apply contents_Some in Hc' as (fc & Hfc & _).
    unfold Stat. rewrite Hfl.
    assert (Hh : Hash.CalculateFileHash (files w0) localPath = Ok (Hash.of_bytes bytes)).
    { apply CalculateFileHash_contents. eauto. }
    rewrite Hh. cbn [updateFileMetadata updateCloudHash files warn]. rewrite Hfc.
    intros [= <- <-] Hsk Her. exists bytes. unfold pushed.
    cbn [files fileStates cloudMetadata seen FilesChanged FilesSkipped FilesErrored
         changed_one with_message].
    split; [exact Hb|]. split; [exact Hl0|]. split; [exact Hc|]. split; [exact Hother|].
    split; [reflexivity|]. split; [exact Hsk|]. split; [exact Her|].
    split; [apply GetFileState_Update|].
    split; [rewrite GetFileMetadata_put; reflexivity|]. exact Htrace. }
  destruct c, e as [e|]; try (exfalso; apply Hch; reflexivity); intros H.
  - apply (Hcopy (warn (new_result SyncPush) "warning: failed to check file changes: "
                    (Some e)) H); reflexivity.
  - apply (Hcopy (warn (new_result SyncPush) "warning: failed to check file changes: "
                    None) H); reflexivity.
  - apply (Hcopy (warn (new_result SyncPush) "warning: failed to check file changes: "
                    (Some e)) H); reflexivity.
Qed.

(** What a pull leaves behind. *)
Definition pulled (item : Config.SyncItem) (localPath cloudPath : string)
    (w w' : World) (r : SyncResult) (bytes : string) : Prop :=
  contents (files w) cloudPath = Some bytes
  /\ contents (files w') localPath = Some bytes
  /\ contents (files w') cloudPath = Some bytes
  /\ (forall p, p <> localPath -> contents (files w') p = contents (files w) p)
  /\ FilesChanged r = 1 /\ FilesSkipped r = 0 /\ FilesErrored r = 0 /\ Errors r = []
  /\ LocalHash <$> GetFileState (fileStates w') (Name item) localPath
     = Some (Hash.of_bytes bytes).

Lemma pullItem_copies (s : SyncEngine) (item : Config.SyncItem)
    (localPath cloudPath : string) (w w' : World) (r : SyncResult) :
  plain s -> Type_ item = "file" -> localPath <> cloudPath ->
  pullItem s item localPath cloudPath w = (Ok r, w') ->
  exists bytes, pulled item localPath cloudPath w w' r bytes.
Proof.
  intros [Hg Hgs] Ht Hne.
  unfold pullItem, git_call, git_safe. rewrite Hg, Hgs, Ht.
  destruct (PathExists (files w) cloudPath); [|discriminate]. cbn [negb].
  change (Strs.eqb "file" "file") with true. cbv iota.
  destruct (copyFile cloudPath localPath w) as [[e0|] w0] eqn:Ecp; [discriminate|].
  apply copyFile_spec in Ecp
    as ((Hk & Hs & Hm) & bytes & Hb & Hc & Hother & _); [|congruence].
  pose proof Hc as Hc'. apply contents_Some in Hc' as (fl & Hfl & _).
  unfold Stat. rewrite Hfl.
  assert (Hh : Hash.CalculateFileHash (files w0) localPath = Ok (Hash.of_bytes bytes)).
  { apply CalculateFileHash_contents. eauto. }
  rewrite Hh. cbn [updateFileMetadata files warn].
  intros [= <- <-]. exists bytes. unfold pulled.
  cbn [files fileStates FilesChanged FilesSkipped FilesErrored Errors changed_one
         with_message new_result].
  split; [exact Hb|]. split; [exact Hc|].
  split; [rewrite Hother by congruence; exact Hb|]. split; [exact Hother|].
  repeat (split; [reflexivity|]). apply GetFileState_Update.
Qed.

Lemma pullItem_succeeds (s : SyncEngine) (item : Config.SyncItem)
    (localPath cloudPath : string) (w : World) (fc : File) :
  plain s -> Type_ item = "file" -> localPath <> cloudPath ->
  is_dir (files w) (Path.Dir localPath) = true ->
  files w !! cloudPath = Some fc -> isDir fc = false ->
  is_dir (files w) localPath = false ->
  exists r w', pullItem s item localPath cloudPath w = (Ok r, w').
Proof.
  intros [Hg Hgs] Ht Hne Hdir Hfc Hreg Hl.
  destruct (copyFile_succeeds cloudPath localPath w fc) as [w0 Hcp]; auto.
  unfold pullItem, git_call, git_safe.
  rewrite Hg, Hgs, Ht, (PathExists_Some _ _ _ Hfc). cbn [negb].
  change (Strs.eqb "file" "file") with true. cbv iota. rewrite Hcp.
  destruct (match Stat (files w0) localPath with Ok _ => _ | Err _ => _ end) as [r1 w1].
  eauto.
Qed.

Lemma pushItem_succeeds (s : SyncEngine) (item : Config.SyncItem)
    (localPath cloudPath : string) (w : World) (fl : File) :
  plain s -> Type_ item = "file" -> localPath <> cloudPath ->
  is_dir (files w) (Path.Dir cloudPath) = true ->
  files w !! localPath = Some fl -> isDir fl = false ->
  is_dir (files w) cloudPath = false ->
  exists r w', pushItem s item localPath cloudPath w = (Ok r, w').
Proof.
  intros [Hg Hgs] Ht Hne Hdir Hfl Hreg Hc.
  destruct (copyFile_succeeds localPath cloudPath w fl) as [w0 Hcp]; auto.
  unfold pushItem, git_call, git_safe.
  rewrite Hg, Hgs, Ht, (PathExists_Some _ _ _ Hfl). cbn [negb].
  change (Strs.eqb "file" "file") with true. cbv iota. rewrite Hcp.
  destruct (isFileChanged w (Name item) localPath) as [[|] [e|]];
    repeat case_match; eauto.
Qed.

(** *** The decision engine *)

Lemma CalculateFileHash_regular (fs : gmap string File) (p : string) (f : File) :
  fs !! p = Some f -> isDir f = false ->
  Hash.CalculateFileHash fs p = Ok (Hash.of_bytes (data f)).
Proof. intros Hf Hd. apply CalculateFileHash_contents. exists (data f). split; [|reflexivity].
  apply contents_Some. eauto. Qed.

Lemma lastKnownCloudHash_observe (w : World) (item : Config.SyncItem)
    (localPath cloudPath : string) :
  last_cloud_hash (observe w item localPath cloudPath)
  = if Strs.eqb (lastKnownCloudHash w item localPath) "" then None
    else Some (lastKnownCloudHash w item localPath).
Proof.
  unfold observe, lastKnownCloudHash, GetFileMetadata. cbn [last_cloud_hash].
  destruct (Metadata (cloudMetadata w) !! Name item) as [im|]; [|reflexivity].
  destruct (im !! localPath) as [m|]; reflexivity.
Qed.

(** A path that holds no regular file holds nothing that [PathExists]
    sees: no directory, and nothing below a regular file. *)
Lemma file_or_absent (fs : gmap string File) (p : string) :
  (contents fs p = None -> PathExists fs p = false) ->
  (forall f, fs !! p = Some f -> isDir f = false)
  /\ (fs !! p = None -> PathExists fs p = false).
Proof.
  intros H. split.
  - intros f Hf. destruct (isDir f) eqn:E; [|reflexivity].
    rewrite (PathExists_Some _ _ _ Hf) in H. apply H.
    unfold contents. rewrite Hf, E. reflexivity.
  - intros Hf. apply H, contents_absent, Hf.
Qed.

(** The branch the engine takes is the one rules 1 to 7 decide on what it
    reads. *)
Lemma smartSyncItem_perform (s : SyncEngine) (item : Config.SyncItem)
    (localPath cloudPath : string) (w : World) :
  Type_ item = "file" ->
  (contents (files w) localPath = None -> PathExists (files w) localPath = false) ->
  (contents (files w) cloudPath = None -> PathExists (files w) cloudPath = false) ->
  smartSyncItem s item localPath cloudPath w
  = perform s item localPath cloudPath w (rules (observe w item localPath cloudPath)).
Proof.
  intros Ht Hl Hc.
  apply file_or_absent in Hl as [Hl Hl0]. apply file_or_absent in Hc as [Hc Hc0].
  unfold smartSyncItem, rules.
  rewrite lastKnownCloudHash_observe. unfold observe. cbn [lh ch lm cm].
  destruct (files w !! localPath) as [fl|] eqn:El;
    destruct (files w !! cloudPath) as [fc|] eqn:Ec;
    rewrite ?(PathExists_Some _ _ _ El), ?(PathExists_Some _ _ _ Ec),
      ?(Hl0 eq_refl), ?(Hc0 eq_refl);
    cbn [fmap option_fmap option_map negb andb from_option].
  - (* both exist *)
    rewrite Ht. change (Strs.eqb "file" "file") with true. cbv iota.
    unfold smartSyncFile.
    rewrite (CalculateFileHash_regular _ _ _ El (Hl _ eq_refl)).
    rewrite (CalculateFileHash_regular _ _ _ Ec (Hc _ eq_refl)).
    unfold Stat. rewrite El, Ec.
    destruct (Strs.eqb (Hash.of_bytes (data fl)) (Hash.of_bytes (data fc))) eqn:Eh.
    + (* rule 4 *)
      unfold perform, Stat. rewrite El.
      rewrite (CalculateFileHash_regular _ _ _ El (Hl _ eq_refl)). reflexivity.
    + unfold After. cbn [info ModTime].
      destruct (Strs.eqb (lastKnownCloudHash w item localPath) "") eqn:E0; cbn [negb andb].
      * (* rule 7 *)
        destruct (modTime fc <? modTime fl); [reflexivity|].
        destruct (modTime fl <? modTime fc); reflexivity.
      * destruct (Strs.eqb (lastKnownCloudHash w item localPath)
                    (Hash.of_bytes (data fc))); cbn [negb].
        -- (* rule 5 *) reflexivity.
        -- (* rule 6 *) destruct (modTime fc <? modTime fl); reflexivity.
  - (* rule 2 *) reflexivity.
  - (* rule 3 *) reflexivity.
  - (* rule 1 *) unfold perform, Stat. rewrite El. reflexivity.
Qed.

(** The rules push only a local file that is there, and pull only a cloud
    file that is there. *)
Lemma rules_push_local (w : World) (item : Config.SyncItem) (localPath cloudPath : string) :
  rules (observe w item localPath cloudPath) = PushLocalToCloud ->
  exists f, files w !! localPath = Some f.
Proof.
  unfold rules, observe. cbn [lh ch].
  destruct (files w !! localPath) as [f|]; [eauto|].
  destruct (files w !! cloudPath); discriminate.
Qed.

Lemma rules_pull_cloud (w : World) (item : Config.SyncItem) (localPath cloudPath : string) :
  rules (observe w item localPath cloudPath) = PullCloudToLocal ->
  exists f, files w !! cloudPath = Some f.
Proof.
  unfold rules, observe. cbn [lh ch].
  destruct (files w !! cloudPath) as [f|]; [eauto|].
  destruct (files w !! localPath); discriminate.
Qed.

(** What a push and a pull of a file return: the message of the copy, or
    the error of the copy. *)
Lemma pushItem_Err (s : SyncEngine) (item : Config.SyncItem) (localPath cloudPath : string)
    (w w' : World) (e : string) :
  plain s -> Type_ item = "file" -> PathExists (files w) localPath = true ->
  pushItem s item localPath cloudPath w = (Err e, w') ->
  exists cause, e = "failed to copy file: " +:+ cause.
Proof.
  intros [Hg Hgs] Ht Hex. unfold pushItem, git_call, git_safe. rewrite Hg, Hgs, Ht, Hex.
  cbn [negb]. change (Strs.eqb "file" "file") with true. cbv iota.
  destruct (isFileChanged w (Name item) localPath) as [[|] [err|]];
    try discriminate;
    (destruct (copyFile localPath cloudPath w) as [[e0|] w0];
     [intros [= <- _]; eauto|]);
    repeat case_match; discriminate.
Qed.

Lemma pushItem_Message (s : SyncEngine) (item : Config.SyncItem)
    (localPath cloudPath : string) (w w' : World) (r : SyncResult) :
  plain s -> Type_ item = "file" -> ~ unchanged w (Name item) localPath ->
  pushItem s item localPath cloudPath w = (Ok r, w') ->
  Message r = "Pushed " +:+ Name item +:+ " to cloud".
Proof.
  intros [Hg Hgs] Ht Hch. rewrite <- isFileChanged_unchanged in Hch.
  unfold pushItem, git_call, git_safe. rewrite Hg, Hgs, Ht.
  destruct (PathExists (files w) localPath); [|discriminate]. cbn [negb].
  change (Strs.eqb "file" "file") with true. cbv iota.
  destruct (isFileChanged w (Name item) localPath) as [[|] [err|]];
    try contradiction;
    (destruct (copyFile localPath cloudPath w) as [[e0|] w0]; [discriminate|]);
    repeat case_match; intros [= <- _]; reflexivity.
Qed.

Lemma pullItem_Err (s : SyncEngine) (item : Config.SyncItem) (localPath cloudPath : string)
    (w w' : World) (e : string) :
  plain s -> Type_ item = "file" -> PathExists (files w) cloudPath = true ->
  pullItem s item localPath cloudPath w = (Err e, w') ->
  exists cause, e = "failed to copy file: " +:+ cause.
Proof.
  intros [Hg Hgs] Ht Hex. unfold pullItem, git_call, git_safe. rewrite Hg, Hgs, Ht, Hex.
  cbn [negb]. change (Strs.eqb "file" "file") with true. cbv iota.
  destruct (copyFile cloudPath localPath w) as [[e0|] w0]; [intros [= <- _]; eauto|].
  repeat case_match; discriminate.
Qed.

Lemma pullItem_Message (s : SyncEngine) (item : Config.SyncItem)
    (localPath cloudPath : string) (w w' : World) (r : SyncResult) :
  plain s -> Type_ item = "file" ->
  pullItem s item localPath cloudPath w = (Ok r, w') ->
  Message r = "Pulled " +:+ Name item +:+ " from cloud".
Proof.
  intros [Hg Hgs] Ht. unfold pullItem, git_call, git_safe. rewrite Hg, Hgs, Ht.
  destruct (PathExists (files w) cloudPath); [|discriminate]. cbn [negb].
  change (Strs.eqb "file" "file") with true. cbv iota.
  destruct (copyFile cloudPath localPath w) as [[e0|] w0]; [discriminate|].
  repeat case_match; intros [= <- _]; reflexivity.
Qed.




(** The seven rules on the inputs of the spec, one by one. *)
Example rules_table :
  let i lh ch lm cm last :=
    {| lh := lh; ch := ch; lm := lm; cm := cm; last_cloud_hash := last |} in
  rules (i None None 0 0 None) = Skip
  /\ rules (i (Some "a") None 0 0 (Some "b")) = PushLocalToCloud
  /\ rules (i None (Some "a") 0 0 (Some "b")) = PullCloudToLocal
  /\ rules (i (Some "a") (Some "a") 1 2 (Some "b")) = Skip
  /\ rules (i (Some "a") (Some "b") 1 2 (Some "b")) = PushLocalToCloud
  /\ rules (i (Some "a") (Some "b") 2 1 (Some "c")) = Conflict "both modified"
  /\ rules (i (Some "a") (Some "b") 1 1 (Some "c")) = PullCloudToLocal
  /\ rules (i (Some "a") (Some "b") 1 2 (Some "c")) = PullCloudToLocal
  /\ rules (i (Some "a") (Some "b") 2 1 None) = PushLocalToCloud
  /\ rules (i (Some "a") (Some "b") 1 2 None) = PullCloudToLocal
  /\ rules (i (Some "a") (Some "b") 1 1 None)
     = Conflict "same timestamp, different content".
Proof. vm_compute. repeat split; reflexivity. Qed.

(** *** Push writes the cloud file in place *)

(** C2, as amended: a push of a file-kind item writes the cloud path in
    place, with no temporary file and no rename: the cloud path is first
    truncated to nothing, then shows the first bytes of the local file,
    buffer after buffer, and holds all of them when the push returns; until
    the truncation it holds what it held before. *)
Theorem pushItem_writes_cloud_in_place (s : SyncEngine) (item : Config.SyncItem)
    (localPath cloudPath : string) (w w' : World) (r : SyncResult) :
  plain s -> Type_ item = "file" -> localPath <> cloudPath ->
  ~ unchanged w (Name item) localPath ->
  pushItem s item localPath cloudPath w = (Ok r, w') ->
  exists bytes new,
    contents (files w) localPath = Some bytes
    /\ seen w' = new ++ seen w
    /\ Forall (fun st => contents st cloudPath = contents (files w) cloudPath
                         \/ exists k, contents st cloudPath = Some (Strs.take k bytes)) new
    /\ Exists (fun st => contents st cloudPath = Some EmptyString) new
    /\ contents (files w') cloudPath = Some bytes.
Proof.
  intros Hp Ht Hne Hch Hpush.
  destruct (pushItem_copies s item localPath cloudPath w w' r Hp Ht Hne Hch Hpush)
    as (bytes & Hb & _ & Hc & _ & _ & _ & _ & _ & _ & new & Hseen & Hall & Hex).
  exists bytes, new. auto.
Qed.

Lemma unchanged_needs_state (w : World) (itemName filePath : string) :
  GetFileState (fileStates w) itemName filePath = None -> ~ unchanged w itemName filePath.
Proof. intros H (st & ? & Hst & _). congruence. Qed.

Lemma pushItem_writes_cloud_in_place_witness :
  let w := Scenario.push_over_old in
  let out := pushItem Scenario.engine Scenario.Vim Scenario.local Scenario.cloud w in
  plain Scenario.engine /\ Type_ Scenario.Vim = "file"
  /\ Scenario.local <> Scenario.cloud
  /\ ~ unchanged w (Name Scenario.Vim) Scenario.local
  /\ is_ok out.1 = true
  /\ exists bytes new,
       contents (files w) Scenario.local = Some bytes
       /\ seen out.2 = new ++ seen w
       /\ Forall (fun st => contents st Scenario.cloud = contents (files w) Scenario.cloud
                            \/ exists k, contents st Scenario.cloud
                                         = Some (Strs.take k bytes)) new
       /\ Exists (fun st => contents st Scenario.cloud = Some EmptyString) new
       /\ contents (files out.2) Scenario.cloud = Some bytes.
Proof.
  cbv zeta.
  assert (Hp : plain Scenario.engine) by (split; reflexivity).
  assert (Hne : Scenario.local <> Scenario.cloud) by discriminate.
  assert (Hch : ~ unchanged Scenario.push_over_old (Name Scenario.Vim) Scenario.local).
  { apply unchanged_needs_state. vm_compute. reflexivity. }
  destruct (pushItem Scenario.engine Scenario.Vim Scenario.local Scenario.cloud
              Scenario.push_over_old) as [[r|e] w'] eqn:E;
    [|vm_compute in E; discriminate].
  split; [exact Hp|]. split; [reflexivity|]. split; [exact Hne|]. split; [exact Hch|].
  split; [reflexivity|].
  apply (pushItem_writes_cloud_in_place Scenario.engine Scenario.Vim Scenario.local
           Scenario.cloud Scenario.push_over_old w' r Hp eq_refl Hne Hch E).
Defined.

(** C2, as stated, fails: while "new" is pushed over a cloud copy "old",
    the cloud path holds, after the truncation and before the first write,
    neither the old bytes nor the new ones; a process stopped there leaves
    it empty. *)
Lemma pushItem_truncates_cloud_first :
  let out := pushItem Scenario.engine Scenario.Vim Scenario.local Scenario.cloud
               Scenario.push_over_old in
  is_ok out.1 = true
  /\ contents (files Scenario.push_over_old) Scenario.cloud = Some "old"
  /\ contents (files Scenario.push_over_old) Scenario.local = Some "new"
  /\ map (fun st => contents st Scenario.cloud) (rev (seen out.2))
     = [Some "old"; Some ""; Some "new"; Some "new"].
Proof. vm_compute. repeat split; reflexivity. Qed.

(** *** Push mirrors a changed file *)



(** A local path below a regular file is not absent for the engine: the
    push passes the existence test and fails in the copy, when it opens the
    path. *)
Example pushItem_below_a_file :
  let w := Scenario.first_push in
  let below := Scenario.local +:+ "/old" in
  let out := pushItem Scenario.engine Scenario.Vim below Scenario.cloud w in
  files w !! below = None /\ PathExists (files w) below = true
  /\ out.1 = Err "failed to copy file: open /t/local/vimrc/old: not a directory"
  /\ contents (files out.2) Scenario.cloud = None.
Proof. vm_compute. repeat split; reflexivity. Qed.


(** *** Smart sync at equal mtimes *)




(** *** An item with no path on this computer *)

(** C10: when the paths of an item have no entry for the current computer,
    [SyncItem] returns the error that names the computer, for push, pull,
    smart and any other operation, and the files, their history and the
    two documents are what they were. *)
Theorem SyncItem_without_path (s : SyncEngine) (operation : Z)
    (item : Config.SyncItem) (w : World) :
  Paths item !! CurrentComputer (localConfig s) = None ->
  Sync.SyncItem s operation item w
  = (Err ("no path configured for computer '" +:+ CurrentComputer (localConfig s) +:+ "'"),
     w).
Proof.
  intros H. unfold Sync.SyncItem, GetCurrentComputerPath. rewrite H. reflexivity.
Qed.

Lemma SyncItem_without_path_witness :
  Paths Scenario.elsewhere !! CurrentComputer (localConfig Scenario.engine) = None
  /\ Sync.SyncItem Scenario.engine SyncPush Scenario.elsewhere Scenario.first_push
     = (Err "no path configured for computer 'H1'", Scenario.first_push)
  /\ Sync.SyncItem Scenario.engine SyncPull Scenario.elsewhere Scenario.first_push
     = (Err "no path configured for computer 'H1'", Scenario.first_push)
  /\ Sync.SyncItem Scenario.engine SyncSmart Scenario.elsewhere Scenario.first_push
     = (Err "no path configured for computer 'H1'", Scenario.first_push).
Proof.
  assert (H : Paths Scenario.elsewhere !! CurrentComputer (localConfig Scenario.engine)
              = None) by (vm_compute; reflexivity).
  split; [exact H|].
  split; [|split].
  - apply (SyncItem_without_path Scenario.engine SyncPush Scenario.elsewhere
             Scenario.first_push H).
  - apply (SyncItem_without_path Scenario.engine SyncPull Scenario.elsewhere
             Scenario.first_push H).
  - apply (SyncItem_without_path Scenario.engine SyncSmart Scenario.elsewhere
             Scenario.first_push H).
Defined.

End SyncFacts.
(* ===================================================================== *)
(** ** The backup manifest                                               *)
(* ===================================================================== *)

Module BackupFacts.
Import Backup.
Local Open Scope Z_scope.

(** *** The dedup loop *)

Lemma key_refreshed (e : BackupEntry) (clk : Clock) (reason : string) (tags : list string) :
  key (refreshed e clk reason tags) = key e.
Proof. reflexivity. Qed.

Lemma matches_key (e : BackupEntry) (itemName hash : string) :
  Strs.eqb (ItemName e) itemName && Strs.eqb (Hash e) hash = true
  <-> key e = (itemName, hash).
Proof.
  unfold key. rewrite andb_true_iff, !ValidationFacts.eqb_true. split.
  - intros [-> ->]. reflexivity.
  - intros [= -> ->]. auto.
Qed.

Lemma dedup_None (entries : list BackupEntry) (itemName hash : string) (clk : Clock)
    (reason : string) (tags : list string) :
  dedup entries itemName hash clk reason tags = None ->
  (itemName, hash) ∉ key <$> entries.
Proof.
  induction entries as [|e rest IH]; simpl.
  - intros _. apply not_elem_of_nil.
  - destruct (Strs.eqb (ItemName e) itemName && Strs.eqb (Hash e) hash) eqn:E;
      [discriminate|].
    destruct (dedup rest itemName hash clk reason tags) as [[found rest']|];
      [discriminate|].
    intros _. apply not_elem_of_cons. split; [|apply IH; reflexivity].
    intros Hk. symmetry in Hk. apply matches_key in Hk. congruence.
Qed.

Lemma dedup_keys (entries entries' : list BackupEntry) (itemName hash : string)
    (clk : Clock) (reason : string) (tags : list string) (found : BackupEntry) :
  dedup entries itemName hash clk reason tags = Some (found, entries') ->
  key <$> entries' = key <$> entries.
Proof.
  revert entries'. induction entries as [|e rest IH]; intros entries'; simpl;
    [discriminate|].
  destruct (Strs.eqb (ItemName e) itemName && Strs.eqb (Hash e) hash).
  - intros [= <- <-]. reflexivity.
  - destruct (dedup rest itemName hash clk reason tags) as [[f rest']|]; [|discriminate].
    intros [= <- <-]. rewrite !fmap_cons, (IH rest' eq_refl). reflexivity.
Qed.

(** The loop stops at the first entry of the item with the hash. *)
Lemma dedup_first (pre post : list BackupEntry) (e : BackupEntry)
    (itemName hash : string) (clk : Clock) (reason : string) (tags : list string) :
  (itemName, hash) ∉ key <$> pre -> key e = (itemName, hash) ->
  dedup (pre ++ e :: post) itemName hash clk reason tags
  = Some (refreshed e clk reason tags, pre ++ refreshed e clk reason tags :: post).
Proof.
  intros Hpre He. induction pre as [|x pre IH]; simpl.
  - apply matches_key in He. rewrite He. reflexivity.
  - rewrite fmap_cons in Hpre. apply not_elem_of_cons in Hpre as [Hx Hpre].
    destruct (Strs.eqb (ItemName x) itemName && Strs.eqb (Hash x) hash) eqn:E.
    { apply matches_key in E. congruence. }
    rewrite (IH Hpre). reflexivity.
Qed.

(** *** Eviction only removes entries *)

Lemma drop_id_sublist (backupID : string) (entries : list BackupEntry)
    (fs : gmap string FS.File) :
  (drop_id backupID entries fs).1 `sublist_of` entries.
Proof.
  induction entries as [|e rest IH]; simpl; [constructor|].
  destruct (Strs.eqb (ID e) backupID); simpl.
  - apply sublist_cons. reflexivity.
  - destruct (drop_id backupID rest fs) as [rest' fs']. simpl in *.
    apply sublist_skip, IH.
Qed.

Lemma drop_ids_sublist (toDelete : list string) (entries : list BackupEntry)
    (fs : gmap string FS.File) :
  (drop_ids toDelete entries fs).1 `sublist_of` entries.
Proof.
  revert entries fs. induction toDelete as [|i more IH]; intros entries fs; simpl;
    [reflexivity|].
  pose proof (drop_id_sublist i entries fs) as H.
  destruct (drop_id i entries fs) as [entries' fs']. simpl in H.
  etransitivity; [apply IH|exact H].
Qed.

Lemma cleanupOldBackups_sublist (bm : BackupManager) (clk : Clock)
    (entries : list BackupEntry) (itemName : string) (fs : gmap string FS.File) :
  (cleanupOldBackups bm clk entries itemName fs).1 `sublist_of` entries.
Proof. apply drop_ids_sublist. Qed.

Lemma one_entry_per_content_sublist (l k : list BackupEntry) :
  l `sublist_of` k -> one_entry_per_content k -> one_entry_per_content l.
Proof.
  unfold one_entry_per_content. intros Hs Hk.
  apply (sublist_NoDup _ (key <$> k)); [exact Hk|]. apply fmap_sublist, Hs.
Qed.

(** *** [BackupFile] keeps the invariant *)

Lemma BackupFile_invariant (bm : BackupManager) (clk : Clock) (st : Store)
    (itemName filePath reason : string) (tags : list string) :
  one_entry_per_content (entries_of st) ->
  one_entry_per_content
    (entries_of (BackupFile bm clk st itemName filePath reason tags).2).
Proof.
  intros Hinv. unfold BackupFile.
  destruct (negb (FS.PathExists (files st) filePath)); [exact Hinv|].
  destruct (FS.Stat (files st) filePath) as [fileInfo|e]; [|exact Hinv].
  destruct (Hash.CalculateFileHash (files st) filePath) as [hash|e]; [|exact Hinv].
  assert (Hload : Entries (loadManifest st clk) = entries_of st).
  { unfold loadManifest, entries_of. destruct (manifest st); reflexivity. }
  destruct (dedup (Entries (loadManifest st clk)) itemName hash clk reason tags)
    as [[entry entries']|] eqn:Ed.
  - (* the content is known: same keys *)
    simpl. unfold one_entry_per_content, entries_of. simpl.
    rewrite (dedup_keys _ _ _ _ _ _ _ _ Ed), Hload. exact Hinv.
  - destruct (FS.MkdirAll _ _ _ _) as [fs1|e]; [|exact Hinv].
    destruct (copyFile fs1 (now clk) filePath _) as [fs2|e]; [|exact Hinv].
    destruct (cleanupOldBackups bm (later clk) _ itemName fs2) as [entries' fs3] eqn:Ec.
    simpl. unfold entries_of. simpl.
    pose proof (cleanupOldBackups_sublist bm (later clk)
                  (Entries (loadManifest st clk) ++
                   [{| ID := generateBackupID clk itemName hash; ItemName := itemName;
                       OriginalPath := filePath;
                       BackupPath := Path.Join [backupDir bm; "files";
                                                generateBackupID clk itemName hash];
                       Hash := hash; Size := FS.Size fileInfo; CreatedAt := now clk;
                       CreatedBy := Config.CurrentComputer (localConfig bm);
                       Reason := reason; Tags := tags |}]) itemName fs2) as Hsub.
    rewrite Ec in Hsub. simpl in Hsub.
    apply (one_entry_per_content_sublist _ _ Hsub).
    (* a new key at the end *)
    unfold one_entry_per_content. rewrite fmap_app, Hload. apply NoDup_app.
    split; [exact Hinv|]. split.
    + intros k Hk Hin. simpl in Hin. apply list_elem_of_singleton in Hin. subst k.
      apply dedup_None in Ed. rewrite Hload in Ed. contradiction.
    + simpl. apply NoDup_singleton.
Qed.

Lemma run_invariant (bm : BackupManager) (calls : list Call) (st : Store) :
  one_entry_per_content (entries_of st) ->
  one_entry_per_content (entries_of (run bm calls st)).
Proof.
  revert st. induction calls as [|c rest IH]; intros st Hinv; simpl; [exact Hinv|].
  apply IH, BackupFile_invariant. exact Hinv.
Qed.

(** C7: after any sequence of [BackupFile] calls on a fresh backup
    directory, whatever happens to the files in between, the manifest has at
    most one entry per (item name, hash).  A call for a file whose hash has
    an entry for the item returns that entry refreshed: its [created_at] is
    the time of the call, its reason and tags are the ones of the call, and
    its id, item, paths, hash, size and author are the old ones.  The
    refreshed entry stands in the manifest in the place of the old one; no
    entry is added, and no payload is copied: the files are the same. *)
Theorem manifest_one_entry_per_content (bm : BackupManager) :
  (forall calls fs,
     one_entry_per_content
       (entries_of (run bm calls {| files := fs; manifest := None |})))
  /\ (forall clk st m itemName filePath reason tags bytes pre e post,
        manifest st = Some m ->
        one_entry_per_content (Entries m) ->
        Entries m = pre ++ e :: post ->
        ItemName e = itemName -> Hash e = Hash.of_bytes bytes ->
        FS.contents (files st) filePath = Some bytes ->
        let entry :=
          {| ID := ID e; ItemName := itemName; OriginalPath := OriginalPath e;
             BackupPath := BackupPath e; Hash := Hash.of_bytes bytes; Size := Size e;
             CreatedAt := now clk; CreatedBy := CreatedBy e; Reason := reason;
             Tags := tags |} in
        BackupFile bm clk st itemName filePath reason tags
        = (Ok entry,
           {| files := files st;
              manifest := Some {| Version := Version m;
                                  ManifestCreatedAt := ManifestCreatedAt m;
                                  UpdatedAt := UpdatedAt m;
                                  Entries := pre ++ entry :: post |} |})
        /\ length (pre ++ entry :: post) = length (Entries m)).
Proof.
  split.
  - intros calls fs. apply run_invariant. apply NoDup_nil_2.
  - intros clk st m itemName filePath reason tags bytes pre e post
      Hm Hinv Hes Hi Hh Hb entry.
    assert (Hex : exists f, files st !! filePath = Some f /\ FS.isDir f = false
                            /\ FS.data f = bytes).
    { apply SyncFacts.contents_Some, Hb. }
    destruct Hex as (f & Hf & Hd & Hdata).
    unfold BackupFile, FS.PathExists, FS.Stat. rewrite Hf. cbn [negb].
    assert (Hhash : Hash.CalculateFileHash (files st) filePath = Ok (Hash.of_bytes bytes)).
    { apply SyncFacts.CalculateFileHash_contents. eauto. }
    rewrite Hhash.
    assert (Hload : loadManifest st clk = m).
    { unfold loadManifest. rewrite Hm. reflexivity. }
    rewrite Hload, Hes.
    assert (Hkey : key e = (itemName, Hash.of_bytes bytes)).
    { unfold key. rewrite Hi, Hh. reflexivity. }
    assert (Hpre : (itemName, Hash.of_bytes bytes) ∉ key <$> pre).
    { unfold one_entry_per_content in Hinv. rewrite Hes, fmap_app in Hinv.
      apply NoDup_app in Hinv as (_ & Hdis & _).
      intros Hin. apply (Hdis _ Hin). rewrite fmap_cons, Hkey. left. }
    rewrite (dedup_first pre post e itemName _ clk reason tags Hpre Hkey).
    assert (Hentry : refreshed e clk reason tags = entry).
    { subst entry. unfold refreshed. rewrite Hi, Hh. reflexivity. }
    rewrite Hentry. split; [reflexivity|].
    rewrite !length_app. reflexivity.
Qed.

(** Scenario F: three backups of the same bytes make one entry, stamped by
    the last; with room for two, the backups of two more contents push the
    first one out, entry and payload. *)
Example backup_dedup_and_eviction :
  let bm := WithMaxBackups 2 (NewBackupManager "/b" Scenario.H1) in
  let call t s bytes :=
    {| edit := fun fs => <["/t/local/vimrc" := FS.regular bytes t 420]> fs;
       at_ := {| now := t; stamp := s; elapsed := 0 |}; itemName := "Vim";
       filePath := "/t/local/vimrc"; reason := "manual"; tags := [] |} in
  let fresh := {| files := Scenario.dirs; manifest := None |} in
  let after_a := run bm [call 100 "t0" "a"; call 101 "t1" "a"; call 102 "t2" "a"] fresh in
  let after_c := run bm [call 103 "t3" "b"; call 104 "t4" "c"] after_a in
  ((fun e => (Hash e, CreatedAt e)) <$> entries_of after_a)
  = [(Hash.of_bytes "a", 102)]
  /\ ((fun e => (Hash e, CreatedAt e)) <$> entries_of after_c)
     = [(Hash.of_bytes "b", 103); (Hash.of_bytes "c", 104)]
  /\ FS.contents (files after_a) "/b/files/Vim_t0_ca978112" = Some "a"
  /\ FS.contents (files after_c) "/b/files/Vim_t0_ca978112" = None.
Proof. vm_compute. repeat split; reflexivity. Qed.

End BackupFacts.

(* ===================================================================== *)
(** ** The registry of sync items and the two documents                  *)
(* ===================================================================== *)

Module ConfigFacts.
Import Config Docs.
Local Open Scope Z_scope.

(** *** The registry *)

(** One call of [AddSyncItem] as the add command makes it. *)
Record Add := {
  add_name : string;
  add_type : string;
  add_paths : gmap string string;
  add_patterns : list string
}.

(** A history of the registry: the calls in order; a refused call leaves
    the registry as it was. *)
Fixpoint add_all (calls : list Add) (s : SyncItemsData) : SyncItemsData :=
  match calls with
  | [] => s
  | c :: rest =>
      add_all rest
        match AddSyncItem s (add_name c) (add_type c) (add_paths c) (add_patterns c) with
        | inr s' => s'
        | inl _ => s
        end
  end.

Lemma has_name_elem (name : string) (items : list SyncItem) :
  has_name name items = true <-> name ∈ Name <$> items.
Proof.
  induction items as [|item rest IH]; cbn [has_name].
  - rewrite fmap_nil. split; [discriminate|]. intros H. inversion H.
  - rewrite fmap_cons, elem_of_cons.
    destruct (Strs.eqb (Name item) name) eqn:E.
    + apply ValidationFacts.eqb_true in E. split; auto.
    + rewrite IH. split; [auto|]. intros [H|H]; [|exact H].
      symmetry in H. apply ValidationFacts.eqb_true in H. congruence.
Qed.

Lemma has_name_false (name : string) (items : list SyncItem) :
  has_name name items = false <-> name ∉ Name <$> items.
Proof.
  rewrite <- has_name_elem. destruct (has_name name items); split; congruence.
Qed.

Lemma AddSyncItem_keeps_NoDup (s : SyncItemsData) (name itemType : string)
    (paths : gmap string string) (excludePatterns : list string) :
  NoDup (Name <$> SyncItems s) ->
  NoDup (Name <$> SyncItems
           match AddSyncItem s name itemType paths excludePatterns with
           | inr s' => s'
           | inl _ => s
           end).
Proof.
  intros Hs. unfold AddSyncItem.
  destruct (has_name name (SyncItems s)) eqn:E; [exact Hs|].
  cbn [SyncItems]. rewrite fmap_app. apply NoDup_app. split; [exact Hs|].
  split; [|apply NoDup_singleton].
  intros x Hx Hin. cbn in Hin. apply list_elem_of_singleton in Hin. subst x.
  apply has_name_false in E. contradiction.
Qed.

Lemma add_all_NoDup (calls : list Add) (s : SyncItemsData) :
  NoDup (Name <$> SyncItems s) -> NoDup (Name <$> SyncItems (add_all calls s)).
Proof.
  revert s. induction calls as [|c rest IH]; intros s Hs; simpl; [exact Hs|].
  apply IH, AddSyncItem_keeps_NoDup, Hs.
Qed.

Lemma add_all_prefix (calls : list Add) (s : SyncItemsData) :
  exists more, SyncItems (add_all calls s) = SyncItems s ++ more.
Proof.
  revert s. induction calls as [|c rest IH]; intros s; simpl.
  - exists []. rewrite app_nil_r. reflexivity.
  - destruct (IH match AddSyncItem s (add_name c) (add_type c) (add_paths c)
                         (add_patterns c) with inr s' => s' | inl _ => s end)
      as [more Hm].
    rewrite Hm. unfold AddSyncItem.
    destruct (has_name (add_name c) (SyncItems s)); cbn [SyncItems].
    + exists more. reflexivity.
    + eexists. rewrite <- app_assoc. reflexivity.
Qed.

(** X1: whatever is added, in whatever order, no two items of the registry
    bear the same name, and an item once added stays where it is: a call
    with a name already there is refused with the error that quotes the
    name, a call with a new name puts the item at the end. *)
Theorem AddSyncItem_names_unique (calls : list Add) :
  NoDup (Name <$> SyncItems (add_all calls NewSyncItemsData))
  /\ (forall s name itemType paths excludePatterns,
        AddSyncItem s name itemType paths excludePatterns
        = if bool_decide (name ∈ Name <$> SyncItems s)
          then inl ("sync item with name '" +:+ name +:+ "' already exists")
          else inr {| SyncItems := SyncItems s ++
                        [{| Name := name; Type_ := itemType; Paths := paths;
                            ExcludePatterns := excludePatterns |}] |})
  /\ (forall s more, exists later,
        SyncItems (add_all more s) = SyncItems s ++ later).
Proof.
  split; [apply add_all_NoDup; simpl; apply NoDup_nil_2|]. split.
  - intros s name itemType paths excludePatterns. unfold AddSyncItem.
    destruct (has_name name (SyncItems s)) eqn:E.
    + apply has_name_elem in E. rewrite bool_decide_eq_true_2 by exact E. reflexivity.
    + apply has_name_false in E. rewrite bool_decide_eq_false_2 by exact E. reflexivity.
  - intros s more. apply add_all_prefix.
Qed.

Lemma FindSyncItem_app (l k : list SyncItem) (name : string) :
  FindSyncItem (l ++ k) name
  = match FindSyncItem l name with
    | Some item => Some item
    | None => FindSyncItem k name
    end.
Proof.
  induction l as [|item rest IH]; simpl; [reflexivity|].
  destruct (Strs.eqb (Name item) name); [reflexivity|exact IH].
Qed.

Lemma FindSyncItem_None (l : list SyncItem) (name : string) :
  FindSyncItem l name = None <-> has_name name l = false.
Proof.
  induction l as [|item rest IH]; simpl; [tauto|].
  destruct (Strs.eqb (Name item) name); [split; discriminate|exact IH].
Qed.

Lemma FindSyncItem_Some (l : list SyncItem) (name : string) (item : SyncItem) :
  FindSyncItem l name = Some item -> Name item = name /\ item ∈ l.
Proof.
  induction l as [|x rest IH]; simpl; [discriminate|].
  destruct (Strs.eqb (Name x) name) eqn:E.
  - intros [= <-]. apply ValidationFacts.eqb_true in E. split; [exact E|]. left.
  - intros H. destruct (IH H) as [Hn Hin]. split; [exact Hn|]. right. exact Hin.
Qed.

(** X2: an item that [AddSyncItem] accepts is the one [FindSyncItem] returns
    for its name, with the type, paths and patterns given; the items found
    for every other name are the ones found before; and what [FindSyncItem]
    returns always bears the name asked for.  A refused call is one whose
    name [FindSyncItem] already finds. *)
Theorem FindSyncItem_after_AddSyncItem (s : SyncItemsData) (name itemType : string)
    (paths : gmap string string) (excludePatterns : list string) :
  match AddSyncItem s name itemType paths excludePatterns with
  | inr s' =>
      FindSyncItem (SyncItems s) name = None
      /\ FindSyncItem (SyncItems s') name
         = Some {| Name := name; Type_ := itemType; Paths := paths;
                   ExcludePatterns := excludePatterns |}
      /\ forall other, other <> name ->
           FindSyncItem (SyncItems s') other = FindSyncItem (SyncItems s) other
  | inl _ =>
      exists item, FindSyncItem (SyncItems s) name = Some item /\ Name item = name
  end.
Proof.
  unfold AddSyncItem. destruct (has_name name (SyncItems s)) eqn:E.
  - destruct (FindSyncItem (SyncItems s) name) as [item|] eqn:F.
    + exists item. split; [reflexivity|]. apply (FindSyncItem_Some _ _ _ F).
    + apply FindSyncItem_None in F. congruence.
  - cbn [SyncItems]. apply FindSyncItem_None in E. split; [exact E|]. split.
    + rewrite FindSyncItem_app, E. simpl.
      rewrite (proj2 (ValidationFacts.eqb_true name name) eq_refl). reflexivity.
    + intros other Hne. rewrite FindSyncItem_app.
      destruct (FindSyncItem (SyncItems s) other); [reflexivity|]. simpl.
      destruct (Strs.eqb name other) eqn:E2; [|reflexivity].
      apply ValidationFacts.eqb_true in E2. congruence.
Qed.

End ConfigFacts.

(* ===================================================================== *)
(** ** The two documents                                                 *)
(* ===================================================================== *)

Module DocsFacts.
Import Config Docs.
Local Open Scope Z_scope.

Lemma GetFileState_item_states (f : FileStatesData) (itemName filePath : string) :
  GetFileState f itemName filePath = item_states f itemName !! filePath.
Proof.
  unfold GetFileState, item_states. destruct (States f !! itemName); reflexivity.
Qed.

Lemma GetFileMetadata_item_metadata (f : FileMetadataData) (itemName filePath : string) :
  GetFileMetadata f itemName filePath = item_metadata f itemName !! filePath.
Proof.
  unfold GetFileMetadata, item_metadata. destruct (Metadata f !! itemName); reflexivity.
Qed.

Lemma GetFileMetadata_put_ne (f : FileMetadataData) (itemName filePath i p : string)
    (m : FileMetadata) :
  (i, p) <> (itemName, filePath) ->
  GetFileMetadata (put_metadata f itemName filePath m) i p = GetFileMetadata f i p.
Proof.
  intros Hne. rewrite (GetFileMetadata_item_metadata f).
  unfold GetFileMetadata, put_metadata. cbn [Metadata].
  destruct (decide (i = itemName)) as [->|Hi].
  - rewrite lookup_insert_eq. apply lookup_insert_ne. congruence.
  - rewrite lookup_insert_ne by congruence. unfold item_metadata.
    destruct (Metadata f !! i); reflexivity.
Qed.

(** X3: [UpdateFileState] then [GetFileState] for the same item and path
    gives the state just recorded: the hash, the size, the mtime to the
    second and the time of the check; the states of every other item or
    path are what they were. *)
Theorem GetFileState_after_UpdateFileState (f : FileStatesData) (now : Z)
    (itemName filePath hash : string) (modTime size : Z) :
  GetFileState (UpdateFileState f now itemName filePath hash modTime size)
    itemName filePath
  = Some {| LocalHash := hash; ModTime := Some (Time.RFC3339 modTime); Size := size;
            LastChecked := Some (Time.RFC3339 now) |}
  /\ forall i p, (i, p) <> (itemName, filePath) ->
       GetFileState (UpdateFileState f now itemName filePath hash modTime size) i p
       = GetFileState f i p.
Proof.
  split.
  - unfold GetFileState, UpdateFileState. cbn [States].
    rewrite lookup_insert_eq. apply lookup_insert_eq.
  - intros i p Hne. rewrite (GetFileState_item_states f).
    unfold GetFileState, UpdateFileState. cbn [States].
    destruct (decide (i = itemName)) as [->|Hi].
    + rewrite lookup_insert_eq. apply lookup_insert_ne. congruence.
    + rewrite lookup_insert_ne by congruence. unfold item_states.
      destruct (States f !! i); reflexivity.
Qed.

(** X4: [UpdateFileMetadata] records the hash and the mtime of the file on
    one computer and names that computer as the last to update; the cloud
    hash and the cloud mtime of the file, what the other computers
    recorded for it, and the metadata of every other file are what they
    were. *)
Theorem UpdateFileMetadata_keeps_the_rest (f : FileMetadataData) (now : Z)
    (itemName filePath computerID hash : string) (modTime : Z) :
  let f' := UpdateFileMetadata f now itemName filePath computerID hash modTime in
  (exists m, GetFileMetadata f' itemName filePath = Some m
     /\ Computers m !! computerID
        = Some {| Hash := hash; CModTime := Some (Time.RFC3339 modTime) |}
     /\ UpdatedBy m = computerID
     /\ LastUpdated m = Some (Time.RFC3339 now)
     /\ CloudHash m = CloudHash (file_metadata f itemName filePath)
     /\ CloudModTime m = CloudModTime (file_metadata f itemName filePath)
     /\ forall c, c <> computerID ->
          Computers m !! c = Computers (file_metadata f itemName filePath) !! c)
  /\ forall i p, (i, p) <> (itemName, filePath) ->
       GetFileMetadata f' i p = GetFileMetadata f i p.
Proof.
  intros f'. split.
  - eexists. split; [apply SyncFacts.GetFileMetadata_put|]. cbn.
    split; [apply lookup_insert_eq|]. do 4 (split; [reflexivity|]).
    intros c Hc. apply lookup_insert_ne. congruence.
  - intros i p Hne. apply GetFileMetadata_put_ne, Hne.
Qed.

End DocsFacts.

(* ===================================================================== *)
(** ** Push, pull and smart sync together                                *)
(* ===================================================================== *)

Module SyncLaws.
Import Config Docs Sync FS FSFacts SyncFacts.
Local Open Scope Z_scope.
#[local] Arguments String.append : simpl nomatch.
#[local] Opaque copy_buffer.

(** *** Pull *)

Lemma lastKnownCloudHash_file_metadata (w : World) (item : Config.SyncItem)
    (localPath : string) :
  lastKnownCloudHash w item localPath
  = CloudHash (file_metadata (cloudMetadata w) (Name item) localPath).
Proof.
  unfold lastKnownCloudHash, file_metadata, item_metadata.
  destruct (Metadata (cloudMetadata w) !! Name item) as [im|]; simpl.
  - destruct (im !! localPath); reflexivity.
  - rewrite lookup_empty. reflexivity.
Qed.

Lemma file_metadata_put (f : FileMetadataData) (itemName filePath : string)
    (m : FileMetadata) :
  file_metadata (put_metadata f itemName filePath m) itemName filePath = m.
Proof.
  unfold file_metadata, item_metadata, put_metadata. cbn [Metadata].
  rewrite lookup_insert_eq. simpl. rewrite lookup_insert_eq. reflexivity.
Qed.

Lemma pullItem_world (s : SyncEngine) (item : Config.SyncItem)
    (localPath cloudPath : string) (w w' : World) (r : SyncResult) :
  plain s -> Type_ item = "file" -> localPath <> cloudPath ->
  pullItem s item localPath cloudPath w = (Ok r, w') ->
  exists w0 fl,
    copyFile cloudPath localPath w = (None, w0)
    /\ files w0 !! localPath = Some fl
    /\ w' = (updateFileMetadata s w0 (Name item) localPath (info fl)
               (Hash.of_bytes (data fl))).2.
Proof.
  intros [Hg Hgs] Ht Hne.
  unfold pullItem, git_call, git_safe. rewrite Hg, Hgs, Ht.
  destruct (PathExists (files w) cloudPath); [|discriminate]. cbn [negb].
  change (Strs.eqb "file" "file") with true. cbv iota.
  destruct (copyFile cloudPath localPath w) as [[e0|] w0] eqn:Ecp; [discriminate|].
  pose proof Ecp as Hspec. apply copyFile_spec in Hspec
    as (_ & bytes & _ & Hc & _); [|congruence].
  apply contents_Some in Hc as (fl & Hfl & Hd & Hdata).
  unfold Stat. rewrite Hfl.
  assert (Hh : Hash.CalculateFileHash (files w0) localPath = Ok (Hash.of_bytes (data fl))).
  { apply CalculateFileHash_contents. exists (data fl). split; [|reflexivity].
    apply contents_Some. eauto. }
  rewrite Hh. cbn [updateFileMetadata files warn].
  intros [= <- <-]. exists w0, fl. auto.
Qed.


(** *** A second push *)

Lemma pushed_unchanged (s : SyncEngine) (item : Config.SyncItem)
    (localPath cloudPath : string) (w w' : World) (r : SyncResult) (bytes : string) :
  pushed s item localPath cloudPath w w' r bytes -> unchanged w' (Name item) localPath.
Proof.
  intros (_ & Hl & _ & _ & _ & _ & _ & Hst & _).
  destruct (GetFileState (fileStates w') (Name item) localPath) as [st|] eqn:E;
    [|discriminate].
  exists st, bytes. split; [exact E|]. split; [exact Hl|].
  simpl in Hst. congruence.
Qed.

Lemma unchanged_dec (w : World) (itemName filePath : string) :
  unchanged w itemName filePath \/ ~ unchanged w itemName filePath.
Proof.
  destruct (isFileChanged w itemName filePath) as [b e] eqn:E.
  destruct b, e;
    try (right; intros H; apply isFileChanged_unchanged in H; congruence).
  left. apply isFileChanged_unchanged, E.
Qed.

(** X6: a push that returned a result leaves nothing for the next push to
    do: the same push run again on the world the first one left is skipped
    as unchanged, counts one file skipped and none changed, and leaves the
    files, their history and the two documents exactly as they are. *)
Theorem pushItem_again_is_skipped (s : SyncEngine) (item : Config.SyncItem)
    (localPath cloudPath : string) (w w' : World) (r : SyncResult) :
  plain s -> Type_ item = "file" -> localPath <> cloudPath ->
  pushItem s item localPath cloudPath w = (Ok r, w') ->
  exists r', pushItem s item localPath cloudPath w' = (Ok r', w')
    /\ FilesSkipped r' = 1 /\ FilesChanged r' = 0 /\ Errors r' = []
    /\ Message r' = Name item +:+ " unchanged - skipped".
Proof.
  intros Hp Ht Hne Hpush.
  assert (Hu : unchanged w' (Name item) localPath).
  { destruct (unchanged_dec w (Name item) localPath) as [Hu|Hch].
    - rewrite (pushItem_unchanged s item localPath cloudPath w Ht Hu) in Hpush.
      injection Hpush as _ <-. exact Hu.
    - destruct (pushItem_copies s item localPath cloudPath w w' r Hp Ht Hne Hch Hpush)
        as (bytes & Hb).
      apply (pushed_unchanged s item localPath cloudPath w w' r bytes Hb). }
  rewrite (pushItem_unchanged s item localPath cloudPath w' Ht Hu).
  eexists. split; [reflexivity|]. repeat split; reflexivity.
Qed.

(** *** Smart sync of an item already in sync *)

Lemma smartSyncItem_same_bytes (s : SyncEngine) (item : Config.SyncItem)
    (localPath cloudPath : string) (w : World) (bytes : string) :
  Type_ item = "file" ->
  contents (files w) localPath = Some bytes ->
  contents (files w) cloudPath = Some bytes ->
  exists r w', smartSyncItem s item localPath cloudPath w = (Ok r, w')
    /\ files w' = files w /\ seen w' = seen w
    /\ FilesSkipped r = 1 /\ FilesChanged r = 0 /\ FilesErrored r = 0
    /\ Errors r = []
    /\ Message r = Name item +:+ " is already in sync (hash match)"
    /\ LocalHash <$> GetFileState (fileStates w') (Name item) localPath
       = Some (Hash.of_bytes bytes).
Proof.
  intros Ht Hl Hc.
  pose proof Hl as Hl'. apply contents_Some in Hl' as (fl & Hfl & _).
  pose proof Hc as Hc'. apply contents_Some in Hc' as (fc & Hfc & _).
  unfold smartSyncItem.
  rewrite (PathExists_Some _ _ _ Hfl), (PathExists_Some _ _ _ Hfc), Ht. cbn [negb andb].
  change (Strs.eqb "file" "file") with true. cbv iota.
  unfold smartSyncFile.
  assert (Hhl : Hash.CalculateFileHash (files w) localPath = Ok (Hash.of_bytes bytes)).
  { apply CalculateFileHash_contents. eauto. }
  assert (Hhc : Hash.CalculateFileHash (files w) cloudPath = Ok (Hash.of_bytes bytes)).
  { apply CalculateFileHash_contents. eauto. }
  rewrite Hhl, Hhc.
  rewrite (proj2 (ValidationFacts.eqb_true _ _) eq_refl).
  unfold Stat. rewrite Hfl. cbn [updateFileMetadata warn].
  eexists _, _. split; [reflexivity|]. cbn.
  do 7 (split; [reflexivity|]). apply GetFileState_Update.
Qed.

(** X7: a push or a pull that copied a file leaves the item in sync for
    smart sync: run on the world the copy left, smart sync of the item
    finds the two hashes equal, counts one file skipped and none changed
    or errored, reports no conflict, and copies nothing: every file other
    than the engine's two documents, which it rewrites, keeps its bytes. *)
Theorem smartSyncItem_after_copy_skips (s : SyncEngine) (item : Config.SyncItem)
    (localPath cloudPath : string) (w w' : World) (r : SyncResult) :
  plain s -> Type_ item = "file" -> localPath <> cloudPath ->
  documents_apart s localPath cloudPath ->
  FilesChanged r = 1 ->
  pushItem s item localPath cloudPath w = (Ok r, w')
  \/ pullItem s item localPath cloudPath w = (Ok r, w') ->
  exists r' w'', smartSyncItem s item localPath cloudPath w' = (Ok r', w'')
    /\ (forall p, p ∉ documents s -> contents (files w'') p = contents (files w') p)
    /\ contents (files w'') localPath = contents (files w'') cloudPath
    /\ FilesSkipped r' = 1 /\ FilesChanged r' = 0 /\ FilesErrored r' = 0
    /\ Message r' = Name item +:+ " is already in sync (hash match)".
Proof.
  intros Hp Ht Hne _ Hone Hcopy.
  assert (Hsame : exists bytes, contents (files w') localPath = Some bytes
                                /\ contents (files w') cloudPath = Some bytes).
  { destruct Hcopy as [Hpush|Hpull].
    - destruct (unchanged_dec w (Name item) localPath) as [Hu|Hch].
      + rewrite (pushItem_unchanged s item localPath cloudPath w Ht Hu) in Hpush.
        injection Hpush as <- _. discriminate.
      + destruct (pushItem_copies s item localPath cloudPath w w' r Hp Ht Hne Hch Hpush)
          as (bytes & _ & Hl & Hc & _). eauto.
    - destruct (pullItem_copies s item localPath cloudPath w w' r Hp Ht Hne Hpull)
        as (bytes & _ & Hl & Hc & _). eauto. }
  destruct Hsame as (bytes & Hl & Hc).
  destruct (smartSyncItem_same_bytes s item localPath cloudPath w' bytes Ht Hl Hc)
    as (r' & w'' & H & H1 & H2 & H3 & H4 & H5 & H6 & H7 & _).
  exists r', w''. split; [exact H|].
  split; [intros p _; rewrite H1; reflexivity|].
  split; [rewrite H1, Hl, Hc; reflexivity|]. auto.
Qed.

(** *** What a batch counts *)

(** One file at most is counted for an item, and never as errored. *)
Definition counted_once (r : SyncResult) : Prop :=
  FilesErrored r = 0
  /\ ((FilesChanged r = 0 /\ FilesSkipped r = 0)
      \/ (FilesChanged r = 1 /\ FilesSkipped r = 0)
      \/ (FilesChanged r = 0 /\ FilesSkipped r = 1)).

Lemma counted_once_warn (r : SyncResult) (what : string) (e : error) :
  counted_once (warn r what e) <-> counted_once r.
Proof. destruct e; reflexivity. Qed.

Lemma counted_once_add_error (r : SyncResult) (e : string) :
  counted_once (add_error r e) <-> counted_once r.
Proof. reflexivity. Qed.

Lemma counted_once_with_message (r : SyncResult) (m : string) :
  counted_once (with_message r m) <-> counted_once r.
Proof. reflexivity. Qed.

Lemma counted_once_changed_one (r : SyncResult) :
  FilesErrored r = 0 -> FilesSkipped r = 0 -> counted_once (changed_one r).
Proof. intros He Hs. split; [exact He|]. right. left. split; [reflexivity|exact Hs]. Qed.

Lemma counted_once_skipped_one (r : SyncResult) :
  FilesErrored r = 0 -> FilesChanged r = 0 -> counted_once (skipped_one r).
Proof. intros He Hs. split; [exact He|]. right. right. split; [exact Hs|reflexivity]. Qed.

(** A result that so far counts nothing. *)
Definition blank (r : SyncResult) : Prop :=
  FilesErrored r = 0 /\ FilesChanged r = 0 /\ FilesSkipped r = 0.

Lemma blank_new_result (op : Z) : blank (new_result op).
Proof. repeat split. Qed.

Lemma blank_warn (r : SyncResult) (what : string) (e : error) :
  blank r -> blank (warn r what e).
Proof. destruct e; exact id. Qed.

Lemma blank_add_error (r : SyncResult) (e : string) : blank r -> blank (add_error r e).
Proof. exact id. Qed.

Lemma blank_with_message (r : SyncResult) (m : string) :
  blank r -> blank (with_message r m).
Proof. exact id. Qed.

Lemma blank_git_call (s : SyncEngine) (filePath operation what : string)
    (r : SyncResult) (w : World) :
  blank r -> blank (git_call s filePath operation what r w).1.
Proof.
  intros H. unfold git_call. destruct (gitCallback s) as [cb|]; [|exact H].
  destruct (cb _ _ _ _) as [err w']. apply blank_warn, H.
Qed.

Lemma blank_changed (r : SyncResult) (m : string) :
  blank r -> counted_once (with_message (changed_one r) m).
Proof.
  intros (He & _ & Hs). apply counted_once_with_message, counted_once_changed_one; assumption.
Qed.

Lemma blank_skipped (r : SyncResult) (m : string) :
  blank r -> counted_once (skipped_one (with_message r m)).
Proof. intros (He & Hc & _). apply counted_once_skipped_one; assumption. Qed.

Lemma blank_counted (r : SyncResult) : blank r -> counted_once r.
Proof. intros (He & Hc & Hs). split; [exact He|]. left. auto. Qed.

Create HintDb counts.
#[local] Hint Resolve blank_new_result blank_warn blank_add_error blank_with_message
  blank_changed blank_skipped blank_counted : counts.

(** The steps shared by the proofs below: a callback keeps a blank result
    blank, whatever it answers. *)
Ltac through_git_call :=
  match goal with
  | Hb : blank ?r |- context [git_call ?s ?p ?o ?wh ?r ?w] =>
      let Hn := fresh "Hb" in
      pose proof (blank_git_call s p o wh r w Hb) as Hn;
      destruct (git_call s p o wh r w) as [? ?]; cbn [fst] in Hn
  end.

Lemma pushItem_counted_once (s : SyncEngine) (item : Config.SyncItem)
    (localPath cloudPath : string) (w w' : World) (r : SyncResult) :
  pushItem s item localPath cloudPath w = (Ok r, w') -> counted_once r.
Proof.
  unfold pushItem.
  destruct (negb (PathExists (files w) localPath)); [discriminate|].
  set (check := if Strs.eqb (Type_ item) "file" then _ else _).
  assert (Hb : forall err, blank (warn (new_result SyncPush)
                                    "warning: failed to check file changes: " err))
    by (intros err; auto with counts).
  destruct check as [[|] err]; [|destruct err as [e|]];
    [| |intros [= <- _]; auto with counts];
    specialize (Hb err) || specialize (Hb (Some e));
    revert Hb; generalize (warn (new_result SyncPush)
                             "warning: failed to check file changes: " err)
    || generalize (warn (new_result SyncPush)
                     "warning: failed to check file changes: " (Some e));
    intros r0 Hb; through_git_call;
    (destruct (Strs.eqb (Type_ item) "file");
     [destruct (git_safe _ _ _ _) as [[?|] ?]; [discriminate|]; through_git_call
     |destruct (copyDir_tree _ _ _) as [[?|] ?]; [discriminate|]]);
    intros H; repeat case_match; simplify_eq; auto 10 with counts.
Qed.

Lemma pullItem_counted_once (s : SyncEngine) (item : Config.SyncItem)
    (localPath cloudPath : string) (w w' : World) (r : SyncResult) :
  pullItem s item localPath cloudPath w = (Ok r, w') -> counted_once r.
Proof.
  unfold pullItem.
  destruct (negb (PathExists (files w) cloudPath)); [discriminate|].
  pose proof (blank_new_result SyncPull) as Hb. revert Hb.
  generalize (new_result SyncPull). intros r0 Hb. through_git_call.
  destruct (Strs.eqb (Type_ item) "file");
    [destruct (git_safe _ _ _ _) as [[?|] ?]; [discriminate|]; through_git_call
    |destruct (copyDir_tree _ _ _) as [[?|] ?]; [discriminate|]];
    intros H; repeat case_match; simplify_eq; auto 10 with counts.
Qed.

Lemma smartSyncItem_counted_once (s : SyncEngine) (item : Config.SyncItem)
    (localPath cloudPath : string) (w w' : World) (r : SyncResult) :
  smartSyncItem s item localPath cloudPath w = (Ok r, w') -> counted_once r.
Proof.
  unfold smartSyncItem, smartSyncFile, smartSyncDirectory.
  intros H.
  repeat (case_match; simplify_eq);
    eauto using pushItem_counted_once, pullItem_counted_once with counts.
Qed.

Lemma SyncItem_counted_once (s : SyncEngine) (operation : Z) (item : Config.SyncItem)
    (w w' : World) (r : SyncResult) :
  Sync.SyncItem s operation item w = (Ok r, w') -> counted_once r.
Proof.
  unfold Sync.SyncItem. intros H.
  repeat (case_match; simplify_eq);
    eauto using pushItem_counted_once, pullItem_counted_once, smartSyncItem_counted_once.
Qed.

(** The items of a batch for which [SyncItem] returns an error, each run on
    the world the one before left. *)
Fixpoint failures (s : SyncEngine) (operation : Z) (syncItems : list Config.SyncItem)
    (w : World) : Z :=
  match syncItems with
  | [] => 0
  | item :: rest =>
      match Sync.SyncItem s operation item w with
      | (Err _, w') => 1 + failures s operation rest w'
      | (Ok _, w') => failures s operation rest w'
      end
  end.

Lemma failures_bounds (s : SyncEngine) (operation : Z) (syncItems : list Config.SyncItem)
    (w : World) :
  0 <= failures s operation syncItems w <= Z.of_nat (length syncItems).
Proof.
  revert w. induction syncItems as [|item rest IH]; intros w; simpl; [lia|].
  destruct (Sync.SyncItem s operation item w) as [[r|e] w']; specialize (IH w'); lia.
Qed.

Lemma SyncAll_loop_counts (s : SyncEngine) (operation : Z)
    (syncItems : list Config.SyncItem) (result : SyncResult) (w : World) :
  let out := (SyncAll_loop s operation syncItems result w).1 in
  FilesErrored out = FilesErrored result + failures s operation syncItems w
  /\ Success out = Success result
  /\ FilesChanged result <= FilesChanged out
  /\ FilesSkipped result <= FilesSkipped out
  /\ (FilesChanged out - FilesChanged result) + (FilesSkipped out - FilesSkipped result)
     + failures s operation syncItems w <= Z.of_nat (length syncItems).
Proof.
  revert result w. induction syncItems as [|item rest IH]; intros result w.
  - simpl. repeat split; try reflexivity; lia.
  - cbn [SyncAll_loop failures length].
    destruct (Sync.SyncItem s operation item w) as [[r|e] w'] eqn:E.
    + apply SyncItem_counted_once in E as [He Hc].
      match goal with |- context [SyncAll_loop s operation rest ?r0 w'] =>
        specialize (IH r0 w') end.
      cbn [FilesErrored FilesChanged FilesSkipped Success] in IH. cbv zeta in *.
      destruct IH as (? & ? & ? & ? & ?). repeat split; try assumption; lia.
    + match goal with |- context [SyncAll_loop s operation rest ?r0 w'] =>
        specialize (IH r0 w') end.
      cbn [FilesErrored FilesChanged FilesSkipped Success] in IH. cbv zeta in *.
      destruct IH as (? & ? & ? & ? & ?). repeat split; try assumption; lia.
Qed.

(** X8: the errored count of [SyncAll] is the number of items for which
    [SyncItem] returned an error, and the batch is a success exactly when
    there is none: a result that [SyncItem] returns, a conflict of smart
    sync included, is never counted as errored.  Every item is counted at
    most once: changed, skipped and errored together never exceed the
    number of items. *)
Theorem SyncAll_counts_returned_errors (s : SyncEngine) (operation : Z)
    (syncItems : list Config.SyncItem) (w : World) :
  let total := (Sync.SyncAll s operation syncItems w).1 in
  FilesErrored total = failures s operation syncItems w
  /\ (Success total = true <-> failures s operation syncItems w = 0)
  /\ 0 <= FilesChanged total /\ 0 <= FilesSkipped total
  /\ FilesChanged total + FilesSkipped total + FilesErrored total
     <= Z.of_nat (length syncItems)
  /\ forall item w0 r w1,
       Sync.SyncItem s operation item w0 = (Ok r, w1) -> FilesErrored r = 0.
Proof.
  intros total. subst total. unfold Sync.SyncAll.
  pose proof (SyncAll_loop_counts s operation syncItems (new_result operation) w) as H.
  pose proof (failures_bounds s operation syncItems w) as Hf.
  destruct (SyncAll_loop s operation syncItems (new_result operation) w) as [result w'].
  cbv zeta in H. cbn [fst new_result FilesErrored FilesChanged FilesSkipped Success] in *.
  destruct H as (He & Hs & Hc & Hk & Hsum).
  split; [lia|]. split.
  - rewrite Hs. destruct (Z.ltb_spec 0 (FilesErrored result)); split; intros; try lia;
      try discriminate; reflexivity.
  - split; [lia|]. split; [lia|]. split; [lia|].
    intros item w0 r w1 E. apply (SyncItem_counted_once s operation item w0 w1 r E).
Qed.

(** *** The file copy *)

Lemma MkdirAll_go_lookup (fuel : nat) (fs fs' : gmap string File) (now : Z)
    (path : string) (mode : Z) (p : string) (f : File) :
  MkdirAll_go fuel fs now path mode = Ok fs' -> fs !! p = Some f -> fs' !! p = Some f.
Proof.
  revert fs' path. induction fuel as [|n IH]; intros fs' path; simpl.
  - destruct (fs !! path) as [d|] eqn:E.
    + destruct (isDir d); [|discriminate]. intros [= <-]. exact id.
    + intros [= <-] Hp. rewrite lookup_insert_ne by congruence. exact Hp.
  - destruct (fs !! path) as [d|] eqn:E.
    + destruct (isDir d); [|discriminate]. intros [= <-]. exact id.
    + destruct (Strs.eqb (Path.Dir path) path).
      * intros [= <-] Hp. rewrite lookup_insert_ne by congruence. exact Hp.
      * destruct (MkdirAll_go n fs now (Path.Dir path) mode) as [fs1|e] eqn:E1;
          [|discriminate].
        simpl. intros [= <-] Hp. rewrite lookup_insert_ne by congruence.
        apply (IH fs1 (Path.Dir path) E1 Hp).
Qed.

Lemma MkdirAll_present (fs : gmap string File) (now : Z) (path : string) (mode : Z) :
  is_dir fs path = true -> MkdirAll fs now path mode = Ok fs.
Proof.
  unfold MkdirAll, is_dir. intros H.
  destruct (String.length path); simpl; destruct (fs !! path) as [d|];
    try discriminate; rewrite H; reflexivity.
Qed.



(** *** The laws on the scenarios *)

(** The documents of the scenarios' engine are none of the item's paths. *)
Lemma scenario_documents_apart :
  documents_apart Scenario.engine Scenario.local Scenario.cloud.
Proof.
  split; [reflexivity|].
  split; intros H; vm_compute in H;
    repeat (apply elem_of_cons in H as [H|H]; [discriminate H|]);
    inversion H.
Qed.


Lemma pushItem_again_is_skipped_witness :
  let out := pushItem Scenario.engine Scenario.Vim Scenario.local Scenario.cloud
               Scenario.first_push in
  plain Scenario.engine /\ Type_ Scenario.Vim = "file"
  /\ Scenario.local <> Scenario.cloud
  /\ is_ok out.1 = true
  /\ exists r', pushItem Scenario.engine Scenario.Vim Scenario.local Scenario.cloud out.2
                = (Ok r', out.2)
       /\ FilesSkipped r' = 1 /\ FilesChanged r' = 0 /\ Errors r' = []
       /\ Message r' = Name Scenario.Vim +:+ " unchanged - skipped".
Proof.
  cbv zeta.
  assert (Hp : plain Scenario.engine) by (split; reflexivity).
  assert (Hne : Scenario.local <> Scenario.cloud) by discriminate.
  destruct (pushItem Scenario.engine Scenario.Vim Scenario.local Scenario.cloud
              Scenario.first_push) as [[r|e] w'] eqn:E;
    [|vm_compute in E; discriminate].
  split; [exact Hp|]. split; [reflexivity|]. split; [exact Hne|].
  split; [reflexivity|].
  apply (pushItem_again_is_skipped Scenario.engine Scenario.Vim Scenario.local
           Scenario.cloud Scenario.first_push w' r Hp eq_refl Hne E).
Defined.

Lemma smartSyncItem_after_copy_skips_witness :
  let out := pushItem Scenario.engine Scenario.Vim Scenario.local Scenario.cloud
               Scenario.push_over_old in
  plain Scenario.engine /\ Type_ Scenario.Vim = "file"
  /\ Scenario.local <> Scenario.cloud
  /\ documents_apart Scenario.engine Scenario.local Scenario.cloud
  /\ (exists r, out.1 = Ok r /\ FilesChanged r = 1)
  /\ exists r' w'',
       smartSyncItem Scenario.engine Scenario.Vim Scenario.local Scenario.cloud out.2
       = (Ok r', w'')
       /\ (forall p, p ∉ documents Scenario.engine ->
              contents (files w'') p = contents (files out.2) p)
       /\ contents (files w'') Scenario.local = contents (files w'') Scenario.cloud
       /\ FilesSkipped r' = 1 /\ FilesChanged r' = 0 /\ FilesErrored r' = 0
       /\ Message r' = Name Scenario.Vim +:+ " is already in sync (hash match)".
Proof.
  cbv zeta.
  assert (Hp : plain Scenario.engine) by (split; reflexivity).
  assert (Hne : Scenario.local <> Scenario.cloud) by discriminate.
  assert (Hone : match (pushItem Scenario.engine Scenario.Vim Scenario.local
                          Scenario.cloud Scenario.push_over_old).1 with
                 | Ok r => FilesChanged r
                 | Err _ => 0
                 end = 1) by (vm_compute; reflexivity).
  destruct (pushItem Scenario.engine Scenario.Vim Scenario.local Scenario.cloud
              Scenario.push_over_old) as [[r|e] w'] eqn:E;
    [|vm_compute in E; discriminate].
  cbn [fst] in Hone.
  pose proof scenario_documents_apart as Hd.
  split; [exact Hp|]. split; [reflexivity|]. split; [exact Hne|]. split; [exact Hd|].
  split; [exists r; split; [reflexivity|exact Hone]|].
  apply (smartSyncItem_after_copy_skips Scenario.engine Scenario.Vim Scenario.local
           Scenario.cloud Scenario.push_over_old w' r Hp eq_refl Hne Hd Hone
           (or_introl E)).
Defined.



End SyncLaws.

(* ===================================================================== *)
(** ** The hash cache, further                                           *)
(* ===================================================================== *)

Module CacheLaws.
Import Cache CacheFacts.
Local Open Scope Z_scope.

(** *** Set, Remove and Clear *)

Lemma Get_ext (hc hc' : HashCache) (now : Z) (fs : gmap string FS.File) (p : string) :
  maxAge hc' = maxAge hc -> entries hc' !! p = entries hc !! p ->
  Get hc' now fs p = Get hc now fs p.
Proof. intros Hm He. unfold Get. rewrite He, Hm. reflexivity. Qed.

Lemma Get_absent (hc : HashCache) (now : Z) (fs : gmap string FS.File) (p : string) :
  entries hc !! p = None -> Get hc now fs p = (EmptyString, false).
Proof. intros H. unfold Get. rewrite H. reflexivity. Qed.

(** X11: an entry stored with [Set] is served by [Get] for its path exactly
    while it is no older than [maxAge] and the file still has the size and
    the mtime stored with it, and then [Get] gives the hash stored; [Set]
    and [Remove] change the answer for no other path; after [Remove] the
    path is a miss, after [Clear] every path is. *)
Theorem Get_after_Set_Remove_Clear (hc : HashCache) (stamp now : Z)
    (fs : gmap string FS.File) (p hash : string) (size modTime : Z) :
  (Get (Set_ hc stamp p hash size modTime) now fs p = (hash, true)
   <-> Time.Since now stamp <= maxAge hc
       /\ exists fileInfo, FS.Stat fs p = Ok fileInfo
            /\ FS.Size fileInfo = size /\ FS.ModTime fileInfo = modTime)
  /\ (forall q, q <> p ->
        Get (Set_ hc stamp p hash size modTime) now fs q = Get hc now fs q
        /\ Get (Remove hc p) now fs q = Get hc now fs q)
  /\ Get (Remove hc p) now fs p = (EmptyString, false)
  /\ (forall q, Get (Clear hc) now fs q = (EmptyString, false)).
Proof.
  split; [|split; [|split]].
  - rewrite Get_hit. unfold entry_valid, Set_. cbn [entries maxAge].
    rewrite lookup_insert_eq. split.
    + intros (entry & [= <-] & H & _). exact H.
    + intros H. eexists. split; [reflexivity|]. split; [exact H|reflexivity].
  - intros q Hq. split; apply Get_ext; try reflexivity; cbn [Set_ Remove entries].
    + apply lookup_insert_ne. congruence.
    + apply lookup_delete_ne. congruence.
  - apply Get_absent. cbn [Remove entries]. apply lookup_delete_eq.
  - intros q. apply Get_absent. cbn [Clear entries]. apply lookup_empty.
Qed.

(** *** CleanExpired and Invalidate *)

Lemma Sub_mono (now now' t : Z) : now <= now' -> Time.Sub now t <= Time.Sub now' t.
Proof.
  intros H. unfold Time.Sub, Time.maxDuration, Time.minDuration.
  repeat match goal with |- context [?a <? ?b] => destruct (Z.ltb_spec a b) end; lia.
Qed.

Lemma CleanExpired_lookup (hc : HashCache) (now : Z) (p : string) (e : HashCacheEntry) :
  entries (CleanExpired hc now) !! p = Some e
  <-> entries hc !! p = Some e /\ Time.Sub now (CachedAt e) <= maxAge hc.
Proof.
  unfold CleanExpired. cbn [entries]. rewrite map_lookup_filter_Some. cbn [snd].
  rewrite negb_true_iff, Z.ltb_ge. reflexivity.
Qed.

(** X12: [CleanExpired] changes no answer of [Get]: at the time of the
    cleaning and at any later time, [Get] gives for every path what it gave
    on the cache before.  The entries left are the entries no older than
    [maxAge], as they were; the count returned is the number of entries
    gone. *)
Theorem CleanExpired_changes_no_answer (hc : HashCache) (now : Z) :
  (forall now' fs p, now <= now' ->
     Get (CleanExpired hc now) now' fs p = Get hc now' fs p)
  /\ (forall p e, entries (CleanExpired hc now) !! p = Some e
        <-> entries hc !! p = Some e /\ Time.Sub now (CachedAt e) <= maxAge hc)
  /\ (HashCache_Size (CleanExpired hc now) + CleanExpired_removed hc now
      = HashCache_Size hc)%nat.
Proof.
  split; [|split; [apply CleanExpired_lookup|]].
  - intros now' fs p Hle. unfold Get at 1.
    destruct (entries (CleanExpired hc now) !! p) as [e|] eqn:E.
    + apply CleanExpired_lookup in E as [E _]. unfold Get. rewrite E. reflexivity.
    + unfold Get. destruct (entries hc !! p) as [e|] eqn:E0; [|reflexivity].
      destruct (Z.ltb_spec (maxAge hc) (Time.Since now' (CachedAt e))) as [_|Hfresh];
        [reflexivity|].
      exfalso. assert (H : entries (CleanExpired hc now) !! p = Some e).
      { apply CleanExpired_lookup. split; [exact E0|].
        pose proof (Sub_mono now now' (CachedAt e) Hle). unfold Time.Since in Hfresh. lia. }
      congruence.
  - unfold HashCache_Size, CleanExpired_removed, CleanExpired. cbn [entries].
    set (P := fun kv : string * HashCacheEntry =>
                (maxAge hc <? Time.Sub now (CachedAt kv.2)) = true).
    assert (Hc : filter (fun kv : string * HashCacheEntry =>
                           negb (maxAge hc <? Time.Sub now (CachedAt kv.2)) = true)
                   (entries hc)
                 = filter (fun kv => ~ P kv) (entries hc)).
    { apply map_filter_ext. intros i x _. unfold P. cbn [snd].
      destruct (maxAge hc <? Time.Sub now (CachedAt x)); simpl; split; congruence. }
    rewrite Hc.
    rewrite <- (map_filter_union_complement P (entries hc)) at 3.
    rewrite map_size_disj_union by apply map_disjoint_filter_complement. lia.
Qed.

Lemma Invalidate_spec (fs : gmap string FS.File) (filePaths : list string)
    (hc : HashCache) :
  let out := Invalidate hc fs filePaths in
  maxAge out.2 = maxAge hc
  /\ (size (entries out.2) + out.1 = size (entries hc))%nat
  /\ (forall p e, entries out.2 !! p = Some e -> entries hc !! p = Some e)
  /\ (forall p, p ∉ filePaths -> entries out.2 !! p = entries hc !! p)
  /\ (forall p e now, entries hc !! p = Some e -> entries out.2 !! p = None ->
        ~ entry_valid hc now fs p e)
  /\ (forall p e, p ∈ filePaths -> entries out.2 !! p = Some e ->
        exists fileInfo, FS.Stat fs p = Ok fileInfo
          /\ FS.Size fileInfo = Size e /\ FS.ModTime fileInfo = ModTime e).
Proof.
  revert hc. induction filePaths as [|q rest IH]; intros hc; cbn [Invalidate].
  - cbv zeta. cbn [fst snd]. split; [reflexivity|]. split; [lia|].
    split; [auto|]. split; [auto|]. split; [intros; congruence|].
    intros p e Hin. inversion Hin.
  - destruct (entries hc !! q) as [entry|] eqn:Eq.
    + set (changed := match FS.Stat fs q with Ok _ => _ | Err _ => true end).
      destruct changed eqn:Ech.
      * specialize (IH (Remove hc q)).
        destruct (Invalidate (Remove hc q) fs rest) as [n hc'].
        cbv zeta in *. cbn [fst snd Remove entries maxAge] in *.
        destruct IH as (Hm & Hsz & Hsub & Hout & Hgone & Hin).
        assert (Hstale : forall now, ~ entry_valid hc now fs q entry).
        { intros now (_ & fi & Hst & Hs & Ht). subst changed. rewrite Hst in Ech.
          apply orb_true_iff in Ech as [H|H]; apply negb_true_iff in H; lia. }
        split; [exact Hm|]. split.
        { rewrite map_size_delete, Eq in Hsz.
          assert (size (entries hc) <> 0)%nat.
          { intros H0. apply map_size_empty_inv in H0. rewrite H0, lookup_empty in Eq.
            discriminate. }
          simpl in Hsz. lia. }
        split.
        { intros p e Hp. apply Hsub in Hp. apply lookup_delete_Some in Hp as [_ Hp].
          exact Hp. }
        split.
        { intros p Hp. apply not_elem_of_cons in Hp as [Hpq Hp].
          rewrite (Hout p Hp). apply lookup_delete_ne. congruence. }
        split.
        { intros p e now Hp Hnone. destruct (decide (p = q)) as [->|Hpq].
          - rewrite Eq in Hp. injection Hp as <-. apply Hstale.
          - intros Hv. apply (Hgone p e now); [|exact Hnone|].
            + rewrite lookup_delete_ne by congruence. exact Hp.
            + exact Hv. }
        intros p e Hp He. destruct (decide (p = q)) as [->|Hpq].
        { apply Hsub in He. rewrite lookup_delete_eq in He. discriminate. }
        apply elem_of_cons in Hp as [Hp|Hp]; [contradiction|]. apply (Hin p e Hp He).
      * specialize (IH hc). destruct (Invalidate hc fs rest) as [n hc'].
        cbv zeta in *. cbn [fst snd] in *.
        destruct IH as (Hm & Hsz & Hsub & Hout & Hgone & Hin).
        split; [exact Hm|]. split; [exact Hsz|]. split; [exact Hsub|].
        split; [intros p Hp; apply not_elem_of_cons in Hp as [_ Hp]; apply Hout, Hp|].
        split; [exact Hgone|].
        intros p e Hp He. apply elem_of_cons in Hp as [->|Hp]; [|apply (Hin p e Hp He)].
        pose proof (Hsub _ _ He) as He0. rewrite Eq in He0. injection He0 as <-.
        subst changed. destruct (FS.Stat fs q) as [fi|]; [|discriminate].
        apply orb_false_iff in Ech as [H1 H2].
        apply negb_false_iff in H1, H2. exists fi. split; [reflexivity|]. lia.
    + specialize (IH hc). destruct (Invalidate hc fs rest) as [n hc'].
      cbv zeta in *. cbn [fst snd] in *.
      destruct IH as (Hm & Hsz & Hsub & Hout & Hgone & Hin).
      split; [exact Hm|]. split; [exact Hsz|]. split; [exact Hsub|].
      split; [intros p Hp; apply not_elem_of_cons in Hp as [_ Hp]; apply Hout, Hp|].
      split; [exact Hgone|].
      intros p e Hp He. apply elem_of_cons in Hp as [->|Hp]; [|apply (Hin p e Hp He)].
      apply Hsub in He. congruence.
Qed.

(** X13: [Invalidate] deletes, among the paths it is given, the cached ones
    whose file is gone or has another size or mtime, and returns how many:
    the count is the number of entries gone, the entries left are entries
    of before, a path not listed keeps its entry, and a listed path that is
    still cached has the size and the mtime of its file.  No answer of
    [Get] on these files changes: what is deleted was a miss already. *)
Theorem Invalidate_deletes_stale_entries (hc : HashCache) (fs : gmap string FS.File)
    (filePaths : list string) :
  let out := Invalidate hc fs filePaths in
  (HashCache_Size out.2 + out.1 = HashCache_Size hc)%nat
  /\ (forall p e, entries out.2 !! p = Some e -> entries hc !! p = Some e)
  /\ (forall p, p ∉ filePaths -> entries out.2 !! p = entries hc !! p)
  /\ (forall p e, p ∈ filePaths -> entries out.2 !! p = Some e ->
        exists fileInfo, FS.Stat fs p = Ok fileInfo
          /\ FS.Size fileInfo = Size e /\ FS.ModTime fileInfo = ModTime e)
  /\ (forall now p, Get out.2 now fs p = Get hc now fs p).
Proof.
  pose proof (Invalidate_spec fs filePaths hc) as H. cbv zeta in *.
  destruct H as (Hm & Hsz & Hsub & Hout & Hgone & Hin).
  split; [exact Hsz|]. split; [exact Hsub|]. split; [exact Hout|]. split; [exact Hin|].
  intros now p.
  destruct (entries (Invalidate hc fs filePaths).2 !! p) as [e|] eqn:E.
  - apply Get_ext; [exact Hm|]. rewrite E. symmetry. apply Hsub, E.
  - rewrite (Get_absent _ _ _ _ E). symmetry.
    destruct (entries hc !! p) as [e|] eqn:E0; [|apply Get_absent, E0].
    apply Get_miss. intros e' He'. rewrite E0 in He'. injection He' as <-.
    apply (Hgone p e now E0 E).
Qed.

(** *** GetOrCalculate, twice *)

(** X14: a hash that [GetOrCalculate] returned is served from the cache the
    next time: on the same files, and while the entry of the path is no
    older than [maxAge], a second [GetOrCalculate] returns the same hash and
    leaves the cache as it is. *)
Theorem GetOrCalculate_again_is_cached (hc hc' : HashCache) (now stamp now' stamp' : Z)
    (fs : gmap string FS.File) (p h : string) :
  GetOrCalculate hc now stamp fs p = (Ok h, hc') ->
  (forall e, entries hc' !! p = Some e -> Time.Since now' (CachedAt e) <= maxAge hc') ->
  Get hc' now' fs p = (h, true)
  /\ GetOrCalculate hc' now' stamp' fs p = (Ok h, hc').
Proof.
  intros Hfirst Hage.
  assert (Hget : Get hc' now' fs p = (h, true)).
  { unfold GetOrCalculate in Hfirst.
    destruct (Get hc now fs p) as [cached [|]] eqn:Eg.
    - injection Hfirst as <- <-.
      apply Get_hit in Eg as (e & He & (_ & Hst) & ->).
      apply Get_hit. exists e. split; [exact He|]. split; [|reflexivity].
      split; [apply (Hage e He)|exact Hst].
    - unfold calculateFileHash in Hfirst.
      destruct (FS.ReadAll fs p) as [bytes|err] eqn:Er; [|discriminate]. simpl in Hfirst.
      destruct (FS.Stat fs p) as [fi|err] eqn:Es; [|discriminate].
      injection Hfirst as <- <-.
      apply Get_hit. eexists. split; [apply lookup_insert_eq|].
      split; [|reflexivity]. split.
      + apply Hage. apply lookup_insert_eq.
      + exists fi. cbn. auto. }
  split; [exact Hget|]. unfold GetOrCalculate. rewrite Hget. reflexivity.
Qed.

Lemma GetOrCalculate_again_is_cached_witness :
  let fs : gmap string FS.File := {[ "/t/vimrc" := FS.regular "set ts=4" 10 420 ]} in
  let out := GetOrCalculate (NewHashCache 1000) 20 20 fs "/t/vimrc" in
  out.1 = Ok (Hash.of_bytes "set ts=4")
  /\ (forall e, entries out.2 !! "/t/vimrc" = Some e ->
        Time.Since 30 (CachedAt e) <= maxAge out.2)
  /\ Get out.2 30 fs "/t/vimrc" = (Hash.of_bytes "set ts=4", true)
  /\ GetOrCalculate out.2 30 31 fs "/t/vimrc" = (Ok (Hash.of_bytes "set ts=4"), out.2).
Proof.
  cbv zeta.
  set (fs := {[ "/t/vimrc" := FS.regular "set ts=4" 10 420 ]} : gmap string FS.File).
  set (out := GetOrCalculate (NewHashCache 1000) 20 20 fs "/t/vimrc").
  assert (E : out = (Ok (Hash.of_bytes "set ts=4"), out.2)) by (vm_compute; reflexivity).
  assert (Hage : forall e, entries out.2 !! "/t/vimrc" = Some e ->
                           Time.Since 30 (CachedAt e) <= maxAge out.2).
  { intros e He. vm_compute in He. injection He as <-. vm_compute. discriminate. }
  split; [vm_compute; reflexivity|]. split; [exact Hage|].
  apply (GetOrCalculate_again_is_cached (NewHashCache 1000) out.2 20 20 30 31 fs
           "/t/vimrc" (Hash.of_bytes "set ts=4") E Hage).
Defined.

End CacheLaws.

(* ===================================================================== *)
(** ** The shape of a hash                                               *)
(* ===================================================================== *)

Module HashFacts.
Import SHA256.
Local Open Scope Z_scope.

Lemma round_length (st : list Z) (kw : Z * Z) :
  length st = 8%nat -> length (round st kw) = 8%nat.
Proof.
  intros H. do 9 (destruct st as [|? st]; try discriminate). reflexivity.
Qed.

Lemma fold_round_length (kws : list (Z * Z)) (st : list Z) :
  length st = 8%nat -> length (fold_left round kws st) = 8%nat.
Proof.
  revert st. induction kws as [|kw rest IH]; intros st H; simpl; [exact H|].
  apply IH, round_length, H.
Qed.

Lemma compress_length (h block : list Z) :
  length h = 8%nat -> length (compress h block) = 8%nat.
Proof.
  intros H. unfold compress. rewrite length_map, length_combine.
  rewrite (fold_round_length _ h H), H. reflexivity.
Qed.

Lemma blocks_length (n : nat) (bs h : list Z) :
  length h = 8%nat -> length (blocks n bs h) = 8%nat.
Proof.
  revert bs h. induction n as [|n IH]; intros bs h H; simpl; [exact H|].
  apply IH, compress_length, H.
Qed.

Lemma digest_length (msg : list Z) : length (digest msg) = 8%nat.
Proof. unfold digest. apply blocks_length. reflexivity. Qed.

(** A lower-case hexadecimal digit. *)
Definition is_hex (c : ascii) : bool := Strs.between 48 57 c || Strs.between 97 102 c.

Lemma hexdigit_is_hex (n : Z) : 0 <= n < 16 -> is_hex (hexdigit n) = true.
Proof.
  intros H. rewrite <- (Z2Nat.id n) by lia.
  assert (Hk : (Z.to_nat n < 16)%nat) by lia.
  revert Hk. generalize (Z.to_nat n). clear. intros k Hk.
  do 16 (destruct k as [|k]; [reflexivity|]). lia.
Qed.

Lemma hex32_shape (k : nat) (x : Z) (acc : string) :
  exists digits, hex32 k x acc = digits +:+ acc
    /\ String.length digits = k
    /\ Validation.all_bytes is_hex digits = true.
Proof.
  revert x acc. induction k as [|k IH]; intros x acc; simpl.
  - exists EmptyString. auto.
  - destruct (IH (x / 16) (String (hexdigit (x mod 16)) acc)) as (d & -> & Hl & Hh).
    exists (d +:+ String (hexdigit (x mod 16)) EmptyString).
    rewrite PathFacts.append_assoc. split; [reflexivity|]. split.
    + rewrite PathFacts.append_length, Hl. simpl. lia.
    + clear Hl. induction d as [|c d IHd]; simpl.
      * rewrite hexdigit_is_hex by (apply Z.mod_pos_bound; lia). reflexivity.
      * simpl in Hh. apply andb_true_iff in Hh as [Hc Hd]. rewrite Hc. exact (IHd Hd).
Qed.

Lemma all_bytes_app (cls : ascii -> bool) (a b : string) :
  Validation.all_bytes cls (a +:+ b)
  = Validation.all_bytes cls a && Validation.all_bytes cls b.
Proof.
  induction a as [|c a IH]; simpl; [reflexivity|]. rewrite IH, andb_assoc. reflexivity.
Qed.

Lemma hex_words_shape (ws : list Z) :
  String.length (fold_right (fun w acc => hex32 8 w acc) EmptyString ws)
  = (8 * length ws)%nat
  /\ Validation.all_bytes is_hex
       (fold_right (fun w acc => hex32 8 w acc) EmptyString ws) = true.
Proof.
  induction ws as [|w ws [IHl IHh]]; [auto|].
  cbn [fold_right length].
  destruct (hex32_shape 8 w (fold_right (fun w acc => hex32 8 w acc) EmptyString ws))
    as (d & Hd & Hl & Hh).
  rewrite Hd. split.
  - rewrite PathFacts.append_length, Hl, IHl. lia.
  - rewrite all_bytes_app, Hh, IHh. reflexivity.
Qed.

Lemma hex_shape (s : string) :
  String.length (hex s) = 64%nat /\ Validation.all_bytes is_hex (hex s) = true.
Proof.
  unfold hex. destruct (hex_words_shape (digest (bytes_of_string s))) as [Hl Hh].
  rewrite digest_length in Hl. auto.
Qed.

Lemma substring_take (n : nat) (s : string) : String.substring 0 n s = Strs.take n s.
Proof.
  revert s. induction n as [|n IH]; intros [|c s]; simpl; try reflexivity.
  rewrite IH. reflexivity.
Qed.

Lemma take_length (n : nat) (s : string) :
  (n <= String.length s)%nat -> String.length (Strs.take n s) = n.
Proof.
  revert s. induction n as [|n IH]; intros [|c s] H; simpl in *; try lia.
  rewrite IH by lia. reflexivity.
Qed.

(** X15: a hash that [CalculateFileHash] returns is [sha256:] followed by
    64 lower-case hexadecimal digits, 71 bytes in all, whatever the file
    holds; so the slice [hash[7:15]] that [generateBackupID] takes is within
    the hash, and is its first 8 digits. *)
Theorem CalculateFileHash_shape (fs : gmap string FS.File) (filePath h : string) :
  Hash.CalculateFileHash fs filePath = Ok h ->
  String.length h = 71%nat
  /\ exists digits, h = "sha256:" +:+ digits
       /\ String.length digits = 64%nat
       /\ Validation.all_bytes is_hex digits = true
       /\ Strs.slice h 7 15 = Strs.take 8 digits
       /\ String.length (Strs.slice h 7 15) = 8%nat.
Proof.
  unfold Hash.CalculateFileHash. destruct (FS.ReadAll fs filePath) as [bytes|e];
    [|discriminate].
  simpl. intros [= <-]. unfold Hash.of_bytes.
  destruct (hex_shape bytes) as [Hl Hh].
  assert (Hs : Strs.slice ("sha256:" +:+ hex bytes) 7 15 = Strs.take 8 (hex bytes)).
  { unfold Strs.slice. cbn [Nat.sub String.append String.substring].
    apply substring_take. }
  split; [rewrite PathFacts.append_length, Hl; reflexivity|].
  exists (hex bytes). split; [reflexivity|]. split; [exact Hl|]. split; [exact Hh|].
  split; [exact Hs|]. rewrite Hs. apply take_length. lia.
Qed.

Lemma CalculateFileHash_shape_witness :
  let fs : gmap string FS.File := {[ "/t/vimrc" := FS.regular "set ts=4" 10 420 ]} in
  let h := Hash.of_bytes "set ts=4" in
  Hash.CalculateFileHash fs "/t/vimrc" = Ok h
  /\ String.length h = 71%nat
  /\ exists digits, h = "sha256:" +:+ digits
       /\ String.length digits = 64%nat
       /\ Validation.all_bytes is_hex digits = true
       /\ Strs.slice h 7 15 = Strs.take 8 digits
       /\ String.length (Strs.slice h 7 15) = 8%nat.
Proof.
  cbv zeta.
  assert (E : Hash.CalculateFileHash {[ "/t/vimrc" := FS.regular "set ts=4" 10 420 ]}
                "/t/vimrc" = Ok (Hash.of_bytes "set ts=4")) by (vm_compute; reflexivity).
  split; [exact E|].
  apply (CalculateFileHash_shape {[ "/t/vimrc" := FS.regular "set ts=4" 10 420 ]}
           "/t/vimrc" (Hash.of_bytes "set ts=4") E).
Defined.

End HashFacts.

(* ===================================================================== *)
(** ** Atomic copies                                                     *)
(* ===================================================================== *)

Module AtomicLaws.
Import Atomic FS FSFacts PathFacts AtomicFacts.
Local Open Scope Z_scope.
#[local] Opaque copy_buffer.

Lemma atomic_copy_buffer_pos : (0 < copy_buffer)%nat.
Proof. Transparent copy_buffer. unfold copy_buffer. Opaque copy_buffer. lia. Qed.

Section Copy.
Variables (fs0 : gmap string File) (target temp bytes : string).
Hypothesis temp_named : temp <> "".

Lemma copy_chunks_post (fuel : nat) (s s1 : Sys) (d rest : string) (r : res unit) :
  (String.length rest <= fuel)%nat ->
  Good fs0 target temp bytes s -> holding fs0 temp d (files s) ->
  copy_chunks fuel s temp rest = (r, s1) ->
  r = Ok tt /\ Good fs0 target temp bytes s1 /\ holding fs0 temp (d +:+ rest) (files s1).
Proof.
  revert s d rest. induction fuel as [|n IH]; intros s d rest Hlen HG Hh; simpl.
  - destruct rest; [|simpl in Hlen; lia]. intros [= <- <-].
    rewrite append_empty_r. auto.
  - destruct (Strs.eqb rest "") eqn:E.
    { apply ValidationFacts.eqb_true in E as ->. intros [= <- <-].
      rewrite append_empty_r. auto. }
    apply ValidationFacts.eqb_false in E.
    destruct Hh as (Hst & H0 & f & Hf & Hd & Hb).
    assert (Ha : Append (files s) (clock s) temp (Strs.take copy_buffer rest)
                 = Ok (<[temp := regular (d +:+ Strs.take copy_buffer rest) (clock s)
                                   (perm f)]> (files s))).
    { unfold Append. rewrite Hf, Hd, Hb. reflexivity. }
    rewrite Ha. cbn [sys].
    set (s' := {| files := _; clock := clock s; seen := _ |}).
    assert (Hh' : holding fs0 temp (d +:+ Strs.take copy_buffer rest) (files s')).
    { split; [|split; [exact H0|]].
      - apply (staged_insert_temp fs0 temp), Hst.
      - eexists. subst s'. cbn [files]. rewrite lookup_insert_eq.
        split; [reflexivity|]. split; reflexivity. }
    assert (HG' : Good fs0 target temp bytes s').
    { destruct HG as [Hv Hs]. split; [left; apply Hh'|].
      subst s'. cbn [seen]. constructor; [left; apply Hh'|exact Hs]. }
    intros Hc. eapply IH in Hc as (-> & HG1 & Hh1); [|idtac|exact HG'|exact Hh'].
    + split; [reflexivity|]. split; [exact HG1|].
      rewrite append_assoc, SyncFacts.take_drop in Hh1. exact Hh1.
    + rewrite SyncFacts.drop_length. pose proof atomic_copy_buffer_pos.
      destruct rest; [contradiction|]. cbn [String.length] in *. lia.
Qed.

Lemma CopyFrom_post (ft : Faults) (fw : FileWriter) (s s1 : Sys) (src : string)
    (r : res nat) :
  tempPath fw = temp -> tempFile fw = true ->
  contents fs0 src = Some bytes ->
  Good fs0 target temp bytes s -> holding fs0 temp EmptyString (files s) ->
  CopyFrom ft fw s src = (r, s1) ->
  Good fs0 target temp bytes s1 /\ staged fs0 temp (files s1) /\ contents fs0 temp = None
  /\ (is_ok r = true -> holding fs0 temp bytes (files s1)).
Proof.
  intros Ht Ho Hsrc HG Hh. pose proof Hh as (Hst & H0 & f & Hf & Hd & Hb).
  unfold CopyFrom. rewrite Ht, Ho. cbn [negb].
  assert (Hne : src <> temp) by (intros ->; congruence).
  assert (Hrd : ReadAll (files s) src = Ok bytes).
  { apply SyncFacts.ReadAll_contents. rewrite (Hst src Hne). exact Hsrc. }
  rewrite Hrd.
  assert (Hap : forall d st, Append (files s) (clock s) temp d = Ok st -> holding fs0 temp d st).
  { intros d st Ha. apply Append_Ok in Ha as (f' & Hf' & Hd' & ->).
    rewrite Hf in Hf'. injection Hf' as <-. split; [|split].
    - apply (staged_insert_temp fs0 temp), Hst.
    - exact H0.
    - eexists. rewrite lookup_insert_eq. split; [reflexivity|]. split; [reflexivity|].
      simpl. rewrite Hb. reflexivity. }
  destruct (fail_write ft) as [n|].
  - destruct (sys s _) as [o sa] eqn:E. intros [= <- <-].
    destruct (Good_sys fs0 target temp bytes _ _ _ _ HG E) as (HG1 & _ & H1).
    { intros st Hs. left. apply (Hap _ _ Hs). }
    split; [exact HG1|]. split; [|split; [exact H0|discriminate]].
    destruct (Append (files s) (clock s) temp _) as [st|err] eqn:Ea.
    + destruct H1 as [-> _]. apply (Hap _ _ Ea).
    + destruct H1 as [-> _]. exact Hst.
  - destruct (copy_chunks _ s temp bytes) as [o sa] eqn:E.
    apply (copy_chunks_post _ _ _ EmptyString) in E as (-> & HG1 & Hh1);
      [|lia|exact HG|exact Hh].
    intros [= <- <-]. split; [exact HG1|]. split; [apply Hh1|].
    split; [exact H0|]. intros _. exact Hh1.
Qed.

End Copy.

(** X16: [CopyFileAtomic] replaces the destination in one step or not at
    all, whatever fails: a reader of the destination sees at every instant
    what it held before or the whole of the source's bytes.  When the call
    succeeds the destination holds the source's bytes and every other file
    is as before; when it fails every file but the temporary one is as
    before.  With no source file the call fails before it touches
    anything, with the error of the open under the code FILE_NOT_FOUND:
    not a directory when the source path lies below a regular file, no
    such file or directory otherwise. *)
Theorem CopyFileAtomic_all_or_nothing (ft : Faults) (e : Entropy)
    (fs : gmap string File) (now : Z) (srcPath dstPath : string) :
  let temp := generateTempPath e now dstPath in
  let out := CopyFileAtomic ft e (start fs now) srcPath dstPath in
  (fs !! srcPath = None ->
   out = (Err (Errors.NewSyncError "atomic_copy" "" srcPath
                 ("failed to open source file: open " +:+ srcPath +:+ ": "
                  +:+ (if below_file fs srcPath then "not a directory"
                       else "no such file or directory"))
                 Errors.ErrCodeFileNotFound), start fs now))
  /\ (forall bytes, contents fs srcPath = Some bytes ->
        Forall (fun st => contents st dstPath = contents fs dstPath
                          \/ contents st dstPath = Some bytes)
               (files out.2 :: seen out.2)
        /\ match out.1 with
           | Ok _ =>
               contents (files out.2) dstPath = Some bytes
               /\ forall p, p <> dstPath -> contents (files out.2) p = contents fs p
           | Err _ =>
               (forall p, p <> temp -> contents (files out.2) p = contents fs p)
               /\ (fail_remove ft = false ->
                   forall p, contents (files out.2) p = contents fs p)
           end).
Proof.
  intros temp out. split.
  { intros Hnone. subst out. unfold CopyFileAtomic, Open. cbn [start files].
    rewrite Hnone. reflexivity. }
  intros bytes Hsrc.
  pose proof (generateTempPath_differs e now dstPath) as Hd.
  pose proof (generateTempPath_nonempty e now dstPath) as Hn.
  fold temp in Hd, Hn.
  assert (HG0 : Good fs dstPath temp bytes (start fs now)).
  { split; [left; intros p _; reflexivity|constructor]. }
  assert (Hu0 : untouched fs (files (start fs now))) by (intros p; reflexivity).
  assert (Hmain : Good fs dstPath temp bytes out.2
            /\ match out.1 with
               | Ok _ => replaced fs dstPath bytes (files out.2)
               | Err _ => staged fs temp (files out.2)
                          /\ (fail_remove ft = false -> untouched fs (files out.2))
               end).
  { subst out. unfold CopyFileAtomic, Open. cbn [start files].
    apply SyncFacts.contents_Some in Hsrc as Hsrc'. destruct Hsrc' as (f & Hf & _ & _).
    rewrite Hf. change {| files := fs; clock := now; seen := [] |} with (start fs now).
    destruct (NewFileWriter ft e (start fs now) dstPath (Mode (info f))) as [r1 s1] eqn:E1.
    eapply (NewFileWriter_post fs dstPath temp bytes) in E1 as (HG1 & H1);
      [|reflexivity|exact HG0|exact Hu0].
    destruct r1 as [w|err1]; simpl.
    2:{ split; [exact HG1|]. split; [apply untouched_staged, H1|intros _; exact H1]. }
    destruct H1 as (Hw & Hh1).
    destruct (CopyFrom ft w s1 srcPath) as [r2 s2] eqn:E2.
    assert (Ht : tempPath w = temp) by (rewrite Hw; reflexivity).
    assert (Ho : tempFile w = true) by (rewrite Hw; reflexivity).
    eapply (CopyFrom_post fs dstPath temp bytes) in E2 as (HG2 & Hs2 & H0 & Hh2);
      [|exact Ht|exact Ho|exact Hsrc|exact HG1|exact Hh1].
    destruct r2 as [n|err2].
    - specialize (Hh2 eq_refl).
      destruct (Commit ft w s2) as [[r3 w3] s3] eqn:E3.
      assert (Hw' : w = {| targetPath := dstPath; tempPath := temp; tempFile := true;
                           committed := false; permissions := permissions w |}).
      { rewrite Hw. reflexivity. }
      eapply (Commit_post fs dstPath temp bytes Hn) in E3 as (HG3 & Ht3 & H3);
        [|exact Hw'|exact HG2|exact Hh2].
      destruct (Close ft w3 s3) as [[r4 w4] s4] eqn:E4. simpl.
      unfold Close in E4. destruct r3 as [[]|err3].
      + destruct H3 as [Hc3 Hr3]. rewrite Hc3 in E4. simpl in E4.
        injection E4 as <- <- <-. split; assumption.
      + destruct H3 as (Hc3 & _ & Hs3 & _ & Hu3). rewrite Hc3 in E4. simpl in E4.
        eapply (Rollback_post fs dstPath temp bytes Hn) in E4 as (HG4 & Hs4 & Hu4);
          [|exact Ht3|exact HG3|exact Hs3|exact H0].
        split; [exact HG4|]. split; assumption.
    - destruct (Close ft w s2) as [[r4 w4] s4] eqn:E4. simpl.
      assert (Hc : committed w = false) by (rewrite Hw; reflexivity).
      unfold Close in E4. rewrite Hc in E4. cbn [negb] in E4.
      eapply (Rollback_post fs dstPath temp bytes Hn) in E4 as (HG4 & Hs4 & Hu4);
        [|exact Ht|exact HG2|exact Hs2|exact H0].
      split; [exact HG4|]. split; assumption. }
  destruct Hmain as ([Hf Hs] & Hres). split.
  - apply Forall_cons. split; [apply (atomic_view_target fs dstPath temp bytes Hd), Hf|].
    eapply Forall_impl; [exact Hs|].
    intros st Hst. apply (atomic_view_target fs dstPath temp bytes Hd), Hst.
  - destruct out.1; exact Hres.
Qed.

End AtomicLaws.

(* ===================================================================== *)
(** ** Transactions                                                      *)
(* ===================================================================== *)

Module TransactionFacts.
Import Transaction.

Section Laws.
Context {St : Type}.

(** The states the operations reach when each one succeeds. *)
Fixpoint run (ops : list (AtomicOperation St)) (s : St) : option St :=
  match ops with
  | [] => Some s
  | op :: rest =>
      match op_Execute op s with
      | (None, s') => run rest s'
      | (Some _, _) => None
      end
  end.

(** An operation that fails changes nothing, and the rollback of one that
    succeeded gives back the state it started from. *)
Definition reversible (op : AtomicOperation St) : Prop :=
  (forall s e s', op_Execute op s = (Some e, s') -> s' = s)
  /\ (forall s s', op_Execute op s = (None, s') -> op_Rollback op s' = (None, s)).

Lemma rollback_loop_reversible (done : list (AtomicOperation St)) (s0 s : St)
    (lastError : error) :
  Forall reversible done -> run done s0 = Some s ->
  rollback_loop (rev done) lastError s = (lastError, s0).
Proof.
  revert s0 s lastError. induction done as [|op rest IH] using rev_ind;
    intros s0 s lastError Hrev Hrun.
  - simpl in *. congruence.
  - apply Forall_app in Hrev as [Hrest Hop]. apply Forall_cons in Hop as [[_ Hop] _].
    rewrite rev_app_distr. cbn [rev app rollback_loop].
    assert (Hs : exists s1, run rest s0 = Some s1 /\ op_Execute op s1 = (None, s)).
    { clear IH Hrest Hop. revert s0 Hrun. induction rest as [|o r IHr]; intros s0; simpl.
      - destruct (op_Execute op s0) as [[e|] s1] eqn:E; [discriminate|].
        intros [= <-]. eauto.
      - destruct (op_Execute o s0) as [[e|] s1]; [discriminate|]. apply IHr. }
    destruct Hs as (s1 & Hr1 & He). rewrite (Hop _ _ He).
    apply (IH s0 s1 lastError Hrest Hr1).
Qed.

Lemma execute_loop_spec (ops done : list (AtomicOperation St)) (tx : Transaction St)
    (s0 s : St) :
  Forall reversible ops -> Forall reversible done ->
  executed tx = done -> run done s0 = Some s ->
  match execute_loop ops tx s with
  | (None, tx', s') =>
      run (done ++ ops) s0 = Some s' /\ executed tx' = done ++ ops
      /\ operations tx' = operations tx /\ committed tx' = committed tx
  | (Some _, tx', s') =>
      run ops s = None /\ s' = s0 /\ executed tx' = []
      /\ operations tx' = operations tx /\ committed tx' = committed tx
  end.
Proof.
  revert done tx s. induction ops as [|op rest IH]; intros done tx s Hops Hdone Hex Hrun.
  - simpl. rewrite app_nil_r. auto.
  - apply Forall_cons in Hops as [Hop Hrest]. cbn [execute_loop run].
    destruct (op_Execute op s) as [[e|] s1] eqn:E.
    + destruct Hop as [Hfail _]. rewrite (Hfail _ _ _ E).
      unfold rollbackExecuted. rewrite Hex.
      rewrite (rollback_loop_reversible done s0 s None Hdone Hrun). auto.
    + assert (Hrun1 : run (done ++ [op]) s0 = Some s1).
      { clear IH Hdone Hex. revert s0 Hrun. induction done as [|o r IHr]; intros s0; simpl.
        - intros [= ->]. rewrite E. reflexivity.
        - destruct (op_Execute o s0) as [[e|] s2]; [discriminate|]. apply IHr. }
      specialize (IH (done ++ [op])
                    {| operations := operations tx; executed := executed tx ++ [op];
                       committed := committed tx |} s1 Hrest).
      rewrite <- !app_assoc in IH. cbn [app] in IH.
      apply IH; [|rewrite Hex; reflexivity|exact Hrun1].
      apply Forall_app. split; [exact Hdone|]. constructor; [exact Hop|constructor].
Qed.

(** X17: a transaction of reversible operations is all or nothing.  On a
    fresh transaction [Execute] either runs every operation in the order
    added and records them all as executed, or stops at the first one that
    fails, rolls the ones before it back, last first, and leaves the state
    it started from with nothing recorded; [Commit] does the same and marks
    the transaction committed only when every operation succeeded. *)
Theorem Execute_all_or_nothing (tx : Transaction St) (s : St) :
  Forall reversible (operations tx) -> executed tx = [] -> committed tx = false ->
  match Execute tx s with
  | (None, tx', s') =>
      run (operations tx) s = Some s' /\ executed tx' = operations tx
      /\ committed tx' = false
  | (Some _, tx', s') =>
      run (operations tx) s = None /\ s' = s /\ executed tx' = []
      /\ committed tx' = false
  end
  /\ match Commit tx s with
     | (None, tx', s') =>
         run (operations tx) s = Some s' /\ executed tx' = operations tx
         /\ committed tx' = true
     | (Some _, tx', s') =>
         run (operations tx) s = None /\ s' = s /\ executed tx' = []
         /\ committed tx' = false
     end.
Proof.
  intros Hops Hex Hc.
  pose proof (execute_loop_spec (operations tx) [] tx s s Hops (Forall_nil_2 _) Hex eq_refl)
    as H.
  unfold Commit, Execute. rewrite Hc, Hex. cbn [length Nat.eqb app] in *.
  destruct (execute_loop (operations tx) tx s) as [[[e|] tx'] s'].
  - destruct H as (H1 & H2 & H3 & _ & H4). rewrite Hc in H4. auto 10.
  - destruct H as (H1 & H2 & _ & H4). rewrite Hc in H4. auto 10.
Qed.

(** X18: [Commit] does not make a transaction final for [Rollback]: after
    a [Commit] that succeeded, [Rollback] still runs the rollback of every
    operation, last first, and with reversible operations gives back the
    state from before the transaction.  What a committed transaction
    refuses is to run again: [Execute] and [Commit] return the
    already-committed error and change nothing. *)
Theorem Rollback_after_Commit_undoes (tx tx' : Transaction St) (s s' : St) :
  Forall reversible (operations tx) -> executed tx = [] -> committed tx = false ->
  Commit tx s = (None, tx', s') ->
  Rollback tx' s'
  = (None, {| operations := operations tx; executed := []; committed := true |}, s)
  /\ Execute tx' s' = (Some "transaction already committed", tx', s')
  /\ Commit tx' s' = (Some "transaction already committed", tx', s').
Proof.
  intros Hops Hex Hc Hcommit.
  pose proof (execute_loop_spec (operations tx) [] tx s s Hops (Forall_nil_2 _) Hex eq_refl)
    as H.
  unfold Commit, Execute in Hcommit. rewrite Hc, Hex in Hcommit.
  cbn [length Nat.eqb app] in *.
  destruct (execute_loop (operations tx) tx s) as [[[e|] tx1] s1]; [discriminate|].
  injection Hcommit as <- <-. destruct H as (Hrun & He1 & Ho1 & _).
  split; [|split; reflexivity].
  unfold Rollback, rollbackExecuted. cbn [executed operations committed].
  rewrite He1, Ho1.
  rewrite (rollback_loop_reversible (operations tx) s s1 None Hops Hrun). reflexivity.
Qed.

End Laws.

(** *** On a counter *)

(** An operation that adds [k] to a counter and takes it off again, and one
    that always fails. *)
Definition adding (k : Z) : AtomicOperation Z :=
  {| op_Execute := fun s => (None, (s + k)%Z);
     op_Rollback := fun s => (None, (s - k)%Z) |}.

Definition failing (msg : string) : AtomicOperation Z :=
  {| op_Execute := fun s => (Some msg, s); op_Rollback := fun s => (None, s) |}.

Lemma adding_reversible (k : Z) : reversible (adding k).
Proof.
  split; cbn.
  - intros s e s' [=].
  - intros s s' [= <-]. f_equal. lia.
Qed.

Lemma failing_reversible (msg : string) : reversible (failing msg).
Proof.
  split; cbn.
  - intros s e s' [= _ <-]. reflexivity.
  - intros s s' [=].
Qed.

Lemma Execute_all_or_nothing_witness :
  let tx := Add (Add (Add NewTransaction (adding 2)) (failing "disk full")) (adding 5) in
  Forall reversible (operations tx) /\ executed tx = [] /\ committed tx = false
  /\ Execute tx 10%Z
     = (Some "operation failed: disk full",
        {| operations := operations tx; executed := []; committed := false |}, 10%Z)
  /\ match Execute tx 10%Z with
     | (None, tx', s') =>
         run (operations tx) 10%Z = Some s' /\ executed tx' = operations tx
         /\ committed tx' = false
     | (Some _, tx', s') =>
         run (operations tx) 10%Z = None /\ s' = 10%Z /\ executed tx' = []
         /\ committed tx' = false
     end
  /\ match Commit tx 10%Z with
     | (None, tx', s') =>
         run (operations tx) 10%Z = Some s' /\ executed tx' = operations tx
         /\ committed tx' = true
     | (Some _, tx', s') =>
         run (operations tx) 10%Z = None /\ s' = 10%Z /\ executed tx' = []
         /\ committed tx' = false
     end.
Proof.
  cbv zeta.
  assert (Hops : Forall reversible
                   (operations (Add (Add (Add NewTransaction (adding 2))
                                       (failing "disk full")) (adding 5)))).
  { repeat constructor; first [apply adding_reversible|apply failing_reversible]. }
  split; [exact Hops|]. split; [reflexivity|]. split; [reflexivity|].
  split; [reflexivity|].
  apply (Execute_all_or_nothing
           (Add (Add (Add NewTransaction (adding 2)) (failing "disk full")) (adding 5))
           10%Z Hops eq_refl eq_refl).
Defined.

Lemma Rollback_after_Commit_undoes_witness :
  let tx := Add (Add NewTransaction (adding 2)) (adding 5) in
  let tx' := {| operations := operations tx; executed := operations tx;
                committed := true |} in
  Forall reversible (operations tx) /\ executed tx = [] /\ committed tx = false
  /\ Commit tx 10%Z = (None, tx', 17%Z)
  /\ Rollback tx' 17%Z
     = (None, {| operations := operations tx; executed := []; committed := true |}, 10%Z)
  /\ Execute tx' 17%Z = (Some "transaction already committed", tx', 17%Z)
  /\ Commit tx' 17%Z = (Some "transaction already committed", tx', 17%Z).
Proof.
  cbv zeta.
  assert (Hops : Forall reversible
                   (operations (Add (Add NewTransaction (adding 2)) (adding 5)))).
  { repeat constructor; apply adding_reversible. }
  split; [exact Hops|]. split; [reflexivity|]. split; [reflexivity|].
  split; [reflexivity|].
  apply (Rollback_after_Commit_undoes
           (Add (Add NewTransaction (adding 2)) (adding 5)) _ 10%Z 17%Z
           Hops eq_refl eq_refl eq_refl).
Defined.

End TransactionFacts.

(* ===================================================================== *)
(** ** Backups: restore, list, delete, cleanup                           *)
(* ===================================================================== *)

Module BackupLaws.
Import Backup BackupFacts.
Local Open Scope Z_scope.

(** *** Listing *)

#[local] Instance newer_first_total : Total newer_first.
Proof. intros a b. unfold newer_first. lia. Qed.

#[local] Instance newer_first_trans : Transitive newer_first.
Proof. intros a b c. unfold newer_first. lia. Qed.

(** X19: [ListBackups] returns the entries of the manifest that bear the
    item name, each as often as the manifest has it and no other, ordered
    newest first; for the empty name these are all the entries. *)
Theorem ListBackups_newest_first (st : Store) (clk : Clock) (itemName : string) :
  ListBackups st clk itemName
    ≡ₚ filter (fun e => itemName = EmptyString \/ ItemName e = itemName) (entries_of st)
  /\ StronglySorted (fun a b => CreatedAt b <= CreatedAt a) (ListBackups st clk itemName)
  /\ ListBackups st clk EmptyString ≡ₚ entries_of st
  /\ (forall e, e ∈ ListBackups st clk itemName
        <-> e ∈ entries_of st /\ (itemName = EmptyString \/ ItemName e = itemName)).
Proof.
  assert (Hload : Entries (loadManifest st clk) = entries_of st).
  { unfold loadManifest, entries_of. destruct (manifest st); reflexivity. }
  assert (Hp : forall name, ListBackups st clk name
                 ≡ₚ filter (fun e => name = EmptyString \/ ItemName e = name)
                      (entries_of st)).
  { intros name. unfold ListBackups. rewrite Hload. apply merge_sort_Permutation. }
  split; [apply Hp|]. split; [|split].
  - change (StronglySorted newer_first (ListBackups st clk itemName)).
    unfold ListBackups. apply StronglySorted_merge_sort; apply _.
  - rewrite Hp. clear. induction (entries_of st) as [|e l IH]; [reflexivity|].
    rewrite filter_cons. destruct (decide _) as [_|Hn]; [|exfalso; apply Hn; auto].
    rewrite IH. reflexivity.
  - intros e. rewrite Hp, list_elem_of_filter. tauto.
Qed.

(** *** Deleting *)

Lemma find_id_None (entries : list BackupEntry) (backupID : string) :
  find_id entries backupID = None <-> backupID ∉ ID <$> entries.
Proof.
  induction entries as [|e rest IH]; cbn [find_id].
  - rewrite fmap_nil. split; [intros _; apply not_elem_of_nil|reflexivity].
  - rewrite fmap_cons, not_elem_of_cons.
    destruct (Strs.eqb (ID e) backupID) eqn:E.
    + apply ValidationFacts.eqb_true in E. split; [discriminate|]. intros [H _]. congruence.
    + apply ValidationFacts.eqb_false in E. rewrite IH. split; [auto|tauto].
Qed.

Lemma find_id_first (pre post : list BackupEntry) (e : BackupEntry) (backupID : string) :
  backupID ∉ ID <$> pre -> ID e = backupID ->
  find_id (pre ++ e :: post) backupID = Some e
  /\ remove_id (pre ++ e :: post) backupID = pre ++ post.
Proof.
  intros Hpre He. induction pre as [|x pre IH]; cbn [app find_id remove_id].
  - rewrite (proj2 (ValidationFacts.eqb_true _ _) He). auto.
  - rewrite fmap_cons in Hpre. apply not_elem_of_cons in Hpre as [Hx Hpre].
    assert (E : Strs.eqb (ID x) backupID = false)
      by (apply ValidationFacts.eqb_false; congruence).
    rewrite E. destruct (IH Hpre) as [-> ->]. auto.
Qed.

(** X20: [DeleteBackup] with an id that no entry bears is an error and
    changes nothing.  With an id that an entry bears, a call that returns
    no error has taken the first such entry, and only it, out of the
    manifest, and its payload off the disk; every other file is as
    before. *)
Theorem DeleteBackup_removes_one_entry (bm : BackupManager) (clk : Clock) (st : Store)
    (backupID : string) :
  (backupID ∉ ID <$> entries_of st ->
   DeleteBackup bm clk st backupID
   = (Some (Errors.NewSyncError "delete_backup" "" ""
              ("backup with ID " +:+ backupID +:+ " not found")
              Errors.ErrCodeFileNotFound), st))
  /\ (forall pre e post st',
        entries_of st = pre ++ e :: post ->
        backupID ∉ ID <$> pre -> ID e = backupID ->
        DeleteBackup bm clk st backupID = (None, st') ->
        entries_of st' = pre ++ post
        /\ files st' !! BackupPath e = None
        /\ forall p, p <> BackupPath e -> files st' !! p = files st !! p).
Proof.
  assert (Hload : Entries (loadManifest st clk) = entries_of st).
  { unfold loadManifest, entries_of. destruct (manifest st); reflexivity. }
  split.
  - intros Hno. unfold DeleteBackup. rewrite Hload.
    rewrite (proj2 (find_id_None _ _) Hno). reflexivity.
  - intros pre e post st' Hes Hpre He. unfold DeleteBackup. rewrite Hload, Hes.
    destruct (find_id_first pre post e backupID Hpre He) as [-> ->].
    unfold FS.PathExists, FS.Remove.
    destruct (files st !! BackupPath e) as [f|] eqn:Ef.
    + intros [= <-]. cbn [entries_of manifest files Entries].
      split; [reflexivity|]. split; [apply lookup_delete_eq|].
      intros p Hp. apply lookup_delete_ne. congruence.
    + destruct (FS.below_file (files st) (BackupPath e)); [discriminate|].
      intros [= <-]. cbn [entries_of manifest files Entries]. auto.
Qed.

(** *** A backup and its restore *)

Lemma copyFile_Ok (fs fs' : gmap string FS.File) (t : Z) (src dst : string) :
  src <> dst -> copyFile fs t src dst = Ok fs' ->
  exists bytes, FS.contents fs src = Some bytes
    /\ FS.contents fs' dst = Some bytes
    /\ forall p, p <> dst -> FS.contents fs' p = FS.contents fs p.
Proof.
  intros Hne. unfold copyFile.
  destruct (FS.Open fs src) as [srcFile|e]; [|discriminate]. cbn [bind].
  destruct (FS.Create fs t dst) as [fs1|e] eqn:Ec; [|discriminate]. cbn [bind].
  apply FSFacts.Create_Ok in Ec as (mode & -> & _).
  destruct (FS.ReadAll _ src) as [bytes|e] eqn:Er; [|discriminate]. cbn [bind].
  apply SyncFacts.ReadAll_contents in Er. rewrite FSFacts.contents_insert_ne in Er by exact Hne.
  destruct (FS.Append _ t dst bytes) as [fs2|e] eqn:Ea; [|discriminate]. cbn [bind].
  apply FSFacts.Append_Ok in Ea as (f & Hf & Hd & ->).
  rewrite lookup_insert_eq in Hf. injection Hf as <-.
  destruct (FS.Stat _ src) as [srcInfo|e]; [|discriminate]. cbn [bind].
  intros Hch. pose proof (FSFacts.Chmod_contents _ _ _ _ Hch) as Hcc.
  exists bytes. split; [exact Er|]. split.
  - rewrite Hcc, FSFacts.contents_insert_eq. reflexivity.
  - intros p Hp. rewrite Hcc, !FSFacts.contents_insert_ne by exact Hp. reflexivity.
Qed.

(** What [BackupFile] does on a directory with no manifest yet. *)
Lemma BackupFile_fresh (bm : BackupManager) (clk : Clock) (st st1 : Store)
    (itemName filePath reason : string) (tags : list string) (e : BackupEntry) :
  manifest st = None ->
  BackupFile bm clk st itemName filePath reason tags = (Ok e, st1) ->
  exists fs1 fs2 bytes,
    FS.contents (files st) filePath = Some bytes
    /\ FS.MkdirAll (files st) (now clk) (Path.Dir (BackupPath e)) 493 = Ok fs1
    /\ copyFile fs1 (now clk) filePath (BackupPath e) = Ok fs2
    /\ ItemName e = itemName /\ CreatedAt e = now clk
    /\ Hash e = Hash.of_bytes bytes
    /\ ID e = generateBackupID clk itemName (Hash.of_bytes bytes)
    /\ BackupPath e = Path.Join [backupDir bm; "files"; ID e]
    /\ (cleanupOldBackups bm (later clk) [e] itemName fs2).1 = entries_of st1
    /\ (cleanupOldBackups bm (later clk) [e] itemName fs2).2 = files st1.
Proof.
  intros Hm. unfold BackupFile.
  destruct (negb (FS.PathExists (files st) filePath)); [discriminate|].
  destruct (FS.Stat (files st) filePath) as [fileInfo|err]; [|discriminate].
  destruct (Hash.CalculateFileHash (files st) filePath) as [hash|err] eqn:Eh; [|discriminate].
  apply SyncFacts.CalculateFileHash_contents in Eh as (bytes & Hb & ->).
  unfold loadManifest. rewrite Hm. cbn [Entries dedup app Version ManifestCreatedAt].
  destruct (FS.MkdirAll _ _ _ _) as [fs1|err] eqn:Emk; [|discriminate].
  destruct (copyFile fs1 _ _ _) as [fs2|err] eqn:Ecp; [|discriminate].
  destruct (cleanupOldBackups _ _ _ _ _) as [entries' fs3] eqn:Ecl.
  pose proof (f_equal fst Ecl) as E1. pose proof (f_equal snd Ecl) as E2.
  intros [= <- <-]. exists fs1, fs2, bytes.
  split; [exact Hb|]. split; [exact Emk|]. split; [exact Ecp|].
  do 5 (split; [reflexivity|]). split; [exact E1|exact E2].
Qed.

(** The age of an entry stamped by [BackupFile], at the cleanup of the same
    call: the time that has passed, as a duration. *)
Lemma age_at_cleanup (clk : Clock) :
  Time.Sub (now (later clk)) (now clk)
  = Z.min (Z.of_N (elapsed clk)) Time.maxDuration.
Proof.
  unfold Time.Sub, later. cbn [now].
  replace (now clk + Z.of_N (elapsed clk) - now clk) with (Z.of_N (elapsed clk)) by lia.
  unfold Time.maxDuration, Time.minDuration.
  destruct (Z.ltb_spec 9223372036854775807 (Z.of_N (elapsed clk))) as [Hgt|Hle]; [lia|].
  destruct (Z.ltb_spec (Z.of_N (elapsed clk)) (-9223372036854775808)) as [Hlt|Hge]; lia.
Qed.

Lemma cleanup_single (bm : BackupManager) (clk : Clock) (e : BackupEntry)
    (fs : gmap string FS.File) :
  cleanupOldBackups bm clk [e] (ItemName e) fs
  = if (maxAge bm <? Time.Sub (now clk) (CreatedAt e)) || (maxBackups bm <=? 0)
    then ([], if FS.PathExists fs (BackupPath e) then delete (BackupPath e) fs else fs)
    else ([e], fs).
Proof.
  unfold cleanupOldBackups.
  rewrite filter_cons, filter_nil. destruct (decide _) as [_|Hn]; [|contradiction].
  change (merge_sort newer_first [e]) with [e]. cbn [mark].
  destruct (maxAge bm <? Time.Sub (now clk) (CreatedAt e)); cbn [orb drop_ids drop_id].
  - rewrite (proj2 (ValidationFacts.eqb_true _ _) eq_refl). reflexivity.
  - destruct (maxBackups bm <=? 0); cbn [drop_ids drop_id]; [|reflexivity].
    rewrite (proj2 (ValidationFacts.eqb_true _ _) eq_refl). reflexivity.
Qed.


(** X22: with a limit of no backup at all, or a negative age limit,
    [BackupFile] on a directory with no manifest yet still returns the new
    entry and no error, but the entry is not in the manifest it saved and
    its payload is not on the disk: the cleanup that follows the copy
    removes the backup just made. *)
Theorem BackupFile_with_no_room_keeps_nothing (bm : BackupManager) (clk : Clock)
    (st st1 : Store) (itemName filePath reason : string) (tags : list string)
    (e : BackupEntry) :
  manifest st = None -> maxBackups bm <= 0 \/ maxAge bm < 0 ->
  BackupFile bm clk st itemName filePath reason tags = (Ok e, st1) ->
  entries_of st1 = [] /\ files st1 !! BackupPath e = None
  /\ manifest st1 <> None.
Proof.
  intros Hm Hlim Hback.
  destruct (BackupFile_fresh bm clk st st1 itemName filePath reason tags e Hm Hback)
    as (fs1 & fs2 & bytes' & _ & _ & _ & Hi & Hc & _ & _ & _ & Hes & Hfs).
  rewrite <- Hi, (cleanup_single bm (later clk) e fs2), Hc, age_at_cleanup in Hes, Hfs.
  assert (Hk : (maxAge bm <? Z.min (Z.of_N (elapsed clk)) Time.maxDuration)
               || (maxBackups bm <=? 0) = true).
  { apply orb_true_iff. unfold Time.maxDuration.
    destruct Hlim; [right; apply Z.leb_le|left; apply Z.ltb_lt]; lia. }
  rewrite Hk in Hes, Hfs. cbn [fst snd] in Hes, Hfs.
  split; [symmetry; exact Hes|]. split.
  - rewrite <- Hfs. unfold FS.PathExists.
    destruct (fs2 !! BackupPath e) eqn:E; [apply lookup_delete_eq|].
    destruct (FS.below_file fs2 (BackupPath e)); [apply lookup_delete_eq|exact E].
  - unfold BackupFile in Hback. repeat case_match; simplify_eq; discriminate.
Qed.

(** With an age limit of zero the backup just made stays only if the clock
    has not moved when the cleanup of the same call reads it. *)
Example BackupFile_age_limit_zero :
  let bm := WithMaxAge 0 (NewBackupManager "/b" Scenario.H1) in
  let st := {| files := <[Scenario.local := FS.regular "a" 10 420]> Scenario.dirs;
               manifest := None |} in
  let call passed :=
    BackupFile bm {| now := 100; stamp := "t0"; elapsed := passed |} st "Vim"
      Scenario.local "manual" [] in
  is_ok (call 1%N).1 = true /\ entries_of (call 1%N).2 = []
  /\ FS.contents (files (call 1%N).2) "/b/files/Vim_t0_ca978112" = None
  /\ length (entries_of (call 0%N).2) = 1%nat
  /\ FS.contents (files (call 0%N).2) "/b/files/Vim_t0_ca978112" = Some "a".
Proof. vm_compute. repeat split; reflexivity. Qed.

(** *** What the cleanup keeps *)

Lemma filter_ext_in {A : Type} (P Q : A -> Prop) `{!forall x, Decision (P x)}
    `{!forall x, Decision (Q x)} (l : list A) :
  (forall x, x ∈ l -> P x <-> Q x) -> filter P l = filter Q l.
Proof.
  induction l as [|a l IH]; intros Hpq; [reflexivity|].
  rewrite !filter_cons.
  assert (Ha : P a <-> Q a) by (apply Hpq; left).
  rewrite IH by (intros x Hx; apply Hpq; right; exact Hx).
  destruct (decide (P a)), (decide (Q a)); tauto.
Qed.

Lemma filter_all {A : Type} (P : A -> Prop) `{!forall x, Decision (P x)} (l : list A) :
  (forall x, x ∈ l -> P x) -> filter P l = l.
Proof.
  induction l as [|a l IH]; intros Hp; [reflexivity|].
  rewrite filter_cons. destruct (decide (P a)) as [_|Hn].
  - rewrite IH by (intros x Hx; apply Hp; right; exact Hx). reflexivity.
  - exfalso. apply Hn, Hp. left.
Qed.

Lemma NoDup_fmap_elem_inj {A B : Type} (f : A -> B) (l : list A) (x y : A) :
  NoDup (f <$> l) -> x ∈ l -> y ∈ l -> f x = f y -> x = y.
Proof.
  induction l as [|a l IH]; intros Hnd Hx Hy Hf; [inversion Hx|].
  rewrite fmap_cons in Hnd. apply NoDup_cons in Hnd as [Ha Hnd].
  apply elem_of_cons in Hx as [->|Hx]; apply elem_of_cons in Hy as [->|Hy]; auto.
  - exfalso. apply Ha. rewrite Hf. apply list_elem_of_fmap. eauto.
  - exfalso. apply Ha. rewrite <- Hf. apply list_elem_of_fmap. eauto.
Qed.

Lemma drop_id_filter (backupID : string) (entries : list BackupEntry)
    (fs : gmap string FS.File) :
  NoDup (ID <$> entries) ->
  (drop_id backupID entries fs).1 = filter (fun e => ID e <> backupID) entries.
Proof.
  induction entries as [|e rest IH]; intros Hnd; cbn [drop_id]; [reflexivity|].
  rewrite fmap_cons in Hnd. apply NoDup_cons in Hnd as [He Hnd].
  rewrite filter_cons.
  destruct (Strs.eqb (ID e) backupID) eqn:E.
  - apply ValidationFacts.eqb_true in E. cbn [fst].
    destruct (decide (ID e <> backupID)) as [Hn|_]; [contradiction|].
    symmetry. apply filter_all. intros x Hx Hid. apply He. rewrite E, <- Hid.
    apply list_elem_of_fmap. eauto.
  - apply ValidationFacts.eqb_false in E.
    destruct (decide (ID e <> backupID)) as [_|Hn]; [|contradiction].
    specialize (IH Hnd). destruct (drop_id backupID rest fs) as [rest' fs'].
    cbn [fst] in *. rewrite IH. reflexivity.
Qed.

Lemma drop_ids_filter (toDelete : list string) (entries : list BackupEntry)
    (fs : gmap string FS.File) :
  NoDup (ID <$> entries) ->
  (drop_ids toDelete entries fs).1 = filter (fun e => ID e ∉ toDelete) entries.
Proof.
  revert entries fs. induction toDelete as [|i more IH]; intros entries fs Hnd;
    cbn [drop_ids].
  - cbn [fst]. symmetry. apply filter_all. intros x _. apply not_elem_of_nil.
  - pose proof (drop_id_filter i entries fs Hnd) as Hd.
    pose proof (drop_id_sublist i entries fs) as Hs.
    destruct (drop_id i entries fs) as [entries' fs']. cbn [fst] in *.
    rewrite IH.
    + rewrite Hd, list_filter_filter. apply list_filter_iff.
      intros x. rewrite not_elem_of_cons. tauto.
    + apply (sublist_NoDup _ (ID <$> entries)); [exact Hnd|]. apply fmap_sublist, Hs.
Qed.

(** The backups the marking loop leaves, by position. *)
Fixpoint kept (bm : BackupManager) (clk : Clock) (i : Z) (itemBackups : list BackupEntry)
  : list BackupEntry :=
  match itemBackups with
  | [] => []
  | backup :: rest =>
      if maxAge bm <? Time.Sub (now clk) (CreatedAt backup) then kept bm clk (i + 1) rest
      else if maxBackups bm <=? i then kept bm clk (i + 1) rest
      else backup :: kept bm clk (i + 1) rest
  end.

Lemma mark_subset (bm : BackupManager) (clk : Clock) (i : Z) (l : list BackupEntry)
    (id : string) :
  id ∈ mark bm clk i l -> id ∈ ID <$> l.
Proof.
  revert i. induction l as [|b rest IH]; intros i; cbn [mark]; [intros H; inversion H|].
  rewrite fmap_cons.
  destruct (maxAge bm <? _); [|destruct (maxBackups bm <=? i)];
    rewrite ?elem_of_cons; intros H; try (right; apply (IH _ H));
    destruct H as [->|H]; [left; reflexivity|right; apply (IH _ H)
                          |left; reflexivity|right; apply (IH _ H)].
Qed.

Lemma filter_mark (bm : BackupManager) (clk : Clock) (i : Z) (l : list BackupEntry) :
  NoDup (ID <$> l) ->
  filter (fun e => ID e ∉ mark bm clk i l) l = kept bm clk i l.
Proof.
  revert i. induction l as [|b rest IH]; intros i Hnd; [reflexivity|].
  rewrite fmap_cons in Hnd. apply NoDup_cons in Hnd as [Hb Hnd].
  cbn [mark kept]. rewrite filter_cons.
  assert (Hskip : filter (fun e => ID e ∉ ID b :: mark bm clk (i + 1) rest) rest
                  = kept bm clk (i + 1) rest).
  { rewrite <- (IH (i + 1) Hnd). apply filter_ext_in. intros x Hx.
    rewrite not_elem_of_cons. split; [tauto|]. intros H. split; [|exact H].
    intros Hid. apply Hb. rewrite <- Hid. apply list_elem_of_fmap. eauto. }
  destruct (maxAge bm <? _).
  { destruct (decide _) as [Hn|_]; [exfalso; apply Hn; left|exact Hskip]. }
  destruct (maxBackups bm <=? i).
  { destruct (decide _) as [Hn|_]; [exfalso; apply Hn; left|exact Hskip]. }
  destruct (decide _) as [_|Hn].
  - rewrite (IH (i + 1) Hnd). reflexivity.
  - exfalso. apply Hn. intros Hin. apply Hb, (mark_subset _ _ _ _ _ Hin).
Qed.

Lemma kept_none (bm : BackupManager) (clk : Clock) (i : Z) (l : list BackupEntry) :
  maxBackups bm <= i -> kept bm clk i l = [].
Proof.
  revert i. induction l as [|b rest IH]; intros i Hi; cbn [kept]; [reflexivity|].
  rewrite (IH (i + 1)) by lia.
  destruct (maxAge bm <? _); [reflexivity|].
  destruct (Z.leb_spec (maxBackups bm) i); [reflexivity|lia].
Qed.

Lemma kept_length (bm : BackupManager) (clk : Clock) (i : Z) (l : list BackupEntry) :
  0 <= i -> (length (kept bm clk i l) <= Z.to_nat (maxBackups bm - i))%nat.
Proof.
  revert i. induction l as [|b rest IH]; intros i Hi; cbn [kept]; [simpl; lia|].
  specialize (IH (i + 1) ltac:(lia)).
  destruct (maxAge bm <? _); [lia|].
  destruct (Z.leb_spec (maxBackups bm) i); [lia|]. cbn [length]. lia.
Qed.

Lemma kept_elem (bm : BackupManager) (clk : Clock) (i : Z) (l : list BackupEntry)
    (e : BackupEntry) :
  e ∈ kept bm clk i l ->
  e ∈ l /\ Time.Sub (now clk) (CreatedAt e) <= maxAge bm.
Proof.
  revert i. induction l as [|b rest IH]; intros i; cbn [kept]; [intros H; inversion H|].
  destruct (Z.ltb_spec (maxAge bm) (Time.Sub (now clk) (CreatedAt b))) as [Hold|Hok].
  { intros H. destruct (IH _ H). split; [right|]; assumption. }
  destruct (maxBackups bm <=? i).
  { intros H. destruct (IH _ H). split; [right|]; assumption. }
  rewrite elem_of_cons. intros [->|H]; [split; [left|lia]|].
  destruct (IH _ H). split; [right|]; assumption.
Qed.

Lemma kept_newest (bm : BackupManager) (clk : Clock) (i : Z) (l : list BackupEntry)
    (e e' : BackupEntry) :
  StronglySorted newer_first l ->
  e' ∈ kept bm clk i l -> e ∈ l -> e ∉ kept bm clk i l ->
  Time.Sub (now clk) (CreatedAt e) <= maxAge bm ->
  CreatedAt e <= CreatedAt e'.
Proof.
  revert i. induction l as [|b rest IH]; intros i Hs He' He Hne Hfresh;
    [inversion He|].
  apply StronglySorted_inv in Hs as [Hs Hb]. cbn [kept] in He', Hne.
  destruct (Z.ltb_spec (maxAge bm) (Time.Sub (now clk) (CreatedAt b))) as [Hold|_].
  { apply elem_of_cons in He as [->|He]; [lia|]. apply (IH (i + 1)); assumption. }
  destruct (Z.leb_spec (maxBackups bm) i) as [Hfull|Hroom].
  { rewrite kept_none in He' by lia. inversion He'. }
  apply not_elem_of_cons in Hne as [Hneb Hne].
  apply elem_of_cons in He as [->|He]; [contradiction|].
  apply elem_of_cons in He' as [->|He'].
  - rewrite Forall_forall in Hb. apply (Hb e He).
  - apply (IH (i + 1)); assumption.
Qed.

(** X23: what [cleanupOldBackups] leaves in a manifest whose ids are all
    different.  The entries of the other items are untouched.  Of the
    item's own entries none is left that is older than [maxAge], and at
    most [maxBackups] are left; the ones left are the newest: an entry of
    the item that went although it was not too old is no newer than any
    that stayed.  The order of the entries left is the order they had. *)
Theorem cleanupOldBackups_keeps_the_newest (bm : BackupManager) (clk : Clock)
    (entries : list BackupEntry) (itemName : string) (fs : gmap string FS.File) :
  NoDup (ID <$> entries) ->
  let after := (cleanupOldBackups bm clk entries itemName fs).1 in
  after `sublist_of` entries
  /\ filter (fun e => ItemName e <> itemName) after
     = filter (fun e => ItemName e <> itemName) entries
  /\ (length (filter (fun e => ItemName e = itemName) after)
      <= Z.to_nat (maxBackups bm))%nat
  /\ (forall e, e ∈ after -> ItemName e = itemName ->
        Time.Sub (now clk) (CreatedAt e) <= maxAge bm)
  /\ (forall e e', e ∈ entries -> e ∉ after -> e' ∈ after ->
        ItemName e = itemName -> ItemName e' = itemName ->
        Time.Sub (now clk) (CreatedAt e) <= maxAge bm ->
        CreatedAt e <= CreatedAt e').
Proof.
  intros Hnd after.
  set (items := filter (fun e => ItemName e = itemName) entries).
  set (sorted := merge_sort newer_first items).
  set (marks := mark bm clk 0 sorted).
  assert (Hleft : after = filter (fun e => ID e ∉ marks) entries).
  { subst after marks sorted items. unfold cleanupOldBackups. apply drop_ids_filter, Hnd. }
  assert (Hperm : sorted ≡ₚ items) by apply merge_sort_Permutation.
  assert (Hnd_sorted : NoDup (ID <$> sorted)).
  { rewrite Hperm. apply (sublist_NoDup _ (ID <$> entries)); [exact Hnd|].
    apply fmap_sublist, sublist_filter. }
  assert (Hkept : forall e, e ∈ after /\ ItemName e = itemName <-> e ∈ kept bm clk 0 sorted).
  { intros e. rewrite <- (filter_mark bm clk 0 sorted Hnd_sorted).
    fold marks. rewrite Hleft, !list_elem_of_filter, Hperm.
    unfold items. rewrite list_elem_of_filter. tauto. }
  split; [apply cleanupOldBackups_sublist|]. split; [|split; [|split]].
  - rewrite Hleft, list_filter_filter. apply filter_ext_in. intros x Hx.
    split; [tauto|]. intros Hother. split; [exact Hother|].
    intros Hin. apply mark_subset in Hin. apply list_elem_of_fmap in Hin as (y & Hid & Hy).
    rewrite Hperm in Hy. apply list_elem_of_filter in Hy as [Hitem Hy].
    assert (x = y) by (apply (NoDup_fmap_elem_inj ID entries); assumption).
    congruence.
  - assert (Hp : filter (fun e => ItemName e = itemName) after ≡ₚ kept bm clk 0 sorted).
    { rewrite <- (filter_mark bm clk 0 sorted Hnd_sorted). fold marks.
      rewrite Hperm. unfold items. rewrite Hleft, !list_filter_filter.
      erewrite list_filter_iff; [reflexivity|]. intros x. tauto. }
    rewrite Hp. pose proof (kept_length bm clk 0 sorted ltac:(lia)) as Hl.
    rewrite Z.sub_0_r in Hl. exact Hl.
  - intros e He Hitem. apply (kept_elem bm clk 0 sorted e). apply Hkept. auto.
  - intros e e' He Hgone He' Hitem Hitem' Hfresh.
    apply (kept_newest bm clk 0 sorted e e'); [| | | |exact Hfresh].
    + apply StronglySorted_merge_sort; apply _.
    + apply Hkept. auto.
    + rewrite Hperm. apply list_elem_of_filter. auto.
    + intros Hk. apply Hkept in Hk as [Hk _]. contradiction.
Qed.

(** *** The laws on the scenarios *)


Lemma BackupFile_with_no_room_keeps_nothing_witness :
  let bm := WithMaxBackups 0 (NewBackupManager "/b" Scenario.H1) in
  let clk := {| now := 100; stamp := "t0"; elapsed := 5 |} in
  let st := {| files := <[Scenario.local := FS.regular "a" 10 420]> Scenario.dirs;
               manifest := None |} in
  let out := BackupFile bm clk st "Vim" Scenario.local "manual" [] in
  let e := {| ID := "Vim_t0_ca978112"; ItemName := "Vim";
              OriginalPath := Scenario.local;
              BackupPath := "/b/files/Vim_t0_ca978112"; Hash := Hash.of_bytes "a";
              Size := 1; CreatedAt := 100; CreatedBy := "H1"; Reason := "manual";
              Tags := [] |} in
  manifest st = None /\ (maxBackups bm <= 0 \/ maxAge bm < 0)
  /\ out = (Ok e, out.2)
  /\ entries_of out.2 = [] /\ files out.2 !! BackupPath e = None
  /\ manifest out.2 <> None.
Proof.
  cbv zeta.
  set (bm := WithMaxBackups 0 (NewBackupManager "/b" Scenario.H1)).
  set (clk := {| now := 100; stamp := "t0"; elapsed := 5 |}).
  set (st := {| files := <[Scenario.local := FS.regular "a" 10 420]> Scenario.dirs;
                manifest := None |}).
  set (out := BackupFile bm clk st "Vim" Scenario.local "manual" []).
  set (e := {| ID := "Vim_t0_ca978112"; ItemName := "Vim";
               OriginalPath := Scenario.local;
               BackupPath := "/b/files/Vim_t0_ca978112"; Hash := Hash.of_bytes "a";
               Size := 1; CreatedAt := 100; CreatedBy := "H1"; Reason := "manual";
               Tags := [] |}).
  assert (Hlim : maxBackups bm <= 0 \/ maxAge bm < 0) by (left; discriminate).
  assert (E1 : out = (Ok e, out.2)) by (vm_compute; reflexivity).
  split; [reflexivity|]. split; [exact Hlim|]. split; [exact E1|].
  apply (BackupFile_with_no_room_keeps_nothing bm clk st out.2 "Vim" Scenario.local
           "manual" [] e eq_refl Hlim E1).
Defined.

Lemma cleanupOldBackups_keeps_the_newest_witness :
  let bm := WithMaxBackups 2 (NewBackupManager "/b" Scenario.H1) in
  let clk := {| now := 100; stamp := "t0"; elapsed := 5 |} in
  let entry id item t :=
    {| ID := id; ItemName := item; OriginalPath := "/t/local/" +:+ item;
       BackupPath := "/b/files/" +:+ id; Hash := "sha256:" +:+ id; Size := 1;
       CreatedAt := t; CreatedBy := "H1"; Reason := "manual"; Tags := [] |} in
  let entries := [entry "v1" "Vim" 10; entry "g1" "Git" 5; entry "v3" "Vim" 30;
                  entry "v2" "Vim" 20] in
  let after := (cleanupOldBackups bm clk entries "Vim" ∅).1 in
  NoDup (ID <$> entries)
  /\ ID <$> after = ["g1"; "v3"; "v2"]
  /\ after `sublist_of` entries
  /\ filter (fun e => ItemName e <> "Vim") after
     = filter (fun e => ItemName e <> "Vim") entries
  /\ (length (filter (fun e => ItemName e = "Vim") after)
      <= Z.to_nat (maxBackups bm))%nat
  /\ (forall e, e ∈ after -> ItemName e = "Vim" ->
        Time.Sub (now clk) (CreatedAt e) <= maxAge bm)
  /\ (forall e e', e ∈ entries -> e ∉ after -> e' ∈ after ->
        ItemName e = "Vim" -> ItemName e' = "Vim" ->
        Time.Sub (now clk) (CreatedAt e) <= maxAge bm ->
        CreatedAt e <= CreatedAt e').
Proof.
  cbv zeta.
  set (bm := WithMaxBackups 2 (NewBackupManager "/b" Scenario.H1)).
  set (clk := {| now := 100; stamp := "t0"; elapsed := 5 |}).
  set (entry := fun id item t =>
    {| ID := id; ItemName := item; OriginalPath := "/t/local/" +:+ item;
       BackupPath := "/b/files/" +:+ id; Hash := "sha256:" +:+ id; Size := 1;
       CreatedAt := t; CreatedBy := "H1"; Reason := "manual"; Tags := [] |}).
  set (entries := [entry "v1" "Vim" 10; entry "g1" "Git" 5; entry "v3" "Vim" 30;
                   entry "v2" "Vim" 20]).
  assert (Hnd : NoDup (ID <$> entries)).
  { refine (bool_decide_unpack _ _). vm_compute. exact I. }
  split; [exact Hnd|]. split; [vm_compute; reflexivity|].
  apply (cleanupOldBackups_keeps_the_newest bm clk entries "Vim" ∅ Hnd).
Defined.

End BackupLaws.

(* ===================================================================== *)
(** ** Paths: the directory of a joined path                             *)
(* ===================================================================== *)

Module PathLaws.
Import Path PathFacts.
#[local] Arguments String.append : simpl nomatch.

(** What [Clean] writes for the elements it kept, last one first. *)
Definition render (root : bool) (out : list string) : string :=
  if root then "/" +:+ Strs.Join (rev out) "/"
  else match rev out with [] => "." | _ => Strs.Join (rev out) "/" end.

Lemma Clean_render (p : string) :
  p <> "" ->
  Clean p = render (rooted p) (fold_left (clean_step (rooted p)) (split p) []).
Proof.
  intros Hp. unfold Clean, render.
  apply ValidationFacts.eqb_false in Hp as ->. reflexivity.
Qed.

(** The elements [Clean] keeps: no separator, not empty, not [.]; the [..]
    it keeps come first, and there is none in a rooted path. *)
Definition kept_element (e : string) : Prop := noslash e /\ e <> "" /\ e <> ".".

Definition tidy (root : bool) (out : list string) : Prop :=
  Forall kept_element out
  /\ exists names k, out = names ++ repeat ".." k
       /\ Forall (fun e => e <> "..") names /\ (root = true -> k = O).

Lemma tidy_nil (root : bool) : tidy root [].
Proof. split; [constructor|]. exists [], O. repeat split; constructor. Qed.

Lemma tidy_tail (root : bool) (x : string) (out : list string) :
  tidy root (x :: out) -> tidy root out.
Proof.
  intros [Hk (names & k & Ho & Hn & Hr)]. apply Forall_cons in Hk as [_ Hk].
  split; [exact Hk|]. destruct names as [|n names]; simpl in Ho.
  - destruct k as [|k]; [discriminate|]. simpl in Ho. injection Ho as _ ->.
    exists [], k. repeat split; [constructor|]. intros Hroot. specialize (Hr Hroot). lia.
  - injection Ho as _ ->. apply Forall_cons in Hn as [_ Hn]. exists names, k. auto.
Qed.

Lemma clean_step_tidy (root : bool) (out : list string) (e : string) :
  noslash e -> tidy root out -> tidy root (clean_step root out e).
Proof.
  intros He Ht. unfold clean_step.
  destruct (Strs.eqb e "") eqn:E0; [exact Ht|].
  destruct (Strs.eqb e ".") eqn:E1; [exact Ht|]. cbn [orb].
  apply ValidationFacts.eqb_false in E0, E1.
  assert (Hke : kept_element e) by (repeat split; assumption).
  destruct (Strs.eqb e "..") eqn:E2.
  - apply ValidationFacts.eqb_true in E2. subst e.
    destruct out as [|top rest].
    + destruct root; [exact Ht|]. split; [constructor; [exact Hke|constructor]|].
      exists [], 1%nat. repeat split; [constructor|discriminate].
    + destruct (Strs.eqb top "..") eqn:Et; [|apply (tidy_tail root top rest Ht)].
      apply ValidationFacts.eqb_true in Et. subst top.
      destruct Ht as [Hk (names & k & Ho & Hn & Hr)].
      split; [constructor; assumption|].
      destruct names as [|n names]; simpl in Ho.
      * exists [], (S k). rewrite Ho. repeat split; [constructor|].
        intros Hroot. specialize (Hr Hroot). subst k. discriminate.
      * injection Ho as <- _. apply Forall_cons in Hn as [Hn _]. contradiction.
  - apply ValidationFacts.eqb_false in E2.
    destruct Ht as [Hk (names & k & Ho & Hn & Hr)].
    split; [constructor; assumption|].
    exists (e :: names), k. rewrite Ho. repeat split; [constructor; assumption|exact Hr].
Qed.

Lemma fold_tidy (root : bool) (xs out : list string) :
  Forall noslash xs -> tidy root out ->
  tidy root (fold_left (clean_step root) xs out).
Proof.
  revert out. induction xs as [|x xs IH]; intros out Hx Ht; [exact Ht|].
  apply Forall_cons in Hx as [Hx Hxs]. simpl. apply IH; [exact Hxs|].
  apply clean_step_tidy; assumption.
Qed.

(** Cleaning the kept elements again keeps them all. *)
Lemma refold (root : bool) (out : list string) :
  tidy root out -> fold_left (clean_step root) (rev out) [] = out.
Proof.
  induction out as [|x out IH]; intros Ht; [reflexivity|].
  simpl rev. rewrite fold_left_app, (IH (tidy_tail root x out Ht)). simpl.
  destruct Ht as [Hk (names & k & Ho & Hn & Hr)].
  apply Forall_cons in Hk as [(Hx & H0 & H1) Hk].
  unfold clean_step.
  apply ValidationFacts.eqb_false in H0 as ->.
  apply ValidationFacts.eqb_false in H1 as ->. cbn [orb].
  destruct (Strs.eqb x "..") eqn:E2; [|reflexivity].
  apply ValidationFacts.eqb_true in E2. subst x.
  destruct names as [|n names]; simpl in Ho.
  - destruct k as [|k]; [discriminate|]. simpl in Ho. injection Ho as ->.
    destruct root; [specialize (Hr eq_refl); discriminate|].
    destruct k; reflexivity.
  - injection Ho as <- _. apply Forall_cons in Hn as [Hn _]. contradiction.
Qed.

Lemma split_Join (l : list string) :
  Forall noslash l -> l <> [] -> split (Strs.Join l "/") = l.
Proof.
  induction l as [|a l IH]; intros Hl Hne; [contradiction|].
  apply Forall_cons in Hl as [Ha Hl]. destruct l as [|b l].
  - apply split_noslash, Ha.
  - change (Strs.Join (a :: b :: l) "/") with (a +:+ String slash (Strs.Join (b :: l) "/")).
    rewrite split_slash, (split_noslash a Ha), IH by (auto; discriminate). reflexivity.
Qed.

Lemma Join_rooted (l : list string) :
  Forall kept_element l -> l <> [] ->
  rooted (Strs.Join l "/") = false /\ Strs.Join l "/" <> "".
Proof.
  intros Hl Hne. destruct l as [|a l]; [contradiction|].
  apply Forall_cons in Hl as [(Ha & H0 & _) _].
  destruct a as [|c a]; [contradiction|].
  apply noslash_cons in Ha as [Hc _].
  destruct l; simpl; rewrite Hc; split; [reflexivity|discriminate|reflexivity|discriminate].
Qed.

Lemma tidy_rev (root : bool) (out : list string) :
  tidy root out -> Forall kept_element (rev out) /\ Forall noslash (rev out).
Proof.
  intros [Hk _]. split; [apply Forall_rev, Hk|].
  apply Forall_rev. eapply Forall_impl; [exact Hk|]. intros e He. apply He.
Qed.

(** A cleaned path followed by a separator cleans to itself. *)
Lemma Clean_render_slash (root : bool) (out : list string) :
  tidy root out -> rev out <> [] ->
  Clean ((if root then "/" else "") +:+ Strs.Join (rev out) "/" +:+ "/") = render root out.
Proof.
  intros Ht Hne. destruct (tidy_rev root out Ht) as [Hk Hn].
  destruct (Join_rooted (rev out) Hk Hne) as [Hr H0].
  set (J := Strs.Join (rev out) "/") in *.
  assert (Hs : split (J +:+ "/") = rev out ++ [EmptyString]).
  { change (J +:+ "/") with (J +:+ String slash ""). rewrite split_slash.
    unfold J. rewrite (split_Join _ Hn Hne). reflexivity. }
  assert (Hfold : forall acc, fold_left (clean_step root) (rev out ++ [EmptyString]) acc
                              = fold_left (clean_step root) (rev out) acc).
  { intros acc. rewrite fold_left_app. reflexivity. }
  destruct root.
  - rewrite Clean_render by discriminate.
    change (rooted ("/" +:+ J +:+ "/")) with true.
    change ("/" +:+ J +:+ "/") with ("" +:+ String slash (J +:+ "/")).
    rewrite split_slash, Hs. cbn [split app fold_left]. change (clean_step true [] "") with (@nil string).
    rewrite Hfold, (refold true out Ht). reflexivity.
  - change ("" +:+ J +:+ "/") with (J +:+ "/").
    assert (Hne2 : J +:+ "/" <> "") by (destruct J; discriminate).
    rewrite (Clean_render _ Hne2).
    assert (Hr2 : rooted (J +:+ "/") = false) by (destruct J; [contradiction|exact Hr]).
    rewrite Hr2, Hs, Hfold, (refold false out Ht). reflexivity.
Qed.

(** [Clean] of a cleaned path is the path. *)
Lemma Clean_render_idem (root : bool) (out : list string) :
  tidy root out -> Clean (render root out) = render root out.
Proof.
  intros Ht. destruct (tidy_rev root out Ht) as [Hk Hn]. unfold render.
  destruct (rev out) as [|a l] eqn:El.
  - destruct root; reflexivity.
  - assert (Hne : rev out <> []) by (rewrite El; discriminate). rewrite <- El in *.
    destruct (Join_rooted (rev out) Hk Hne) as [Hr H0].
    set (J := Strs.Join (rev out) "/") in *.
    destruct root.
    + rewrite Clean_render by discriminate.
      change (rooted ("/" +:+ J)) with true.
      change ("/" +:+ J) with ("" +:+ String slash J).
      rewrite split_slash. unfold J at 1. rewrite (split_Join _ Hn Hne).
      cbn [split app fold_left]. change (clean_step true [] "") with (@nil string).
      rewrite (refold true out Ht). unfold render. reflexivity.
    + rewrite (Clean_render _ H0), Hr. unfold J at 1. rewrite (split_Join _ Hn Hne).
      rewrite (refold false out Ht). unfold render. rewrite El. rewrite <- El. reflexivity.
Qed.

Lemma Clean_tidy (p : string) :
  exists root out, tidy root out /\ Clean p = render root out
    /\ (p <> "" -> root = rooted p
                   /\ out = fold_left (clean_step (rooted p)) (split p) []).
Proof.
  destruct (decide (p = "")) as [->|Hp].
  - exists false, []. split; [apply tidy_nil|]. split; [reflexivity|]. contradiction.
  - exists (rooted p), (fold_left (clean_step (rooted p)) (split p) []).
    split; [apply fold_tidy; [apply split_elements|apply tidy_nil]|].
    split; [apply Clean_render, Hp|auto].
Qed.

Lemma Clean_idempotent (p : string) : Clean (Clean p) = Clean p.
Proof.
  destruct (Clean_tidy p) as (root & out & Ht & -> & _). apply Clean_render_idem, Ht.
Qed.

Lemma Clean_nonempty (p : string) : Clean p <> "".
Proof.
  destruct (Clean_tidy p) as (root & out & Ht & -> & _).
  destruct (tidy_rev root out Ht) as [Hk _]. unfold render.
  destruct root; [discriminate|].
  destruct (rev out) as [|a l] eqn:El; [discriminate|].
  rewrite <- El in *. apply Join_rooted; [exact Hk|]. rewrite El. discriminate.
Qed.

Lemma render_snoc (root : bool) (out : list string) (z : string) :
  render root (z :: out)
  = (if root then "/" else "")
    +:+ match rev out with
        | [] => z
        | _ => Strs.Join (rev out) "/" +:+ String slash z
        end.
Proof.
  unfold render. cbn [rev]. rewrite Join_snoc. destruct root; [reflexivity|].
  destruct (rev out); reflexivity.
Qed.

(** The directory of a cleaned path whose last element is a name: what the
    elements before it clean to. *)
Lemma Dir_Clean_snoc (p : string) (xs : list string) (z : string) :
  split p = xs ++ [z] -> is_name z ->
  Dir (Clean p) = render (rooted p) (fold_left (clean_step (rooted p)) xs []).
Proof.
  intros Hp Hz.
  assert (Hne : p <> "").
  { intros ->. simpl in Hp. destruct xs as [|? [|? ?]]; simpl in Hp; try discriminate.
    injection Hp as <-. destruct Hz as (_ & H & _). contradiction. }
  assert (Hxs : Forall noslash xs).
  { pose proof (split_elements p) as F. rewrite Hp in F. apply Forall_app in F as [F _].
    exact F. }
  set (root := rooted p).
  set (out := fold_left (clean_step root) xs []).
  assert (Ht : tidy root out) by (apply fold_tidy; [exact Hxs|apply tidy_nil]).
  rewrite (Clean_render p Hne), Hp, fold_left_app. fold root out. cbn [fold_left].
  rewrite (clean_step_name root out z Hz), render_snoc. unfold Dir.
  destruct Hz as (Hz & _).
  destruct (rev out) as [|a l] eqn:El.
  - unfold render. rewrite El. destruct root.
    + change ("/" +:+ z) with ("" +:+ String slash z).
      rewrite (cut_last_slash "" z Hz). reflexivity.
    + change ("" +:+ z) with z. rewrite (cut_last_noslash z Hz). reflexivity.
  - rewrite <- El in *. assert (Hne2 : rev out <> []) by (rewrite El; discriminate).
    pose proof (Clean_render_slash root out Ht Hne2) as Hc.
    rewrite <- append_assoc, (cut_last_slash _ z Hz). cbn [fst].
    rewrite <- Hc. f_equal. rewrite !append_assoc. reflexivity.
Qed.

(** The directory of [dir/name] is [dir], cleaned, and its base the name. *)
Lemma Dir_Base_Join (dir z : string) :
  dir <> "" -> is_name z ->
  Dir (Join [dir; z]) = Clean dir /\ Base (Join [dir; z]) = z.
Proof.
  intros Hd Hz. unfold Join.
  apply ValidationFacts.eqb_false in Hd as Ed. rewrite Ed.
  change (Strs.Join [dir; z] "/") with (dir +:+ String slash z).
  assert (Hs : split (dir +:+ String slash z) = split dir ++ [z]).
  { rewrite split_slash, (split_noslash z (proj1 Hz)). reflexivity. }
  split; [|apply (Base_Clean_name _ _ _ Hs Hz)].
  rewrite (Dir_Clean_snoc _ _ _ Hs Hz), (Clean_render dir Hd).
  assert (Hr : rooted (dir +:+ String slash z) = rooted dir).
  { destruct dir; [contradiction|reflexivity]. }
  rewrite Hr. reflexivity.
Qed.

Lemma cut_last_snd_noslash (s : string) : noslash (snd (cut_last s)).
Proof.
  induction s as [|c r IH]; [reflexivity|]. simpl.
  destruct (cut_last r) as [d b]. simpl in IH.
  destruct (Strs.eqb d "" && negb (Ascii.eqb c slash)) eqn:E; [|exact IH].
  apply andb_true_iff in E as [_ E]. apply negb_true_iff in E.
  apply noslash_cons. auto.
Qed.

Lemma Base_shape (p : string) : Base p = "/" \/ noslash (Base p).
Proof.
  unfold Base. destruct (Strs.eqb p ""); [right; reflexivity|].
  destruct (Strs.eqb (strip_slashes p) ""); [left; reflexivity|].
  right. apply cut_last_snd_noslash.
Qed.

Lemma Join_configs (dir : string) : exists q, Join [dir; "configs"] = Clean q.
Proof.
  unfold Join. destruct (Strs.eqb dir ""); eexists; reflexivity.
Qed.

Lemma ReplaceAll_noslash (s : string) (new : ascii) :
  Ascii.eqb new slash = false -> noslash (Strs.ReplaceAll s slash new).
Proof.
  intros Hn. induction s as [|c r IH]; [reflexivity|]. cbn [Strs.ReplaceAll].
  apply noslash_cons. split; [|exact IH].
  destruct (Ascii.eqb c slash) eqn:E; [exact Hn|exact E].
Qed.

(** X24: the cloud path of an item lies directly in the configs directory
    and is named by the slug of the item's name, whenever the slug is not
    empty, [.] or [..]: its directory is the configs directory and its
    base is the slug. *)
Theorem GetCloudPath_inside_configs (c : Config.LocalConfig) (item : Config.SyncItem) :
  Config.safeName (Config.Name item) <> "" ->
  Config.safeName (Config.Name item) <> "." ->
  Config.safeName (Config.Name item) <> ".." ->
  Dir (Config.GetCloudPath item (Config.GetCloudConfigsPath c))
  = Config.GetCloudConfigsPath c
  /\ Base (Config.GetCloudPath item (Config.GetCloudConfigsPath c))
     = Config.safeName (Config.Name item).
Proof.
  intros H0 H1 H2. unfold Config.GetCloudPath, Config.GetCloudConfigsPath.
  destruct (Join_configs (Config.CloudSyncDir c)) as [q Hq]. rewrite Hq.
  assert (Hz : is_name (Config.safeName (Config.Name item))).
  { split; [|auto]. unfold Config.safeName. apply ReplaceAll_noslash. reflexivity. }
  destruct (Dir_Base_Join (Clean q) _ (Clean_nonempty q) Hz) as [Hd Hb].
  rewrite Hd, Hb, Clean_idempotent. auto.
Qed.

Lemma GetCloudPath_inside_configs_witness :
  Config.safeName (Config.Name Scenario.Vim) <> ""
  /\ Config.safeName (Config.Name Scenario.Vim) <> "."
  /\ Config.safeName (Config.Name Scenario.Vim) <> ".."
  /\ Dir (Config.GetCloudPath Scenario.Vim (Config.GetCloudConfigsPath Scenario.H1))
     = Config.GetCloudConfigsPath Scenario.H1
  /\ Base (Config.GetCloudPath Scenario.Vim (Config.GetCloudConfigsPath Scenario.H1))
     = Config.safeName (Config.Name Scenario.Vim).
Proof.
  assert (H0 : Config.safeName (Config.Name Scenario.Vim) <> "")
    by (intros H; vm_compute in H; discriminate H).
  assert (H1 : Config.safeName (Config.Name Scenario.Vim) <> ".")
    by (intros H; vm_compute in H; discriminate H).
  assert (H2 : Config.safeName (Config.Name Scenario.Vim) <> "..")
    by (intros H; vm_compute in H; discriminate H).
  split; [exact H0|]. split; [exact H1|]. split; [exact H2|].
  apply (GetCloudPath_inside_configs Scenario.H1 Scenario.Vim H0 H1 H2).
Defined.

(** X25: the temporary file of a write is made in the directory of its
    target, so the rename that ends the write never leaves that directory;
    its path is never the target's, and its name is a dot, the target's
    name, [.tmp.] and the suffix (eight random bytes in hex, or the clock
    when no random bytes can be read). *)
Theorem generateTempPath_beside_target (e : Atomic.Entropy) (now : Z) (target : string) :
  Dir (Atomic.generateTempPath e now target) = Dir target
  /\ Atomic.generateTempPath e now target <> target
  /\ (Base target <> "/" ->
      Base (Atomic.generateTempPath e now target)
      = "." +:+ Base target +:+ ".tmp." +:+ Atomic.suffix_of e now).
Proof.
  pose proof (AtomicFacts.suffix_noslash e now) as Hs.
  split; [|split; [apply AtomicFacts.generateTempPath_differs|]].
  - unfold Atomic.generateTempPath. cbv zeta.
    assert (Hd : Dir target <> "") by apply Clean_nonempty.
    assert (Hcd : Clean (Dir target) = Dir target) by apply Clean_idempotent.
    destruct (Base_shape target) as [Hb|Hb].
    + rewrite Hb. unfold Join.
      apply ValidationFacts.eqb_false in Hd as Ed. rewrite Ed.
      set (z := ".tmp." +:+ Atomic.suffix_of e now).
      change (Strs.Join [Dir target; "." +:+ "/" +:+ z] "/")
        with (Dir target +:+ String slash ("." +:+ String slash z)).
      assert (Hz : is_name z).
      { apply name_of_long; [apply (noslash_app ".tmp."); [reflexivity|exact Hs]|].
        unfold z. rewrite append_length. simpl. lia. }
      assert (Hsp : split (Dir target +:+ String slash ("." +:+ String slash z))
                    = (split (Dir target) ++ ["."]) ++ [z]).
      { rewrite split_slash. change ("." +:+ String slash z) with ("." +:+ String slash z).
        rewrite (split_slash "." z), (split_noslash z (proj1 Hz)).
        rewrite <- app_assoc. reflexivity. }
      rewrite (Dir_Clean_snoc _ _ _ Hsp Hz), fold_left_app.
      assert (Hr : rooted (Dir target +:+ String slash ("." +:+ String slash z))
                   = rooted (Dir target)).
      { destruct (Dir target); [contradiction|reflexivity]. }
      rewrite Hr. cbn [fold_left].
      change (clean_step (rooted (Dir target))
                (fold_left (clean_step (rooted (Dir target))) (split (Dir target)) []) ".")
        with (fold_left (clean_step (rooted (Dir target))) (split (Dir target)) []).
      rewrite <- (Clean_render _ Hd). exact Hcd.
    + assert (Hz : is_name ("." +:+ Base target +:+ ".tmp." +:+ Atomic.suffix_of e now)).
      { apply name_of_long.
        - apply (noslash_app "."); [reflexivity|].
          apply noslash_app; [exact Hb|].
          apply (noslash_app ".tmp."); [reflexivity|exact Hs].
        - rewrite !append_length. simpl. lia. }
      destruct (Dir_Base_Join (Dir target) _ Hd Hz) as [H1 _]. rewrite H1. exact Hcd.
  - intros Hb. destruct (Base_shape target) as [Hb'|Hb']; [contradiction|].
    assert (Hz : is_name ("." +:+ Base target +:+ ".tmp." +:+ Atomic.suffix_of e now)).
    { apply name_of_long.
      - apply (noslash_app "."); [reflexivity|].
        apply noslash_app; [exact Hb'|].
        apply (noslash_app ".tmp."); [reflexivity|exact Hs].
      - rewrite !append_length. simpl. lia. }
    unfold Atomic.generateTempPath. cbv zeta.
    apply (Dir_Base_Join (Dir target) _ (Clean_nonempty _) Hz).
Qed.

End PathLaws.

(* ===================================================================== *)
(** ** Errors                                                            *)
(* ===================================================================== *)

Module ErrorsFacts.
Import Errors.

(** X26: the checks [IsFileNotFoundError], [IsPermissionError],
    [IsConflictError], [IsConfigError] and [IsValidationError] look at the
    error itself and never at what it wraps: each holds exactly for an
    error of its own type (and code), so an error that went through [Wrap],
    or that is the cause of another error, is not found by any of them,
    although its text is still in the message. *)
Theorem Is_checks_look_at_the_outermost_error (err : option error) :
  (IsFileNotFoundError err = true
   <-> exists o i p c, err = Some (SyncError o i p c ErrCodeFileNotFound))
  /\ (IsPermissionError err = true
      <-> exists o i p c, err = Some (SyncError o i p c ErrCodePermissionDenied))
  /\ (IsConflictError err = true
      <-> exists i l c lh ch t, err = Some (ConflictError i l c lh ch t))
  /\ (IsConfigError err = true <-> exists t p c k, err = Some (ConfigError t p c k))
  /\ (IsValidationError err = true <-> exists f v m, err = Some (ValidationError f v m))
  /\ (forall message,
        IsFileNotFoundError (Wrap err message) = false
        /\ IsPermissionError (Wrap err message) = false
        /\ IsConflictError (Wrap err message) = false
        /\ IsConfigError (Wrap err message) = false
        /\ IsValidationError (Wrap err message) = false
        /\ (forall o i p k, k <> ErrCodeFileNotFound ->
              IsFileNotFoundError (Some (SyncError o i p err k)) = false)
        /\ (forall e, err = Some e ->
              Unwrap (Wrapped message e) = Some e
              /\ option_map Error (Wrap err message)
                 = Some (message +:+ ": " +:+ Error e))).
Proof.
  split; [|split; [|split; [|split; [|split]]]].
  - destruct err as [[o i p c k| | | | |]|]; cbn;
      try (split; [discriminate|intros (? & ? & ? & ? & [=])]).
    rewrite ValidationFacts.eqb_true. split.
    + intros ->. eauto.
    + intros (? & ? & ? & ? & E). injection E as -> -> -> ->. assumption.
  - destruct err as [[o i p c k| | | | |]|]; cbn;
      try (split; [discriminate|intros (? & ? & ? & ? & [=])]).
    rewrite ValidationFacts.eqb_true. split.
    + intros ->. eauto.
    + intros (? & ? & ? & ? & E). injection E as -> -> -> ->. assumption.
  - destruct err as [[| | | | |]|]; cbn;
      try (split; [discriminate|intros (? & ? & ? & ? & ? & ? & [=])]).
    split; [eauto 10|reflexivity].
  - destruct err as [[| | | | |]|]; cbn;
      try (split; [discriminate|intros (? & ? & ? & ? & [=])]).
    split; [eauto 10|reflexivity].
  - destruct err as [[| | | | |]|]; cbn;
      try (split; [discriminate|intros (? & ? & ? & [=])]).
    split; [eauto 10|reflexivity].
  - intros message. destruct err as [e|]; cbn; repeat split; try reflexivity;
      try (intros; apply ValidationFacts.eqb_false; assumption);
      try (intros ? [= <-]; split; reflexivity); try discriminate;
      try congruence.
Qed.

(** A history of a collector: the errors given to [Add], nil ones
    included. *)
Definition add_all (errs : list (option error)) (ec : ErrorCollector) : ErrorCollector :=
  fold_left Add errs ec.

Lemma add_all_errors (errs : list (option error)) (ec : ErrorCollector) :
  errors (add_all errs ec) = errors ec ++ omap id errs.
Proof.
  revert ec. induction errs as [|[e|] rest IH]; intros ec; cbn.
  - rewrite app_nil_r. reflexivity.
  - unfold add_all in IH. rewrite IH. cbn. rewrite <- app_assoc. reflexivity.
  - apply IH.
Qed.

(** X27: an [ErrorCollector] keeps the errors it is given in the order
    given and drops the nil ones: [Count] is the number of errors that were
    not nil, [HasErrors] holds when there is one, and [Error] is
    [no errors] for none, the error's own text for one, and for more the
    count followed by the texts numbered from 1. *)
Theorem ErrorCollector_keeps_what_is_not_nil (errs : list (option error)) :
  let ec := add_all errs NewErrorCollector in
  errors ec = omap id errs
  /\ Count ec = length (omap id errs)
  /\ (HasErrors ec = true <-> exists e, Some e ∈ errs)
  /\ match omap id errs with
     | [] => ErrorCollector_Error ec = "no errors"
     | [e] => ErrorCollector_Error ec = Error e
     | e :: more =>
         ErrorCollector_Error ec
         = "multiple errors (" +:+ Strs.itoa (length (e :: more)) +:+ "): 1: "
           +:+ Error e +:+ "; " +:+ Strs.Join (messages 2 more) "; "
     end.
Proof.
  intros ec. assert (He : errors ec = omap id errs).
  { subst ec. rewrite add_all_errors. reflexivity. }
  split; [exact He|]. split; [unfold Count; rewrite He; reflexivity|]. split.
  - unfold HasErrors. rewrite He. split.
    + destruct (omap id errs) as [|e l] eqn:E; [discriminate|]. intros _.
      exists e. assert (Hin : e ∈ omap id errs) by (rewrite E; left).
      apply list_elem_of_omap in Hin as (x & Hx & Hid). cbn in Hid. subst x. exact Hx.
    + intros (e & Hin).
      assert (H : e ∈ omap id errs) by (apply list_elem_of_omap; exists (Some e); auto).
      destruct (omap id errs); [inversion H|reflexivity].
  - unfold ErrorCollector_Error. rewrite He.
    destruct (omap id errs) as [|e [|e2 more]]; reflexivity.
Qed.

End ErrorsFacts.
